(** * Matrix-free Hessian action of the TMOP mesh-quality energy (2-D kernels)

    A shallow embedding of the partial-assembly kernels
    [SetupGradPA_2D], [AddMultGradPA_Kernel_2D] and of the dispatcher
    [TMOP_Integrator::AddMultGradPA], together with the invariant
    derivative helpers they call.

    Conventions of the embedding.
    - A C++ [double] is a real number: every statement below is about exact
      arithmetic.  Division by zero, which the code turns into an infinity or
      a NaN, is the unspecified total division of [R].
    - A buffer of doubles is a function from offsets to reals; a multi-index
      view over it ([Reshape], [DenseMatrix]) is column major.
    - Loop counters and extents are natural numbers; the kernel identifier of
      the dispatcher is a 32-bit integer carried by [Z].
    - The [MFEM_FORALL_2D] / [MFEM_FOREACH_THREAD] macros are read with their
      host meaning: plain sequential loops, thread id [0] along z. *)

From Stdlib Require Import Reals Lra Lia List ZArith String Bool FinFun.
From Stdlib Require Import Classical_Prop FunctionalExtensionality.
Import ListNotations.
Open Scope R_scope.

(* ================================================================= *)
(** * Part I: the model *)

(** ** Loops *)

(** [for (int k = 0; k < n; k++) s = body k s]. *)
Fixpoint for_ {S : Type} (n : nat) (body : nat -> S -> S) (s : S) : S :=
  match n with
  | O => s
  | Datatypes.S k => body k (for_ k body s)
  end.

(** The sum [f 0 + ... + f (n-1)], associated the way an accumulator
    [u += f k] initialised with [0] builds it. *)
Fixpoint rsum (n : nat) (f : nat -> R) : R :=
  match n with
  | O => 0
  | Datatypes.S k => rsum k f + f k
  end.

(** ** Dense matrices *)

(** [mfem::DenseMatrix]: extents and column-major data. *)
Record DenseMatrix : Type := mkDenseMatrix {
  Height : nat;
  Width : nat;
  Data : nat -> R
}.

(** [M(i,j)]. *)
Definition elem (M : DenseMatrix) (i j : nat) : R :=
  Data M (i + j * Height M).

(** [M(i,j) = v]. *)
Definition set_elem (M : DenseMatrix) (i j : nat) (v : R) : DenseMatrix :=
  mkDenseMatrix (Height M) (Width M)
    (fun k => if Nat.eqb k (i + j * Height M) then v else Data M k).

(** [DenseMatrix M(h, w)]: storage set to zero. *)
Definition DenseMatrix_new (h w : nat) : DenseMatrix :=
  mkDenseMatrix h w (fun _ => 0).

(** [DenseMatrix M(data, h, w)]: a view over existing storage. *)
Definition DenseMatrix_view (data : nat -> R) (h w : nat) : DenseMatrix :=
  mkDenseMatrix h w data.

(** [M = a]. *)
Definition assign_const (M : DenseMatrix) (a : R) : DenseMatrix :=
  mkDenseMatrix (Height M) (Width M) (fun _ => a).

(** [M *= a]. *)
Definition scale (M : DenseMatrix) (a : R) : DenseMatrix :=
  mkDenseMatrix (Height M) (Width M) (fun k => Data M k * a).

(** Modelled from the spec: [DenseMatrix::Det] is not part of the sources at
    hand; for the 2x2 matrices of this file it is the determinant
    [det(M)] of the specification, read off the column-major storage. *)
Definition Det (M : DenseMatrix) : R :=
  Data M 0 * Data M 3 - Data M 1 * Data M 2.

(** Modelled from the spec: [DenseMatrix::FNorm2] is not part of the sources
    at hand; it is the squared Frobenius norm of the specification, the sum
    of the squares of all entries. *)
Definition FNorm2 (M : DenseMatrix) : R :=
  rsum (Height M * Width M) (fun k => Data M k * Data M k).

(** Modelled from the spec: the dense product [Mult(A, B, C)], [C = A B],
    is not part of the sources at hand. *)
Definition Mult (A B : DenseMatrix) : DenseMatrix :=
  mkDenseMatrix (Height A) (Width B)
    (fun k =>
       let i := Nat.modulo k (Height A) in
       let j := Nat.div k (Height A) in
       rsum (Width A) (fun l => elem A i l * elem B l j)).

Definition is2x2 (M : DenseMatrix) : Prop := Height M = 2%nat /\ Width M = 2%nat.

(** The 2x2 matrix with rows [(a, b)] and [(c, d)]. *)
Definition mat2 (a b c d : R) : DenseMatrix :=
  mkDenseMatrix 2 2
    (fun k => match k with
              | 0%nat => a | 1%nat => c | 2%nat => b | 3%nat => d
              | _ => 0 end).

(** ** Invariant derivative library *)

(** [dI2_dM = d(det(M))_dM = adj(M)^T]. *)
Definition Dim2Invariant2_dM (M dM : DenseMatrix) : DenseMatrix :=
  let dM := set_elem dM 0 0 (elem M 1 1) in
  let dM := set_elem dM 0 1 (- elem M 1 0) in
  let dM := set_elem dM 1 0 (- elem M 0 1) in
  let dM := set_elem dM 1 1 (elem M 0 0) in
  dM.

Definition Dim2Invariant2_dMdM (M : DenseMatrix) (i j : nat)
    (dMdM : DenseMatrix) : DenseMatrix :=
  let dMdM := assign_const dMdM 0 in
  set_elem dMdM (1 - i) (1 - j) (if Nat.eqb i j then 1 else -1).

(** [(dI1_dM)_d(Mij) = d[(2 det(M) M - |M|^2 adj(M)^T) / det(M)^2]_d[Mij]]. *)
Definition Dim2Invariant1_dMdM (M : DenseMatrix) (i j : nat)
    (dMdM : DenseMatrix) : DenseMatrix :=
  let dI := DenseMatrix_new 2 2 in
  let dI := Dim2Invariant2_dM M dI in
  let ddet := elem dI i j in
  let dfnorm2 := 2 * elem M i j in
  let det := Det M in
  let det2 := det * det in
  let fnorm2 := FNorm2 M in
  let dM := DenseMatrix_new 2 2 in
  let dM := assign_const dM 0 in
  let dM := set_elem dM i j 1 in
  let ddI := DenseMatrix_new 2 2 in
  let ddI := Dim2Invariant2_dMdM M i j ddI in
  for_ 2 (fun r dMdM =>
    for_ 2 (fun c dMdM =>
      set_elem dMdM r c
        ((det2 *
          (2 * ddet * elem M r c + 2 * det * elem dM r c
           - dfnorm2 * elem dI r c - fnorm2 * elem ddI r c)
          - 2 * det * ddet *
            (2 * det * elem M r c - fnorm2 * elem dI r c))
         / (det2 * det2)))
      dMdM)
    dMdM.

(** *** What the library is meant to compute *)

(** The adjugate of a 2x2 matrix and its transpose. *)
Definition adjugate (M : DenseMatrix) : DenseMatrix :=
  mat2 (elem M 1 1) (- elem M 0 1) (- elem M 1 0) (elem M 0 0).

Definition transpose2 (M : DenseMatrix) : DenseMatrix :=
  mat2 (elem M 0 0) (elem M 1 0) (elem M 0 1) (elem M 1 1).

(** The gradient expression of the specification,
    [(2 det(M) M - |M|_F^2 adj(M)^T) / det(M)^2], entry [(r, c)]. *)
Definition metric_gradient (M : DenseMatrix) (r c : nat) : R :=
  (2 * Det M * elem M r c - FNorm2 M * elem (transpose2 (adjugate M)) r c)
  / (Det M * Det M).

(** The invariant as the specification writes it,
    [(2 det(M) |M|_F^2 - |M|_F^4) / det(M)^2]. *)
Definition I1_as_specified (M : DenseMatrix) : R :=
  (2 * Det M * FNorm2 M - FNorm2 M * FNorm2 M) / (Det M * Det M).

(** The invariant whose gradient the gradient expression is,
    [|M|_F^2 / det(M)]. *)
Definition I1 (M : DenseMatrix) : R := FNorm2 M / Det M.

(** [M] with [t] added to its entry [(i, j)]. *)
Definition perturb (M : DenseMatrix) (i j : nat) (t : R) : DenseMatrix :=
  set_elem M i j (elem M i j + t).

(** [l] is the partial derivative of [f] at [M] with respect to [M(i,j)]. *)
Definition partial_at (f : DenseMatrix -> R) (i j : nat) (M : DenseMatrix)
    (l : R) : Prop :=
  derivable_pt_lim (fun t => f (perturb M i j t)) 0 l.

(** [l] is the second partial derivative of [f] at [M], first with respect to
    [M(r,c)] and then with respect to [M(i,j)]: the first partial derivative
    exists as a function [g] on the non-singular 2x2 matrices and [l] is the
    partial derivative of [g]. *)
Definition second_partial_at (f : DenseMatrix -> R) (r c i j : nat)
    (M : DenseMatrix) (l : R) : Prop :=
  exists g : DenseMatrix -> R,
    (forall M', is2x2 M' -> Det M' <> 0 -> partial_at f r c M' (g M')) /\
    partial_at g i j M l.

(** The first partial derivative of [I1_as_specified] with respect to
    [M(0,0)], by the quotient rule. *)
Definition dI1_as_specified_00 (M : DenseMatrix) : R :=
  let n := FNorm2 M in
  let d := Det M in
  let n' := 2 * elem M 0 0 in
  let d' := elem M 1 1 in
  ((2 * d' * n + 2 * d * n' - 2 * n * n') * (d * d)
   - (2 * d * n - n * n) * (2 * d * d')) / ((d * d) * (d * d)).

(** ** Buffers and shared memory *)

(** The buffers a kernel writes: the [MFEM_SHARED] scratch arrays of the two
    kernels (the argument is the first index of the declaration, as in
    [s_DQ[4][NBZ][MD1*MQ1]]; the [NBZ] index is the thread id along z, [0])
    and the output vectors [p_], [g_] and [y_]. *)
Inductive buf : Type :=
| s_BG (k : nat)
| s_X (k : nat)
| s_Xx
| s_Xy
| s_DQ (k : nat)
| s_QQ (k : nat)
| s_RDQ (k : nat)
| s_CDQ (k : nat)
| s_RQQ (k : nat)
| s_YQQ (k : nat)
| v_p
| v_g
| v_y.

Definition cell : Type := (buf * nat)%type.

Definition buf_eq_dec (a b : buf) : {a = b} + {a <> b}.
Proof. decide equality; apply Nat.eq_dec. Defined.

Definition cell_eq_dec (a b : cell) : {a = b} + {a <> b}.
Proof. decide equality; [ apply Nat.eq_dec | apply buf_eq_dec ]. Defined.

(** Is the buffer one of the scratch arrays? *)
Definition is_scratch (b : buf) : bool :=
  match b with
  | v_p | v_g | v_y => false
  | _ => true
  end.

Definition mem : Type := cell -> R.

(** [*c = v]. *)
Definition upd (m : mem) (c : cell) (v : R) : mem :=
  fun c' => if cell_eq_dec c' c then v else m c'.

(** A sequence of stores, first to last. *)
Definition wr (ws : list (cell * R)) (m : mem) : mem :=
  fold_left (fun m w => upd m (fst w) (snd w)) ws m.

(** [A[i][j]] for a pointer [A] to rows of [stride] doubles laid over the
    buffer [b]. *)
Definition at2 (stride : nat) (b : buf) (i j : nat) : cell :=
  (b, (i * stride + j)%nat).

(** A vector seen as the content of a buffer, and back. *)
Definition vec_of (m : mem) (b : buf) : nat -> R := fun i => m (b, i).

Definition with_vec (m : mem) (b : buf) (v : nat -> R) : mem :=
  fun c => if buf_eq_dec (fst c) b then v (snd c) else m c.

(** Column-major offsets of the [Reshape] views. *)
Definition ix2 (n1 : nat) (i j : nat) : nat := (i + n1 * j)%nat.

Definition ix4 (n1 n2 n3 : nat) (i j k l : nat) : nat :=
  (i + n1 * (j + n2 * (k + n3 * l)))%nat.

Definition ix5 (n1 n2 n3 n4 : nat) (i j k l p : nat) : nat :=
  (i + n1 * (j + n2 * (k + n3 * (l + n4 * p))))%nat.

Definition ix7 (n1 n2 n3 n4 n5 n6 : nat) (i j k l p q r : nat) : nat :=
  (i + n1 * (j + n2 * (k + n3 * (l + n4 * (p + n5 * (q + n6 * r))))))%nat.

(** A local array of four doubles, [{a, b, c, d}]. *)
Definition arr4 (a b c d : R) : nat -> R :=
  fun k => match k with
           | 0%nat => a | 1%nat => b | 2%nat => c | 3%nat => d
           | _ => 0 end.

(** [A[i] = v] on a local array. *)
Definition aset (A : nat -> R) (i : nat) (v : R) : nat -> R :=
  fun k => if Nat.eqb k i then v else A k.

(** Modelled from the spec: [kernels::CalcInverse<2>] is not part of the
    sources at hand; it is the inverse of the reference Jacobian of the
    specification, on column-major storage. *)
Definition CalcInverse2 (data : nat -> R) : nat -> R :=
  let d := data 0%nat * data 3%nat - data 1%nat * data 2%nat in
  let t := 1 / d in
  arr4 (data 3%nat * t) (- data 1%nat * t) (- data 2%nat * t) (data 0%nat * t).

(** Modelled from the spec: [kernels::Mult(h, w, bw, A, B, AB)], [AB = A B]
    on column-major storage, is not part of the sources at hand. *)
Definition kernels_Mult (ah aw bw : nat) (A B : nat -> R) : nat -> R :=
  fun n =>
    let i := Nat.modulo n ah in
    let j := Nat.div n ah in
    rsum aw (fun k => A (i + k * ah)%nat * B (k + j * aw)%nat).

(** Modelled from the spec: [kernels::MultABt(h, w, bh, A, B, ABt)],
    [ABt = A B^T] on column-major storage, is not part of the sources at
    hand. *)
Definition kernels_MultABt (ah aw bh : nat) (A B : nat -> R) : nat -> R :=
  fun n =>
    let i := Nat.modulo n ah in
    let j := Nat.div n ah in
    rsum aw (fun k => A (i + k * ah)%nat * B (j + k * bh)%nat).

Definition VDIM : nat := 2.
Definition dim : nat := 2.

(** [T ? T : rt]: a template argument, or the run-time value when the
    template argument is [0]. *)
Definition tpl (T rt : nat) : nat := if Nat.eqb T 0 then rt else T.

(** The views the kernels lay over their arguments. *)
Definition view2 (n1 : nat) (v : nat -> R) : nat -> nat -> R :=
  fun i j => v (ix2 n1 i j).

Definition view4 (n1 n2 n3 : nat) (v : nat -> R)
    : nat -> nat -> nat -> nat -> R :=
  fun i j k l => v (ix4 n1 n2 n3 i j k l).

Definition view7 (n1 n2 n3 n4 n5 n6 : nat) (v : nat -> R)
    : nat -> nat -> nat -> nat -> nat -> nat -> nat -> R :=
  fun i j k l p q r => v (ix7 n1 n2 n3 n4 n5 n6 i j k l p q r).

(** ** The Apply kernel, [AddMultGradPA_Kernel_2D] *)

(** The body of [MFEM_FORALL_2D(e, NE, Q1D, Q1D, NBZ, {...})] for one
    element [e], cut at the [MFEM_SYNC_THREAD] barriers.  [b], [g], [J], [X]
    and [dP] are the read-only [Reshape] views of the kernel; the output view
    [Y] is the buffer [v_y]. *)
Module Apply.
Section Element.
Variables D1D Q1D MD1 MQ1 : nat.
Variables b g : nat -> nat -> R.
Variable J : nat -> nat -> R.
Variable X : nat -> nat -> nat -> nat -> R.
Variable dP : nat -> nat -> nat -> nat -> nat -> nat -> nat -> R.
Variable e : nat.

(** The shared arrays, by the names the kernel gives them. *)
Definition B1d := at2 MD1 (s_BG 0).
Definition G1d := at2 MD1 (s_BG 1).
Definition B1dt := at2 MQ1 (s_BG 0).
Definition G1dt := at2 MQ1 (s_BG 1).
Definition Xx := at2 MD1 s_Xx.
Definition Xy := at2 MD1 s_Xy.
Definition RxB := at2 MQ1 (s_RDQ 0).
Definition RxG := at2 MQ1 (s_RDQ 1).
Definition RyB := at2 MQ1 (s_RDQ 2).
Definition RyG := at2 MQ1 (s_RDQ 3).
Definition CxB := at2 MQ1 (s_CDQ 0).
Definition CxG := at2 MQ1 (s_CDQ 1).
Definition CyB := at2 MQ1 (s_CDQ 2).
Definition CyG := at2 MQ1 (s_CDQ 3).
Definition Rx0 := at2 MQ1 (s_RQQ 0).
Definition Rx1 := at2 MQ1 (s_RQQ 1).
Definition Ry0 := at2 MQ1 (s_RQQ 2).
Definition Ry1 := at2 MQ1 (s_RQQ 3).
Definition Cx0 := at2 MQ1 (s_YQQ 0).
Definition Cx1 := at2 MQ1 (s_YQQ 1).
Definition Cy0 := at2 MQ1 (s_YQQ 2).
Definition Cy1 := at2 MQ1 (s_YQQ 3).
Definition Y (dx dy c : nat) : cell := (v_y, ix4 D1D D1D VDIM dx dy c e).

(** Load R(x,y) and X(x,y). *)
Definition load_X (m : mem) : mem :=
  for_ D1D (fun dy m =>
    for_ D1D (fun dx m =>
      let m := upd m (Xx dy dx) (X dx dy 0%nat e) in
      let m := upd m (Xy dy dx) (X dx dy 1%nat e) in
      m) m) m.

(** Load B1d and G1d matrices ([tidz == 0]). *)
Definition load_BG (m : mem) : mem :=
  for_ D1D (fun d m =>
    for_ Q1D (fun q m =>
      let m := upd m (B1d q d) (b q d) in
      let m := upd m (G1d q d) (g q d) in
      m) m) m.

Definition pass_RDQ (m : mem) : mem :=
  for_ D1D (fun dy m =>
    for_ Q1D (fun qx m =>
      let '(u0, v0, u1, v1) :=
        for_ D1D (fun dx '(u0, v0, u1, v1) =>
          let rx := m (Xx dy dx) in
          let ry := m (Xy dy dx) in
          (u0 + m (B1d qx dx) * rx,
           v0 + m (G1d qx dx) * rx,
           u1 + m (B1d qx dx) * ry,
           v1 + m (G1d qx dx) * ry))
          (0, 0, 0, 0) in
      let m := upd m (RxB dy qx) u0 in
      let m := upd m (RxG dy qx) v0 in
      let m := upd m (RyB dy qx) u1 in
      let m := upd m (RyG dy qx) v1 in
      m) m) m.

Definition pass_RQQ (m : mem) : mem :=
  for_ Q1D (fun qy m =>
    for_ Q1D (fun qx m =>
      let '(u0, v0, u1, v1) :=
        for_ D1D (fun dy '(u0, v0, u1, v1) =>
          (u0 + m (RxG dy qx) * m (B1d qy dy),
           v0 + m (RxB dy qx) * m (G1d qy dy),
           u1 + m (RyG dy qx) * m (B1d qy dy),
           v1 + m (RyB dy qx) * m (G1d qy dy)))
          (0, 0, 0, 0) in
      let m := upd m (Rx0 qy qx) u0 in
      let m := upd m (Rx1 qy qx) v0 in
      let m := upd m (Ry0 qy qx) u1 in
      let m := upd m (Ry1 qy qx) v1 in
      m) m) m.

(** The quadrature-point contraction: [A = X^T . Jrt], [B = A : dP],
    [C = Jrt . B]. *)
Definition contract_qp (GRx0h GRx1h GRy0h GRy1h : R) (qx qy : nat)
    : nat -> R :=
  let Jtr_p := arr4 (J 0 0) (J 1 0) (J 0 1) (J 1 1) in
  let Jrt := CalcInverse2 Jtr_p in
  let hX := arr4 GRx0h GRy0h GRx1h GRy1h in
  let A := kernels_Mult 2 2 2 hX Jrt in
  let B :=
    for_ dim (fun r B =>
      for_ dim (fun c B =>
        let B := aset B (r + 2 * c) 0 in
        for_ dim (fun i B =>
          for_ dim (fun j B =>
            aset B (r + 2 * c)
              (B (r + 2 * c)%nat + dP i j r c qx qy e * A (i + 2 * j)%nat))
            B) B) B)
      (fun _ => 0) in
  kernels_MultABt 2 2 2 Jrt B.

Definition pass_YQQ (m : mem) : mem :=
  for_ Q1D (fun qy m =>
    for_ Q1D (fun qx m =>
      let C := contract_qp (m (Rx0 qy qx)) (m (Rx1 qy qx))
                 (m (Ry0 qy qx)) (m (Ry1 qy qx)) qx qy in
      let m := upd m (Cx0 qy qx) (C 0%nat) in
      let m := upd m (Cy0 qy qx) (C 2%nat) in
      let m := upd m (Cx1 qy qx) (C 1%nat) in
      let m := upd m (Cy1 qy qx) (C 3%nat) in
      m) m) m.

(** The tables again, transposed, over the same storage ([tidz == 0]). *)
Definition load_BGt (m : mem) : mem :=
  for_ D1D (fun d m =>
    for_ Q1D (fun q m =>
      let m := upd m (B1dt d q) (b q d) in
      let m := upd m (G1dt d q) (g q d) in
      m) m) m.

Definition pass_CDQ (m : mem) : mem :=
  for_ Q1D (fun qy m =>
    for_ D1D (fun dx m =>
      let '(u0, v0, u1, v1) :=
        for_ Q1D (fun qx '(u0, v0, u1, v1) =>
          (u0 + m (G1dt dx qx) * m (Cx0 qy qx),
           v0 + m (B1dt dx qx) * m (Cx1 qy qx),
           u1 + m (G1dt dx qx) * m (Cy0 qy qx),
           v1 + m (B1dt dx qx) * m (Cy1 qy qx)))
          (0, 0, 0, 0) in
      let m := upd m (CxB dx qy) u0 in
      let m := upd m (CxG dx qy) v0 in
      let m := upd m (CyB dx qy) u1 in
      let m := upd m (CyG dx qy) v1 in
      m) m) m.

Definition pass_Y (m : mem) : mem :=
  for_ D1D (fun dy m =>
    for_ D1D (fun dx m =>
      let '(u0, v0, u1, v1) :=
        for_ Q1D (fun qy '(u0, v0, u1, v1) =>
          (u0 + m (CxB dx qy) * m (B1dt dy qy),
           v0 + m (CxG dx qy) * m (G1dt dy qy),
           u1 + m (CyB dx qy) * m (B1dt dy qy),
           v1 + m (CyG dx qy) * m (G1dt dy qy)))
          (0, 0, 0, 0) in
      let m := upd m (Y dx dy 0) (m (Y dx dy 0%nat) + (u0 + v0)) in
      let m := upd m (Y dx dy 1) (m (Y dx dy 1%nat) + (u1 + v1)) in
      m) m) m.

Definition element (m : mem) : mem :=
  let m := load_X m in
  let m := load_BG m in
  let m := pass_RDQ m in
  let m := pass_RQQ m in
  let m := pass_YQQ m in
  let m := load_BGt m in
  let m := pass_CDQ m in
  let m := pass_Y m in
  m.
End Element.
End Apply.

(** [AddMultGradPA_Kernel_2D<T_D1D, T_Q1D, T_NBZ>(NE, b1d_, g1d_, Jtr, p_, x_,
    y_, d1d, q1d)].  The template argument [T_NBZ] only sizes the scratch
    arrays along z and is left out.  [MAX_D1D] and [MAX_Q1D] are the
    compile-time bounds the kernel takes from a header that is not part of
    the sources at hand.  The memory [m] holds [y_] in the buffer [v_y] and
    whatever the scratch arrays contain when the kernel starts. *)
Definition AddMultGradPA_Kernel_2D (MAX_D1D MAX_Q1D : nat)
    (T_D1D T_Q1D : nat) (NE : nat) (b1d_ g1d_ : nat -> R) (Jtr : DenseMatrix)
    (p_ x_ : nat -> R) (d1d q1d : nat) (m : mem) : mem :=
  let D1D := tpl T_D1D d1d in
  let Q1D := tpl T_Q1D q1d in
  let MQ1 := tpl T_Q1D MAX_Q1D in
  let MD1 := tpl T_D1D MAX_D1D in
  let b := view2 Q1D b1d_ in
  let g := view2 Q1D g1d_ in
  let J := view2 VDIM (Data Jtr) in
  let X := view4 D1D D1D VDIM x_ in
  let dP := view7 VDIM VDIM VDIM VDIM Q1D Q1D p_ in
  for_ NE (fun e m => Apply.element D1D Q1D MD1 MQ1 b g J X dP e m) m.

(** ** The Setup kernel, [SetupGradPA_2D] *)

(** [DenseMatrix dP(&P(0,0,r,c,qx,qy,e), dim, dim)]: a matrix laid over the
    [h * w] cells of [p_] that start at [base].  An operation on the view is
    an operation on those cells. *)
Definition load_view (m : mem) (base h w : nat) : DenseMatrix :=
  DenseMatrix_view (fun k => m (v_p, (base + k)%nat)) h w.

Definition store_view (m : mem) (base : nat) (M : DenseMatrix) : mem :=
  for_ (Height M * Width M)
    (fun k m => upd m (v_p, (base + k)%nat) (Data M k)) m.

(** The body of [MFEM_FORALL_2D(e, NE, Q1D, Q1D, NBZ, {...})] for one
    element [e], cut at the [MFEM_SYNC_THREAD] barriers.  [W], [b1d], [g1d],
    [J] and [X] are the read-only [Reshape] views of the kernel; the output
    views [P] and [G] are the buffers [v_p] and [v_g]. *)
Module Setup.
Section Element.
Variables D1D Q1D MD1 MQ1 : nat.
Variable W : nat -> nat -> R.
Variables b1d g1d : nat -> nat -> R.
Variable J : nat -> nat -> R.
Variable X : nat -> nat -> nat -> nat -> R.
Variable e : nat.

(** The shared arrays, by the names the kernel gives them. *)
Definition B1d := at2 MD1 (s_BG 0).
Definition G1d := at2 MD1 (s_BG 1).
Definition Xx := at2 MD1 (s_X 0).
Definition Xy := at2 MD1 (s_X 1).
Definition XxB := at2 MQ1 (s_DQ 0).
Definition XxG := at2 MQ1 (s_DQ 1).
Definition XyB := at2 MQ1 (s_DQ 2).
Definition XyG := at2 MQ1 (s_DQ 3).
Definition Xx0 := at2 MQ1 (s_QQ 0).
Definition Xx1 := at2 MQ1 (s_QQ 1).
Definition Xy0 := at2 MQ1 (s_QQ 2).
Definition Xy1 := at2 MQ1 (s_QQ 3).

Definition P_ix (i j r c qx qy : nat) : nat :=
  ix7 VDIM VDIM VDIM VDIM Q1D Q1D i j r c qx qy e.

Definition P (i j r c qx qy : nat) : cell := (v_p, P_ix i j r c qx qy).

Definition G (qx qy i j : nat) : cell :=
  (v_g, ix5 Q1D Q1D (D1D * D1D * VDIM) (D1D * D1D * VDIM) qx qy i j e).

(** Load X(x,y). *)
Definition load_X (m : mem) : mem :=
  for_ D1D (fun dy m =>
    for_ D1D (fun dx m =>
      let m := upd m (Xx dy dx) (X dx dy 0%nat e) in
      let m := upd m (Xy dy dx) (X dx dy 1%nat e) in
      m) m) m.

(** Load B1d and G1d matrices ([tidz == 0]). *)
Definition load_BG (m : mem) : mem :=
  for_ D1D (fun d m =>
    for_ Q1D (fun q m =>
      let m := upd m (B1d q d) (b1d q d) in
      let m := upd m (G1d q d) (g1d q d) in
      m) m) m.

Definition pass_DQ (m : mem) : mem :=
  for_ D1D (fun dy m =>
    for_ Q1D (fun qx m =>
      let '(u0, v0, u1, v1) :=
        for_ D1D (fun dx '(u0, v0, u1, v1) =>
          let xx := m (Xx dy dx) in
          let xy := m (Xy dy dx) in
          (u0 + m (B1d qx dx) * xx,
           v0 + m (G1d qx dx) * xx,
           u1 + m (B1d qx dx) * xy,
           v1 + m (G1d qx dx) * xy))
          (0, 0, 0, 0) in
      let m := upd m (XxB dy qx) u0 in
      let m := upd m (XxG dy qx) v0 in
      let m := upd m (XyB dy qx) u1 in
      let m := upd m (XyG dy qx) v1 in
      m) m) m.

Definition pass_QQ (m : mem) : mem :=
  for_ Q1D (fun qy m =>
    for_ Q1D (fun qx m =>
      let '(u0, v0, u1, v1) :=
        for_ D1D (fun dy '(u0, v0, u1, v1) =>
          (u0 + m (XxG dy qx) * m (B1d qy dy),
           v0 + m (XxB dy qx) * m (G1d qy dy),
           u1 + m (XyG dy qx) * m (B1d qy dy),
           v1 + m (XyB dy qx) * m (G1d qy dy)))
          (0, 0, 0, 0) in
      let m := upd m (Xx0 qy qx) u0 in
      let m := upd m (Xx1 qy qx) v0 in
      let m := upd m (Xy0 qy qx) u1 in
      let m := upd m (Xy1 qy qx) v1 in
      m) m) m.

(** [Jrt = Jtr^{-1}]. *)
Definition Jrt_qp : DenseMatrix :=
  let Jtrx0 := J 0%nat 0%nat in
  let Jtrx1 := J 0%nat 1%nat in
  let Jtry0 := J 1%nat 0%nat in
  let Jtry1 := J 1%nat 1%nat in
  let Jtr_p := arr4 Jtrx0 Jtry0 Jtrx1 Jtry1 in
  DenseMatrix_view (CalcInverse2 Jtr_p) dim dim.

(** Compute DSh (dof x dim) and [DS = DSh Jrt]. *)
Definition DS_qp (qx qy : nat) (m : mem) : DenseMatrix :=
  let dof := (D1D * D1D)%nat in
  let DSh :=
    for_ D1D (fun i1 DSh =>
      for_ D1D (fun i2 DSh =>
        let bg := m (G1d qx i1) * m (B1d qy i2) in
        let gb := m (B1d qx i1) * m (G1d qy i2) in
        let dof := (i2 + i1 * D1D)%nat in
        let DSh := set_elem DSh dof 0 bg in
        let DSh := set_elem DSh dof 1 gb in
        DSh) DSh)
      (DenseMatrix_new dof dim) in
  Mult DSh Jrt_qp.

(** [GX = X^T.DSh] and [Jpt = GX^T.DS = (GX^T.DSh).Jrt = GX.Jrt]. *)
Definition Jpt_qp (qx qy : nat) (m : mem) : DenseMatrix :=
  let GXx0h := m (Xx0 qy qx) in
  let GXx1h := m (Xx1 qy qx) in
  let GXy0h := m (Xy0 qy qx) in
  let GXy1h := m (Xy1 qy qx) in
  let GXh := DenseMatrix_view (arr4 GXx0h GXy0h GXx1h GXy1h) dim dim in
  Mult GXh Jrt_qp.

(** The innermost loops: the contribution of [dp = dP(rr,cc)] to the dense
    block [G]. *)
Definition accumulate_G (DS : DenseMatrix) (qx qy r c rr cc : nat) (dp : R)
    (m : mem) : mem :=
  let dof := (D1D * D1D)%nat in
  for_ dof (fun i m =>
    for_ dof (fun j m =>
      let ds := elem DS i c * elem DS j cc in
      let Gij := G qx qy (i + r * dof) (j + rr * dof) in
      upd m Gij (m Gij + ds * dp)) m) m.

(** The body of the loops over [r] and [c]: [scaling] is
    [sign * 0.5 * weight_detJtr]. *)
Definition assemble_rc (DS Jpt : DenseMatrix) (scaling : R)
    (qx qy r c : nat) (m : mem) : mem :=
  let base := P_ix 0 0 r c qx qy in
  let m := store_view m base
             (Dim2Invariant1_dMdM Jpt r c (load_view m base dim dim)) in
  let m := store_view m base (scale (load_view m base dim dim) scaling) in
  for_ dim (fun rr m =>
    for_ dim (fun cc m =>
      let dp := elem (load_view m base dim dim) rr cc in
      accumulate_G DS qx qy r c rr cc dp m) m) m.

(** The quadrature point [(qx, qy)]. *)
Definition assemble_qp (qy qx : nat) (m : mem) : mem :=
  let weight := W qx qy in
  let Jtrx0 := J 0%nat 0%nat in
  let Jtrx1 := J 0%nat 1%nat in
  let Jtry0 := J 1%nat 0%nat in
  let Jtry1 := J 1%nat 1%nat in
  let detJtr := Jtrx0 * Jtry1 - Jtrx1 * Jtry0 in
  let weight_detJtr := weight * detJtr in
  let DS := DS_qp qx qy m in
  let Jpt := Jpt_qp qx qy m in
  let sign := if Rlt_dec (Det Jpt) 0 then -1 else 1 in
  for_ dim (fun r m =>
    for_ dim (fun c m =>
      assemble_rc DS Jpt (sign * (1 / 2) * weight_detJtr) qx qy r c m) m) m.

Definition assemble (m : mem) : mem :=
  for_ Q1D (fun qy m => for_ Q1D (fun qx m => assemble_qp qy qx m) m) m.

Definition element (m : mem) : mem :=
  let m := load_X m in
  let m := load_BG m in
  let m := pass_DQ m in
  let m := pass_QQ m in
  let m := assemble m in
  m.
End Element.
End Setup.

(** [SetupGradPA_2D<T_D1D, T_Q1D, T_NBZ>(xe_, NE, w_, b1d_, g1d_, Jtr, p_, g_,
    d1d, q1d)].  The memory [m] holds [p_] and [g_] in the buffers [v_p] and
    [v_g] and whatever the scratch arrays contain when the kernel starts. *)
Definition SetupGradPA_2D (MAX_D1D MAX_Q1D : nat) (T_D1D T_Q1D : nat)
    (xe_ : nat -> R) (NE : nat) (w_ b1d_ g1d_ : nat -> R) (Jtr : DenseMatrix)
    (d1d q1d : nat) (m : mem) : mem :=
  let D1D := tpl T_D1D d1d in
  let Q1D := tpl T_Q1D q1d in
  let MQ1 := tpl T_Q1D MAX_Q1D in
  let MD1 := tpl T_D1D MAX_D1D in
  let W := view2 Q1D w_ in
  let b1d := view2 Q1D b1d_ in
  let g1d := view2 Q1D g1d_ in
  let J := view2 VDIM (Data Jtr) in
  let X := view4 D1D D1D VDIM xe_ in
  for_ NE (fun e m => Setup.element D1D Q1D MD1 MQ1 W b1d g1d J X e m) m.

(** ** What the Apply kernel computes, written without scratch memory *)

Section ApplyValues.
Variables D1D Q1D : nat.
Variables b g : nat -> nat -> R.
Variable J : nat -> nat -> R.
Variable X : nat -> nat -> nat -> nat -> R.
Variable dP : nat -> nat -> nat -> nat -> nat -> nat -> nat -> R.
Variable e : nat.

(** The values the sum-factorised passes leave in the scratch arrays, for
    the component [k] of the field: first axis, ... *)
Definition fact_RB (k dy qx : nat) : R :=
  rsum D1D (fun dx => b qx dx * X dx dy k e).

Definition fact_RG (k dy qx : nat) : R :=
  rsum D1D (fun dx => g qx dx * X dx dy k e).

(** ... second axis: the reference gradient of the field at the quadrature
    point, along x ([fact_R0]) and along y ([fact_R1]), ... *)
Definition fact_R0 (k qy qx : nat) : R :=
  rsum D1D (fun dy => fact_RG k dy qx * b qy dy).

Definition fact_R1 (k qy qx : nat) : R :=
  rsum D1D (fun dy => fact_RB k dy qx * g qy dy).

(** ... the contraction with the coefficient tensor, ... *)
Definition fact_C (qy qx : nat) : nat -> R :=
  Apply.contract_qp J dP e
    (fact_R0 0 qy qx) (fact_R1 0 qy qx) (fact_R0 1 qy qx) (fact_R1 1 qy qx)
    qx qy.

(** ... and the two backward passes. *)
Definition fact_CB (k dx qy : nat) : R :=
  rsum Q1D (fun qx => g qx dx * fact_C qy qx (2 * k)).

Definition fact_CG (k dx qy : nat) : R :=
  rsum Q1D (fun qx => b qx dx * fact_C qy qx (2 * k + 1)).

Definition fact_Y (k dx dy : nat) : R :=
  rsum Q1D (fun qy => fact_CB k dx qy * b qy dy)
  + rsum Q1D (fun qy => fact_CG k dx qy * g qy dy).

(** The direct contraction.  [DSh] is the reference gradient of the shape
    function of the node [(dx, dy)] at the quadrature point [(qx, qy)],
    [DS = DSh Jrt] its image under the inverse reference Jacobian. *)
Definition Jrt : nat -> R :=
  CalcInverse2 (arr4 (J 0 0) (J 1 0) (J 0 1) (J 1 1)).

Definition DSh (qx qy dx dy a : nat) : R :=
  match a with
  | 0%nat => g qx dx * b qy dy
  | _ => b qx dx * g qy dy
  end.

Definition DS (qx qy dx dy c : nat) : R :=
  rsum dim (fun a => DSh qx qy dx dy a * Jrt (a + 2 * c)).

(** The dense local Hessian of the element: row [(dx, dy, k)], column
    [(dx', dy', k')], summed over the quadrature points. *)
Definition dense_hessian (dx dy k dx' dy' k' : nat) : R :=
  rsum Q1D (fun qy =>
    rsum Q1D (fun qx =>
      rsum dim (fun c =>
        rsum dim (fun j =>
          DS qx qy dx dy c * dP k' j k c qx qy e * DS qx qy dx' dy' j)))).

(** The dense local Hessian applied to the trial vector. *)
Definition dense_apply (k dx dy : nat) : R :=
  rsum D1D (fun dy' =>
    rsum D1D (fun dx' =>
      rsum VDIM (fun k' =>
        dense_hessian dx dy k dx' dy' k' * X dx' dy' k' e))).
End ApplyValues.

(** ** What the Setup kernel computes, written without scratch memory *)

(** [sign * 0.5 * weight_detJtr] at the quadrature point [(qx, qy)]. *)
Definition scaling_qp (W J : nat -> nat -> R) (Jpt : DenseMatrix)
    (qx qy : nat) : R :=
  (if Rlt_dec (Det Jpt) 0 then -1 else 1) * (1 / 2)
  * (W qx qy
     * (J 0%nat 0%nat * J 1%nat 1%nat - J 0%nat 1%nat * J 1%nat 0%nat)).

(** The local Jacobian [Jpt] at the quadrature point [(qx, qy)] of the
    element [e]: the reference gradient of the nodal field times [Jrt]. *)
Definition Jpt_at (D1D : nat) (b g J : nat -> nat -> R)
    (X : nat -> nat -> nat -> nat -> R) (e qx qy : nat) : DenseMatrix :=
  Mult (DenseMatrix_view
          (arr4 (fact_R0 D1D b g X e 0 qy qx) (fact_R0 D1D b g X e 1 qy qx)
                (fact_R1 D1D b g X e 0 qy qx) (fact_R1 D1D b g X e 1 qy qx))
          dim dim)
       (Setup.Jrt_qp J).

(** The entry [(rr, cc)] of the scaled matrix [dP] that the loops over
    [(r, c)] store: [Dim2Invariant1_dMdM(Jpt, r, c)] times [scaling]. *)
Definition Pval (Jpt : DenseMatrix) (scaling : R) (r c rr cc : nat) : R :=
  elem (Dim2Invariant1_dMdM Jpt r c (DenseMatrix_new 2 2)) rr cc * scaling.

(** ** The cells a kernel writes *)

Definition scratch_cell (c : cell) : Prop := is_scratch (fst c) = true.

(** The cells of [y_] that belong to the element [e]. *)
Definition Y_cell_of (D1D : nat) (e : nat) (c : cell) : Prop :=
  exists dx dy k, (dx < D1D)%nat /\ (dy < D1D)%nat /\ (k < VDIM)%nat /\
                  c = (v_y, ix4 D1D D1D VDIM dx dy k e).

(** The cells of [p_] and of [g_] that belong to the quadrature point
    [(qx, qy)] of the element [e]. *)
Definition P_form (Q1D : nat) (e qx qy : nat) (c0 : cell) : Prop :=
  exists rr cc r c,
    (rr < 2)%nat /\ (cc < 2)%nat /\ (r < 2)%nat /\ (c < 2)%nat /\
    c0 = Setup.P Q1D e rr cc r c qx qy.

Definition G_form (D1D Q1D : nat) (e qx qy : nat) (c0 : cell) : Prop :=
  exists i j r rr,
    (i < D1D * D1D)%nat /\ (j < D1D * D1D)%nat /\ (r < 2)%nat /\ (rr < 2)%nat /\
    c0 = Setup.G D1D Q1D e qx qy (i + r * (D1D * D1D)) (j + rr * (D1D * D1D)).

Definition qp_cell (D1D Q1D : nat) (e qx qy : nat) (c0 : cell) : Prop :=
  P_form Q1D e qx qy c0 \/ G_form D1D Q1D e qx qy c0.

Definition element_cell (D1D Q1D : nat) (e : nat) (c0 : cell) : Prop :=
  exists qx qy, (qx < Q1D)%nat /\ (qy < Q1D)%nat /\ qp_cell D1D Q1D e qx qy c0.

(** The buffers each stage of the kernels writes. *)
Definition W_RDQ (bf : buf) : Prop := exists k, bf = s_RDQ k.
Definition W_RQQ (bf : buf) : Prop := exists k, bf = s_RQQ k.
Definition W_YQQ (bf : buf) : Prop := exists k, bf = s_YQQ k.
Definition W_CDQ (bf : buf) : Prop := exists k, bf = s_CDQ k.
Definition W_BG (bf : buf) : Prop := exists k, bf = s_BG k.
Definition W_X (bf : buf) : Prop := bf = s_Xx \/ bf = s_Xy.
Definition W_Y (bf : buf) : Prop := bf = v_y.
Definition W_SX (bf : buf) : Prop := exists k, bf = s_X k.
Definition W_DQ (bf : buf) : Prop := exists k, bf = s_DQ k.
Definition W_QQ (bf : buf) : Prop := exists k, bf = s_QQ k.
Definition W_G (bf : buf) : Prop := bf = v_g.

(** A loop over a list of iterations, and the iterations of a two-level
    loop nest in the order the nest runs them. *)
Definition foreach {K S : Type} (l : list K) (body : K -> S -> S) (s : S) : S :=
  fold_left (fun s k => body k s) l s.

Definition pairs (n1 n2 : nat) : list (nat * nat) :=
  list_prod (seq 0 n1) (seq 0 n2).

(** ** The dispatcher, [TMOP_Integrator::AddMultGradPA] *)

(** A call returns, or the process is aborted ([mfem_error]). *)
Inductive outcome (A : Type) : Type :=
| Returned (a : A)
| Aborted (msg : string).

Arguments Returned {A} a.
Arguments Aborted {A} msg.

Definition bind {A B : Type} (c : outcome A) (k : A -> outcome B)
    : outcome B :=
  match c with
  | Returned a => k a
  | Aborted msg => Aborted msg
  end.

Notation "x <- c ;; k" := (bind c (fun x => k))
  (at level 61, c at next level, right associativity).

(** Modelled from the spec: [MFEM_VERIFY(cond, msg)] and [MFEM_ABORT(msg)]
    are macros of a header that is not part of the sources at hand; a failed
    verification and an abort are fatal. *)
Definition MFEM_VERIFY (cond : bool) (msg : string) : outcome unit :=
  if cond then Returned tt else Aborted msg.

Definition MFEM_ABORT {A : Type} (msg : string) : outcome A := Aborted msg.

(** [x == y] on doubles. *)
Definition Req_b (x y : R) : bool :=
  if Req_dec_T x y then true else false.

(** The kernels the dispatcher starts, in order: an instrumentation of the
    model, the code keeps no such log. *)
Inductive kernel_call : Type :=
| Setup_call (T_D1D T_Q1D : nat)
| Apply_call (T_D1D T_Q1D : nat).

(** The members of the integrator that [AddMultGradPA] uses. *)
Record TMOP_Integrator : Type := mkIntegrator {
  IntRule : option (nat -> R);   (* the weights of the rule, when one is set *)
  maps_ndof : Z;
  maps_nqpt : Z;
  maps_B : nat -> R;
  maps_G : nat -> R;
  ne : nat;
  GeomToPerfGeomJac : DenseMatrix;
    (* Geometries.GetGeomToPerfGeomJac(fes->GetFE(0)->GetGeomType()) *)
  setup : bool;
  dPpa : nat -> R;
  Gpa : nat -> R;
  calls : list kernel_call
}.

(** A 32-bit [int]. *)
Definition wrap32 (z : Z) : Z :=
  ((z + 2147483648) mod 4294967296 - 2147483648)%Z.

(** [const int id = (D1D << 4) | Q1D]. *)
Definition kernel_id (D1D Q1D : Z) : Z :=
  wrap32 (Z.lor (Z.shiftl D1D 4) Q1D).

(** The cases of the two [switch (id)] statements, which list the same
    identifiers: the template arguments [<T_D1D, T_Q1D, 1>] of the case. *)
Definition specialization (id : Z) : option (nat * nat) :=
  match id with
  | 0x21%Z => Some (2, 1) | 0x22%Z => Some (2, 2) | 0x23%Z => Some (2, 3)
  | 0x24%Z => Some (2, 4) | 0x25%Z => Some (2, 5)
  | 0x31%Z => Some (3, 1) | 0x32%Z => Some (3, 2) | 0x33%Z => Some (3, 3)
  | 0x34%Z => Some (3, 4) | 0x35%Z => Some (3, 5)
  | 0x41%Z => Some (4, 1) | 0x42%Z => Some (4, 2) | 0x43%Z => Some (4, 3)
  | 0x44%Z => Some (4, 4) | 0x45%Z => Some (4, 5)
  | 0x51%Z => Some (5, 1) | 0x52%Z => Some (5, 2) | 0x53%Z => Some (5, 3)
  | 0x54%Z => Some (5, 4) | 0x55%Z => Some (5, 5)
  | _ => None
  end%nat.

(** [if (!setup) { Gpa = 0.0; setup = true; switch (id) {...} }]. *)
Definition run_setup (MAX_D1D MAX_Q1D : nat) (Xe : nat -> R) (W : nat -> R)
    (id : Z) (Jtr : DenseMatrix) (scratch : mem) (I : TMOP_Integrator)
    : outcome TMOP_Integrator :=
  if negb (setup I) then
    let Gpa0 := fun _ : nat => 0 in
    match specialization id with
    | Some (T_D1D, T_Q1D) =>
        let m := SetupGradPA_2D MAX_D1D MAX_Q1D T_D1D T_Q1D
                   Xe (ne I) W (maps_B I) (maps_G I) Jtr 0 0
                   (with_vec (with_vec scratch v_p (dPpa I)) v_g Gpa0) in
        Returned
          (mkIntegrator (IntRule I) (maps_ndof I) (maps_nqpt I) (maps_B I)
             (maps_G I) (ne I) (GeomToPerfGeomJac I) true
             (vec_of m v_p) (vec_of m v_g)
             (calls I ++ [Setup_call T_D1D T_Q1D]))
    | None => MFEM_ABORT "Unknown kernel."
    end
  else Returned I.

(** [switch (id) { case ...: return AddMultGradPA_Kernel_2D<...>(...); }
    MFEM_ABORT("Unknown kernel.")]. *)
Definition run_apply (MAX_D1D MAX_Q1D : nat) (Re Ce : nat -> R) (id : Z)
    (Jtr : DenseMatrix) (scratch : mem) (I : TMOP_Integrator)
    : outcome (TMOP_Integrator * (nat -> R)) :=
  match specialization id with
  | Some (T_D1D, T_Q1D) =>
      let m := AddMultGradPA_Kernel_2D MAX_D1D MAX_Q1D T_D1D T_Q1D
                 (ne I) (maps_B I) (maps_G I) Jtr (dPpa I) Re 0 0
                 (with_vec scratch v_y Ce) in
      Returned
        (mkIntegrator (IntRule I) (maps_ndof I) (maps_nqpt I) (maps_B I)
           (maps_G I) (ne I) (GeomToPerfGeomJac I) (setup I)
           (dPpa I) (Gpa I)
           (calls I ++ [Apply_call T_D1D T_Q1D]),
         vec_of m v_y)
  | None => MFEM_ABORT "Unknown kernel."
  end.

(** [TMOP_Integrator::AddMultGradPA(Xe, Re, Ce)]: the integrator after the
    call and the vector [Ce] after it.  [scratch] is what the scratch arrays
    of the kernels contain when they start. *)
Definition AddMultGradPA (MAX_D1D MAX_Q1D : nat) (Xe Re Ce : nat -> R)
    (scratch : mem) (I : TMOP_Integrator)
    : outcome (TMOP_Integrator * (nat -> R)) :=
  match IntRule I with
  | None => Aborted ""
  | Some W =>
      let D1D := maps_ndof I in
      let Q1D := maps_nqpt I in
      let id := kernel_id D1D Q1D in
      let Jtr := GeomToPerfGeomJac I in
      _ <- MFEM_VERIFY (Req_b (Det Jtr) 1) "" ;;
      _ <- MFEM_VERIFY (Req_b (elem Jtr 0 0) 1 && Req_b (elem Jtr 1 1) 1 &&
                        Req_b (elem Jtr 1 0) 0 && Req_b (elem Jtr 0 1) 0) "" ;;
      I <- run_setup MAX_D1D MAX_Q1D Xe W id Jtr scratch I ;;
      run_apply MAX_D1D MAX_Q1D Re Ce id Jtr scratch I
  end.

(** The arguments of one call, and a sequence of calls on one integrator:
    the integrator after the last call and the output of every call. *)
Record call_args : Type := mkCall {
  arg_Xe : nat -> R;
  arg_Re : nat -> R;
  arg_Ce : nat -> R;
  arg_scratch : mem
}.

Fixpoint run_calls (MAX_D1D MAX_Q1D : nat) (l : list call_args)
    (I : TMOP_Integrator) : outcome (TMOP_Integrator * list (nat -> R)) :=
  match l with
  | [] => Returned (I, [])
  | a :: l' =>
      r <- AddMultGradPA MAX_D1D MAX_Q1D (arg_Xe a) (arg_Re a) (arg_Ce a)
             (arg_scratch a) I ;;
      r' <- run_calls MAX_D1D MAX_Q1D l' (fst r) ;;
      Returned (fst r', snd r :: snd r')
  end.

(** Some quadrature point of some element has a singular local Jacobian. *)
Definition degenerate (D1D Q1D NE : nat) (b g J : nat -> nat -> R)
    (X : nat -> nat -> nat -> nat -> R) : Prop :=
  exists e qx qy, (e < NE)%nat /\ (qx < Q1D)%nat /\ (qy < Q1D)%nat /\
    Det (Jpt_at D1D b g J X e qx qy) = 0.

(** The four entries that the second verification of the dispatcher reads
    are those of the identity. *)
Definition identity_entries (J : DenseMatrix) : Prop :=
  elem J 0 0 = 1 /\ elem J 1 1 = 1 /\ elem J 1 0 = 0 /\ elem J 0 1 = 0.

(** The members of the integrator that no call changes. *)
Definition config (I : TMOP_Integrator) :=
  (IntRule I, maps_ndof I, maps_nqpt I, maps_B I, maps_G I, ne I,
   GeomToPerfGeomJac I).

(** The output of the Apply kernel that a call starts, as a vector. *)
Definition apply_output (MAX_D1D MAX_Q1D : nat) (T : nat * nat)
    (I : TMOP_Integrator) (a : call_args) : nat -> R :=
  vec_of (AddMultGradPA_Kernel_2D MAX_D1D MAX_Q1D (fst T) (snd T)
            (ne I) (maps_B I) (maps_G I) (GeomToPerfGeomJac I) (dPpa I)
            (arg_Re a) 0 0 (with_vec (arg_scratch a) v_y (arg_Ce a))) v_y.

(* ================================================================= *)
(** * Part II: properties *)

(** ** Derivative rules in the form the proofs use *)

Lemma dl_const (a x : R) : derivable_pt_lim (fun _ => a) x 0.
Proof. exact (derivable_pt_lim_const a x). Qed.

Lemma dl_id (x : R) : derivable_pt_lim (fun t => t) x 1.
Proof. exact (derivable_pt_lim_id x). Qed.

Lemma dl_plus (f g : R -> R) (x lf lg : R) :
  derivable_pt_lim f x lf -> derivable_pt_lim g x lg ->
  derivable_pt_lim (fun t => f t + g t) x (lf + lg).
Proof. exact (derivable_pt_lim_plus f g x lf lg). Qed.

Lemma dl_minus (f g : R -> R) (x lf lg : R) :
  derivable_pt_lim f x lf -> derivable_pt_lim g x lg ->
  derivable_pt_lim (fun t => f t - g t) x (lf - lg).
Proof. exact (derivable_pt_lim_minus f g x lf lg). Qed.

Lemma dl_opp (f : R -> R) (x lf : R) :
  derivable_pt_lim f x lf -> derivable_pt_lim (fun t => - f t) x (- lf).
Proof. exact (derivable_pt_lim_opp f x lf). Qed.

Lemma dl_mult (f g : R -> R) (x lf lg : R) :
  derivable_pt_lim f x lf -> derivable_pt_lim g x lg ->
  derivable_pt_lim (fun t => f t * g t) x (lf * g x + f x * lg).
Proof. exact (derivable_pt_lim_mult f g x lf lg). Qed.

Lemma dl_div (f g : R -> R) (x lf lg : R) :
  derivable_pt_lim f x lf -> derivable_pt_lim g x lg -> g x <> 0 ->
  derivable_pt_lim (fun t => f t / g t) x
    ((lf * g x - lg * f x) / (g x * g x)).
Proof. exact (derivable_pt_lim_div f g x lf lg). Qed.

Lemma dl_value (f : R -> R) (x l l' : R) :
  derivable_pt_lim f x l' -> l' = l -> derivable_pt_lim f x l.
Proof. intros H <-. exact H. Qed.

Ltac dl_rules :=
  first [ apply dl_const | apply dl_id
        | eapply dl_plus | eapply dl_minus | eapply dl_opp
        | eapply dl_mult ].

(** ** The invariant derivative library *)

Ltac two_cases i := destruct i as [|[|i]]; [ | | lia ].

Ltac unfold_dm :=
  unfold metric_gradient, I1, I1_as_specified, dI1_as_specified_00,
    Dim2Invariant1_dMdM, Dim2Invariant2_dMdM, Dim2Invariant2_dM,
    transpose2, adjugate, mat2, perturb, Det, FNorm2, elem, set_elem,
    assign_const, DenseMatrix_new in *;
  simpl in *.

Ltac dl_quotient :=
  eapply dl_value;
  [ eapply dl_div; [ repeat dl_rules | repeat dl_rules | ] | ].

Lemma prod_neq0 (x : R) : x <> 0 -> x * x <> 0.
Proof. intros H. apply Rmult_integral_contrapositive_currified; exact H. Qed.

(** [Dim2Invariant1_dMdM] differentiates the gradient expression. *)
Lemma d2Metric_differentiates_gradient (M : DenseMatrix) (i j r c : nat)
    (dMdM : DenseMatrix) :
  is2x2 M -> Det M <> 0 -> is2x2 dMdM ->
  (i < 2)%nat -> (j < 2)%nat -> (r < 2)%nat -> (c < 2)%nat ->
  partial_at (fun M' => metric_gradient M' r c) i j M
    (elem (Dim2Invariant1_dMdM M i j dMdM) r c).
Proof.
  intros [Hh Hw] Hdet [Hh' Hw'] Hi Hj Hr Hc.
  destruct M as [h w d]; destruct dMdM as [h' w' d']; simpl in *; subst.
  unfold partial_at.
  two_cases i; two_cases j; two_cases r; two_cases c; unfold_dm; dl_quotient.
  all: try (rewrite ?Rplus_0_r; apply prod_neq0; lra).
  all: try (rewrite ?Rplus_0_r; field; lra).
Qed.

(** The gradient expression is the gradient of [I1 = |M|^2 / det(M)]. *)
Lemma metric_gradient_is_gradient_of_I1 (M : DenseMatrix) (r c : nat) :
  is2x2 M -> Det M <> 0 -> (r < 2)%nat -> (c < 2)%nat ->
  partial_at I1 r c M (metric_gradient M r c).
Proof.
  intros [Hh Hw] Hdet Hr Hc.
  destruct M as [h w d]; simpl in *; subst.
  unfold partial_at.
  two_cases r; two_cases c; unfold_dm; dl_quotient.
  all: try (rewrite ?Rplus_0_r; lra).
  all: try (rewrite ?Rplus_0_r; field; lra).
Qed.

Lemma dI1_as_specified_00_ok (M : DenseMatrix) :
  is2x2 M -> Det M <> 0 ->
  partial_at I1_as_specified 0 0 M (dI1_as_specified_00 M).
Proof.
  intros [Hh Hw] Hdet.
  destruct M as [h w d]; simpl in *; subst.
  unfold partial_at. unfold_dm. dl_quotient.
  all: try (rewrite ?Rplus_0_r; apply prod_neq0; lra).
  all: try (rewrite ?Rplus_0_r; field; lra).
Qed.


(** ** Loops over lists of iterations *)



Lemma foreach_app {K S} (l1 l2 : list K) (body : K -> S -> S) s :
  foreach (l1 ++ l2) body s = foreach l2 body (foreach l1 body s).
Proof. apply fold_left_app. Qed.

Lemma for__foreach {S} n (body : nat -> S -> S) s :
  for_ n body s = foreach (seq 0 n) body s.
Proof.
  induction n as [|n IH]; [reflexivity|].
  rewrite seq_S, foreach_app. simpl. now rewrite IH.
Qed.

Lemma foreach_map {K K' S} (f : K -> K') (l : list K) (body : K' -> S -> S) s :
  foreach (map f l) body s = foreach l (fun k => body (f k)) s.
Proof. revert s; induction l; simpl; auto. Qed.

Lemma for2_foreach {S} n1 n2 (body : nat -> nat -> S -> S) s :
  for_ n1 (fun a s => for_ n2 (body a) s) s
  = foreach (pairs n1 n2) (fun k => body (fst k) (snd k)) s.
Proof.
  rewrite for__foreach. unfold pairs.
  generalize (seq 0 n1) as l1. intros l1. revert s.
  induction l1 as [|a l1 IH]; intros s; [reflexivity|].
  simpl. rewrite foreach_app, foreach_map. simpl.
  rewrite <- IH. now rewrite for__foreach.
Qed.

Lemma in_pairs n1 n2 a b : In (a, b) (pairs n1 n2) <-> (a < n1 /\ b < n2)%nat.
Proof. unfold pairs. rewrite in_prod_iff, !in_seq. lia. Qed.

Lemma NoDup_pairs n1 n2 : NoDup (pairs n1 n2).
Proof.
  unfold pairs. generalize (seq_NoDup n1 0) (seq_NoDup n2 0).
  generalize (seq 0 n1) (seq 0 n2). intros l1 l2 H1 H2.
  induction H1 as [|a l1 Ha H1 IH]; simpl; [constructor|].
  apply NoDup_app.
  - apply Injective_map_NoDup; [|exact H2].
    intros x y Hxy. now inversion Hxy.
  - exact IH.
  - intros [x y] Hin Hin'. apply in_map_iff in Hin as [z [Hz _]].
    inversion Hz; subst. apply in_prod_iff in Hin' as [Hx _]. contradiction.
Qed.

(** The loop theorem: iterations that write disjoint cells and read nothing
    another iteration writes can be analysed one at a time.  Cells in [junk]
    may be written by every iteration, and nothing is said about them. *)
Section ParFor.
Context {K : Type}.
Variable body : K -> mem -> mem.
Variable tgt : K -> cell -> Prop.
Variable junk : cell -> Prop.
Variable l : list K.
Hypothesis Hnodup : NoDup l.
Hypothesis Hdisj : forall k k' c,
  In k l -> In k' l -> tgt k c -> tgt k' c -> k = k'.
Hypothesis Hlive : forall k c, In k l -> tgt k c -> ~ junk c.
Hypothesis Hframe : forall k m c,
  In k l -> ~ junk c -> ~ tgt k c -> body k m c = m c.
Hypothesis Hlocal : forall k c m m',
  In k l -> tgt k c -> m c = m' c ->
  (forall c', ~ junk c' -> (forall k', In k' l -> ~ tgt k' c') -> m c' = m' c') ->
  body k m c = body k m' c.

Lemma parfor_prefix (m : mem) (l1 l2 : list K) :
  l = l1 ++ l2 ->
  forall c, ~ junk c ->
    ((forall k, In k l1 -> ~ tgt k c) -> foreach l1 body m c = m c) /\
    (forall k, In k l1 -> tgt k c -> foreach l1 body m c = body k m c).
Proof.
  revert l2. induction l1 as [|k1 l1 IH] using rev_ind; intros l2 Hl c Hc.
  - split; [reflexivity | intros k []].
  - rewrite <- app_assoc in Hl. simpl in Hl.
    specialize (IH _ Hl).
    assert (Hk1 : In k1 l) by (rewrite Hl; apply in_or_app; right; left; reflexivity).
    assert (Hl1 : forall k, In k l1 -> In k l)
      by (intros k Hk; rewrite Hl; apply in_or_app; now left).
    assert (Hnot : ~ In k1 l1).
    { intros Hin. rewrite Hl in Hnodup. apply NoDup_remove_2 in Hnodup.
      apply Hnodup. apply in_or_app. now left. }
    rewrite foreach_app. simpl.
    assert (Hstep : tgt k1 c -> body k1 (foreach l1 body m) c = body k1 m c).
    { intros Ht. apply Hlocal; try assumption.
      - apply (IH c Hc). intros k Hk Htk.
        apply Hnot. now rewrite (Hdisj k1 k c) by auto.
      - intros c' Hc' Hno. apply (IH c' Hc'). intros k Hk. apply Hno; auto. }
    split.
    + intros Hno. rewrite Hframe; auto.
      * apply (IH c Hc). intros k Hk. apply Hno. apply in_or_app; now left.
      * apply Hno. apply in_or_app; right; now left.
    + intros k Hk Ht. apply in_app_or in Hk as [Hk | [Hk | []]].
      * rewrite Hframe; auto.
        -- now apply (IH c Hc).
        -- intros Ht1. apply Hnot. now rewrite (Hdisj k1 k c) by auto.
      * subst k. now apply Hstep.
Qed.

Lemma parfor_miss (m : mem) (c : cell) :
  ~ junk c -> (forall k, In k l -> ~ tgt k c) -> foreach l body m c = m c.
Proof.
  intros Hc Hno. apply (parfor_prefix m l [] (eq_sym (app_nil_r l)) c Hc). exact Hno.
Qed.

Lemma parfor_hit (m : mem) (k : K) (c : cell) :
  In k l -> tgt k c -> foreach l body m c = body k m c.
Proof.
  intros Hk Ht.
  apply (parfor_prefix m l [] (eq_sym (app_nil_r l)) c (Hlive k c Hk Ht)); assumption.
Qed.
End ParFor.

(** ** Stores *)

Lemma upd_same m c v : upd m c v c = v.
Proof. unfold upd. destruct (cell_eq_dec c c); congruence. Qed.

Lemma upd_other m c v c' : c' <> c -> upd m c v c' = m c'.
Proof. unfold upd. destruct (cell_eq_dec c' c); congruence. Qed.

Lemma wr_miss ws m c : ~ In c (map fst ws) -> wr ws m c = m c.
Proof.
  revert m. induction ws as [|[c1 v1] ws IH]; intros m Hc; [reflexivity|].
  simpl in *. unfold wr in *. simpl. rewrite IH by tauto.
  apply upd_other. intros ->. tauto.
Qed.

Lemma wr_hit cs vs m i :
  NoDup cs -> List.length vs = List.length cs -> (i < List.length cs)%nat ->
  wr (combine cs vs) m (nth i cs (v_y, 0%nat)) = nth i vs 0.
Proof.
  revert vs m i. induction cs as [|c cs IH]; intros vs m i Hnd Hlen Hi; [simpl in Hi; lia|].
  destruct vs as [|v vs]; [discriminate|]. simpl in Hlen, Hi.
  inversion Hnd as [|? ? Hc Hnd']; subst.
  unfold wr in *. simpl fold_left. destruct i as [|i].
  - simpl nth. fold (wr (combine cs vs) (upd m c v)). rewrite wr_miss.
    + apply upd_same.
    + intros Hin. apply Hc. apply in_map_iff in Hin as [[c' v'] [Heq Hin]].
      simpl in Heq. subst. now apply in_combine_l in Hin.
  - simpl nth. apply IH; auto; lia.
Qed.

Lemma map_fst_combine {A B} (l1 : list A) (l2 : list B) :
  List.length l2 = List.length l1 -> map fst (combine l1 l2) = l1.
Proof.
  revert l2; induction l1 as [|a l1 IH]; intros [|b l2] H; simpl in *; try discriminate; auto.
  f_equal. apply IH. lia.
Qed.

(** A two-level loop nest whose iteration [(a, b)] stores the values
    [vals a b] into the cells [cells a b]. *)
Section Stage.
Variables n1 n2 : nat.
Variable cells : nat -> nat -> list cell.
Variable vals : nat -> nat -> mem -> list R.
Variable body : nat -> nat -> mem -> mem.
Variable W : buf -> Prop.
Hypothesis Hbody : forall a b m, (a < n1)%nat -> (b < n2)%nat ->
  body a b m = wr (combine (cells a b) (vals a b m)) m.
Hypothesis Hlen : forall a b m, (a < n1)%nat -> (b < n2)%nat ->
  List.length (vals a b m) = List.length (cells a b).
Hypothesis Hnd : forall a b, (a < n1)%nat -> (b < n2)%nat -> NoDup (cells a b).
Hypothesis Hdisj : forall a b a' b' c,
  (a < n1)%nat -> (b < n2)%nat -> (a' < n1)%nat -> (b' < n2)%nat ->
  In c (cells a b) -> In c (cells a' b') -> a = a' /\ b = b'.
Hypothesis HW : forall a b c, In c (cells a b) -> W (fst c).
Hypothesis Hvals : forall a b i m m',
  (a < n1)%nat -> (b < n2)%nat -> (i < List.length (cells a b))%nat ->
  m (nth i (cells a b) (v_y, 0%nat)) = m' (nth i (cells a b) (v_y, 0%nat)) ->
  (forall c, ~ W (fst c) -> m c = m' c) ->
  nth i (vals a b m) 0 = nth i (vals a b m') 0.

Let nest (m : mem) : mem := for_ n1 (fun a m => for_ n2 (body a) m) m.

Lemma stage_body_miss a b m c :
  (a < n1)%nat -> (b < n2)%nat -> ~ In c (cells a b) -> body a b m c = m c.
Proof.
  intros Ha Hb Hc. rewrite Hbody by assumption. apply wr_miss.
  now rewrite map_fst_combine by (apply Hlen; assumption).
Qed.

Lemma stage_body_local a b c m m' :
  (a < n1)%nat -> (b < n2)%nat -> In c (cells a b) -> m c = m' c ->
  (forall c', ~ False ->
     (forall k', In k' (pairs n1 n2) -> ~ In c' (cells (fst k') (snd k'))) ->
     m c' = m' c') ->
  body a b m c = body a b m' c.
Proof.
  intros Ha Hb Ht Hown Hrest.
  rewrite !Hbody by assumption.
  destruct (In_nth _ _ (v_y, 0%nat) Ht) as [i [Hi Hc0]]. subst c.
  assert (Hnd' : NoDup (cells a b)) by (apply Hnd; assumption).
  rewrite !wr_hit by (auto using Hlen).
  apply Hvals; try assumption.
  intros c1 Hc1. apply Hrest; [tauto|]. intros [a' b'] _ Hin'. simpl in Hin'.
  apply Hc1. eapply HW; eauto.
Qed.

Lemma stage_miss m c :
  (forall a b, (a < n1)%nat -> (b < n2)%nat -> ~ In c (cells a b)) ->
  nest m c = m c.
Proof.
  intros Hno. unfold nest. rewrite for2_foreach.
  apply (parfor_miss (fun k => body (fst k) (snd k))
           (fun k c => In c (cells (fst k) (snd k))) (fun _ => False)).
  - apply NoDup_pairs.
  - intros [a b] [a' b'] c0 H1 H2 H3 H4. apply in_pairs in H1, H2. simpl in *.
    destruct (Hdisj a b a' b' c0) as [-> ->]; tauto.
  - intros [a b] m0 c0 Hin _ Hc0. apply in_pairs in Hin. simpl in *.
    apply stage_body_miss; tauto.
  - intros [a b] c0 m0 m0' Hin Ht Hown Hrest. apply in_pairs in Hin. simpl in *.
    apply stage_body_local; tauto.
  - tauto.
  - intros [a b] Hin. apply in_pairs in Hin. simpl. apply Hno; tauto.
Qed.

Lemma stage_other m c : ~ W (fst c) -> nest m c = m c.
Proof.
  intros Hc. apply stage_miss. intros a b _ _ Hin. apply Hc. eapply HW; eauto.
Qed.

Lemma stage_hit m a b i :
  (a < n1)%nat -> (b < n2)%nat -> (i < List.length (cells a b))%nat ->
  nest m (nth i (cells a b) (v_y, 0%nat)) = nth i (vals a b m) 0.
Proof.
  intros Ha Hb Hi. unfold nest. rewrite for2_foreach.
  rewrite (parfor_hit (fun k => body (fst k) (snd k))
           (fun k c => In c (cells (fst k) (snd k))) (fun _ => False)) with (k := (a, b)).
  - simpl. rewrite Hbody by assumption. apply wr_hit; auto.
  - apply NoDup_pairs.
  - intros [a1 b1] [a' b'] c0 H1 H2 H3 H4. apply in_pairs in H1, H2. simpl in *.
    destruct (Hdisj a1 b1 a' b' c0) as [-> ->]; tauto.
  - tauto.
  - intros [a1 b1] m0 c0 Hin _ Hc0. apply in_pairs in Hin. simpl in *.
    apply stage_body_miss; tauto.
  - intros [a1 b1] c0 m0 m0' Hin Ht Hown Hrest. apply in_pairs in Hin. simpl in *.
    apply stage_body_local; tauto.
  - apply in_pairs. tauto.
  - simpl. apply nth_In. exact Hi.
Qed.
End Stage.

Section StageSpec.
Variables n1 n2 : nat.
Variable cells : nat -> nat -> list cell.
Variable vals : nat -> nat -> mem -> list R.
Variable body : nat -> nat -> mem -> mem.
Variable W : buf -> Prop.
Hypothesis Hbody : forall a b m, (a < n1)%nat -> (b < n2)%nat ->
  body a b m = wr (combine (cells a b) (vals a b m)) m.
Hypothesis Hlen : forall a b m, (a < n1)%nat -> (b < n2)%nat ->
  List.length (vals a b m) = List.length (cells a b).
Hypothesis Hnd : forall a b, (a < n1)%nat -> (b < n2)%nat -> NoDup (cells a b).
Hypothesis Hdisj : forall a b a' b' c,
  (a < n1)%nat -> (b < n2)%nat -> (a' < n1)%nat -> (b' < n2)%nat ->
  In c (cells a b) -> In c (cells a' b') -> a = a' /\ b = b'.
Hypothesis HW : forall a b c, In c (cells a b) -> W (fst c).
Hypothesis Hvals : forall a b i m m',
  (a < n1)%nat -> (b < n2)%nat -> (i < List.length (cells a b))%nat ->
  m (nth i (cells a b) (v_y, 0%nat)) = m' (nth i (cells a b) (v_y, 0%nat)) ->
  (forall c, ~ W (fst c) -> m c = m' c) ->
  nth i (vals a b m) 0 = nth i (vals a b m') 0.

Lemma stage_spec m :
  (forall a b i, (a < n1)%nat -> (b < n2)%nat -> (i < List.length (cells a b))%nat ->
     for_ n1 (fun a m => for_ n2 (body a) m) m (nth i (cells a b) (v_y, 0%nat))
     = nth i (vals a b m) 0) /\
  (forall c, ~ W (fst c) -> for_ n1 (fun a m => for_ n2 (body a) m) m c = m c) /\
  (forall c, (forall a b, (a < n1)%nat -> (b < n2)%nat -> ~ In c (cells a b)) ->
     for_ n1 (fun a m => for_ n2 (body a) m) m c = m c).
Proof.
  split; [|split].
  - intros. apply (stage_hit n1 n2 cells vals body W); assumption.
  - intros. apply (stage_other n1 n2 cells vals body W); assumption.
  - intros. apply (stage_miss n1 n2 cells vals body W); assumption.
Qed.
End StageSpec.


(** ** The stages of the Apply kernel *)

Lemma lin_inj n i q i' q' :
  (i < n)%nat -> (i' < n)%nat -> (i + n * q = i' + n * q')%nat -> i = i' /\ q = q'.
Proof.
  intros Hi Hi' H. destruct (Nat.div_mod_unique n q q' i i') as [? ?]; try assumption; [lia | tauto].
Qed.

Lemma ix4_inj n1 n2 n3 i j k l i' j' k' l' :
  (i < n1)%nat -> (i' < n1)%nat -> (j < n2)%nat -> (j' < n2)%nat ->
  (k < n3)%nat -> (k' < n3)%nat ->
  ix4 n1 n2 n3 i j k l = ix4 n1 n2 n3 i' j' k' l' ->
  i = i' /\ j = j' /\ k = k' /\ l = l'.
Proof.
  unfold ix4. intros Hi Hi' Hj Hj' Hk Hk' H.
  apply lin_inj in H as [? H]; try assumption.
  apply lin_inj in H as [? H]; try assumption.
  apply lin_inj in H as [? H]; try assumption. tauto.
Qed.

Lemma acc4_rsum n (f1 f2 f3 f4 : nat -> R) :
  for_ n (fun k '(a, b, c, d) => (a + f1 k, b + f2 k, c + f3 k, d + f4 k)) (0, 0, 0, 0)
  = (rsum n f1, rsum n f2, rsum n f3, rsum n f4).
Proof. induction n as [|n IH]; [reflexivity|]. simpl. now rewrite IH. Qed.

Lemma rsum_ext n f g : (forall i, (i < n)%nat -> f i = g i) -> rsum n f = rsum n g.
Proof.
  induction n as [|n IH]; intros H; [reflexivity|]. simpl.
  rewrite IH by (intros; apply H; lia). now rewrite H by lia.
Qed.

(* cells of a stage live in distinct buffers *)
Ltac solve_nodup := intros; repeat constructor; simpl; intuition discriminate.

Ltac split_in :=
  simpl in *;
  repeat match goal with
  | H : _ \/ _ |- _ => destruct H
  | H : False |- _ => destruct H
  end; subst.

Ltac solve_disj S :=
  let H1 := fresh "H1" in let H2 := fresh "H2" in
  intros ? ? ? ? ? ? ? ? ? H1 H2;
  unfold at2 in *; split_in;
  match goal with
  | H : (_, _) = (_, _) |- _ => inversion H; clear H
  end;
  match goal with
  | H : (?i * S + ?j = ?i' * S + ?j')%nat |- _ =>
      destruct (Nat.div_mod_unique S i i' j j') as [? ?]; [lia | lia | lia | split; lia]
  end.

Ltac not_W :=
  simpl; first [ intros [? ?]; discriminate | intros [?|?]; discriminate | discriminate ].

(* the values of a stage read buffers the stage does not write *)
Ltac solve_vals :=
  let Hag := fresh "Hag" in let Hj := fresh "Hj" in let j := fresh "j" in
  intros ? ? j ? ? ? ? Hj _ Hag;
  do 4 (destruct j as [|j];
    [ simpl; try reflexivity; try (apply rsum_ext; intros);
      repeat (rewrite (Hag _) by not_W); reflexivity | ]);
  simpl in Hj; lia.

Ltac solve_W := 
  let c := fresh "c" in let Hc := fresh "Hc" in
  intros ? ? c Hc; unfold at2 in *; split_in; simpl; eauto.

Ltac solve_body := intros; cbv zeta; rewrite ?acc4_rsum; reflexivity.

Section ApplyStages.
Variables D1D Q1D MD1 MQ1 : nat.
Variables b g : nat -> nat -> R.
Variable J : nat -> nat -> R.
Variable X : nat -> nat -> nat -> nat -> R.
Variable dP : nat -> nat -> nat -> nat -> nat -> nat -> nat -> R.
Variable e : nat.
Hypothesis HD : (D1D <= MD1)%nat.
Hypothesis HQ : (Q1D <= MQ1)%nat.

Import Apply.

Lemma load_X_spec m :
  (forall dy dx, (dy < D1D)%nat -> (dx < D1D)%nat ->
     load_X D1D MD1 X e m (Xx MD1 dy dx) = X dx dy 0%nat e /\
     load_X D1D MD1 X e m (Xy MD1 dy dx) = X dx dy 1%nat e) /\
  (forall c, ~ W_X (fst c) -> load_X D1D MD1 X e m c = m c).
Proof.
  pose (cells := fun dy dx => [Xx MD1 dy dx; Xy MD1 dy dx]).
  pose (vals := fun dy dx (m : mem) => [X dx dy 0%nat e; X dx dy 1%nat e]).
  destruct (stage_spec D1D D1D cells vals
     (fun dy dx m => let m := upd m (Xx MD1 dy dx) (X dx dy 0%nat e) in
                let m := upd m (Xy MD1 dy dx) (X dx dy 1%nat e) in m) W_X) with (m := m) as [Hhit [Hother _]].
  - solve_body.
  - reflexivity.
  - solve_nodup.
  - unfold cells, Xx, Xy. solve_disj MD1.
  - unfold cells, W_X, Xx, Xy. solve_W.
  - unfold vals. solve_vals.
  - split; [|exact Hother].
    intros dy dx Hdy Hdx. split;
      [apply (Hhit dy dx 0%nat) | apply (Hhit dy dx 1%nat)]; simpl; lia.
Qed.

Lemma load_BG_spec m :
  (forall d q, (d < D1D)%nat -> (q < Q1D)%nat ->
     load_BG D1D Q1D MD1 b g m (B1d MD1 q d) = b q d /\
     load_BG D1D Q1D MD1 b g m (G1d MD1 q d) = g q d) /\
  (forall c, ~ W_BG (fst c) -> load_BG D1D Q1D MD1 b g m c = m c).
Proof.
  pose (cells := fun d q => [B1d MD1 q d; G1d MD1 q d]).
  pose (vals := fun d q (m : mem) => [b q d; g q d]).
  destruct (stage_spec D1D Q1D cells vals
     (fun d q m => let m := upd m (B1d MD1 q d) (b q d) in
                let m := upd m (G1d MD1 q d) (g q d) in m) W_BG) with (m := m) as [Hhit [Hother _]].
  - solve_body.
  - reflexivity.
  - solve_nodup.
  - unfold cells, B1d, G1d. solve_disj MD1.
  - unfold cells, W_BG, B1d, G1d. solve_W.
  - unfold vals. solve_vals.
  - split; [|exact Hother].
    intros d q Hd Hq. split;
      [apply (Hhit d q 0%nat) | apply (Hhit d q 1%nat)]; simpl; lia.
Qed.

Lemma load_BGt_spec m :
  (forall d q, (d < D1D)%nat -> (q < Q1D)%nat ->
     load_BGt D1D Q1D MQ1 b g m (B1dt MQ1 d q) = b q d /\
     load_BGt D1D Q1D MQ1 b g m (G1dt MQ1 d q) = g q d) /\
  (forall c, ~ W_BG (fst c) -> load_BGt D1D Q1D MQ1 b g m c = m c).
Proof.
  pose (cells := fun d q => [B1dt MQ1 d q; G1dt MQ1 d q]).
  pose (vals := fun d q (m : mem) => [b q d; g q d]).
  destruct (stage_spec D1D Q1D cells vals
     (fun d q m => let m := upd m (B1dt MQ1 d q) (b q d) in
                let m := upd m (G1dt MQ1 d q) (g q d) in m) W_BG) with (m := m) as [Hhit [Hother _]].
  - solve_body.
  - reflexivity.
  - solve_nodup.
  - unfold cells, B1dt, G1dt. solve_disj MQ1.
  - unfold cells, W_BG, B1dt, G1dt. solve_W.
  - unfold vals. solve_vals.
  - split; [|exact Hother].
    intros d q Hd Hq. split;
      [apply (Hhit d q 0%nat) | apply (Hhit d q 1%nat)]; simpl; lia.
Qed.

Lemma pass_RDQ_spec m :
  (forall dy qx, (dy < D1D)%nat -> (qx < Q1D)%nat ->
     pass_RDQ D1D Q1D MD1 MQ1 m (RxB MQ1 dy qx)
       = rsum D1D (fun dx => m (B1d MD1 qx dx) * m (Xx MD1 dy dx)) /\
     pass_RDQ D1D Q1D MD1 MQ1 m (RxG MQ1 dy qx)
       = rsum D1D (fun dx => m (G1d MD1 qx dx) * m (Xx MD1 dy dx)) /\
     pass_RDQ D1D Q1D MD1 MQ1 m (RyB MQ1 dy qx)
       = rsum D1D (fun dx => m (B1d MD1 qx dx) * m (Xy MD1 dy dx)) /\
     pass_RDQ D1D Q1D MD1 MQ1 m (RyG MQ1 dy qx)
       = rsum D1D (fun dx => m (G1d MD1 qx dx) * m (Xy MD1 dy dx))) /\
  (forall c, ~ W_RDQ (fst c) -> pass_RDQ D1D Q1D MD1 MQ1 m c = m c).
Proof.
  pose (cells := fun dy qx => [RxB MQ1 dy qx; RxG MQ1 dy qx; RyB MQ1 dy qx; RyG MQ1 dy qx]).
  pose (vals := fun dy qx (m : mem) =>
     [rsum D1D (fun dx => m (B1d MD1 qx dx) * m (Xx MD1 dy dx));
      rsum D1D (fun dx => m (G1d MD1 qx dx) * m (Xx MD1 dy dx));
      rsum D1D (fun dx => m (B1d MD1 qx dx) * m (Xy MD1 dy dx));
      rsum D1D (fun dx => m (G1d MD1 qx dx) * m (Xy MD1 dy dx))]).
  destruct (stage_spec D1D Q1D cells vals
     (fun dy qx m => 
      let '(u0, v0, u1, v1) :=
        for_ D1D (fun dx '(u0, v0, u1, v1) =>
          let rx := m (Xx MD1 dy dx) in
          let ry := m (Xy MD1 dy dx) in
          (u0 + m (B1d MD1 qx dx) * rx,
           v0 + m (G1d MD1 qx dx) * rx,
           u1 + m (B1d MD1 qx dx) * ry,
           v1 + m (G1d MD1 qx dx) * ry))
          (0, 0, 0, 0) in
      let m := upd m (RxB MQ1 dy qx) u0 in
      let m := upd m (RxG MQ1 dy qx) v0 in
      let m := upd m (RyB MQ1 dy qx) u1 in
      let m := upd m (RyG MQ1 dy qx) v1 in
      m) W_RDQ) with (m := m) as [Hhit [Hother _]].
  - solve_body.
  - reflexivity.
  - solve_nodup.
  - unfold cells, RxB, RxG, RyB, RyG. solve_disj MQ1.
  - unfold cells, W_RDQ, RxB, RxG, RyB, RyG. solve_W.
  - unfold vals. solve_vals.
  - split; [|exact Hother].
    intros dy qx Hdy Hqx. repeat split;
      [apply (Hhit dy qx 0%nat) | apply (Hhit dy qx 1%nat)
      | apply (Hhit dy qx 2%nat) | apply (Hhit dy qx 3%nat)]; simpl; lia.
Qed.

Lemma pass_RQQ_spec m :
  (forall qy qx, (qy < Q1D)%nat -> (qx < Q1D)%nat ->
     pass_RQQ D1D Q1D MD1 MQ1 m (Rx0 MQ1 qy qx)
       = rsum D1D (fun dy => m (RxG MQ1 dy qx) * m (B1d MD1 qy dy)) /\
     pass_RQQ D1D Q1D MD1 MQ1 m (Rx1 MQ1 qy qx)
       = rsum D1D (fun dy => m (RxB MQ1 dy qx) * m (G1d MD1 qy dy)) /\
     pass_RQQ D1D Q1D MD1 MQ1 m (Ry0 MQ1 qy qx)
       = rsum D1D (fun dy => m (RyG MQ1 dy qx) * m (B1d MD1 qy dy)) /\
     pass_RQQ D1D Q1D MD1 MQ1 m (Ry1 MQ1 qy qx)
       = rsum D1D (fun dy => m (RyB MQ1 dy qx) * m (G1d MD1 qy dy))) /\
  (forall c, ~ W_RQQ (fst c) -> pass_RQQ D1D Q1D MD1 MQ1 m c = m c).
Proof.
  pose (cells := fun qy qx => [Rx0 MQ1 qy qx; Rx1 MQ1 qy qx; Ry0 MQ1 qy qx; Ry1 MQ1 qy qx]).
  pose (vals := fun qy qx (m : mem) =>
     [rsum D1D (fun dy => m (RxG MQ1 dy qx) * m (B1d MD1 qy dy));
      rsum D1D (fun dy => m (RxB MQ1 dy qx) * m (G1d MD1 qy dy));
      rsum D1D (fun dy => m (RyG MQ1 dy qx) * m (B1d MD1 qy dy));
      rsum D1D (fun dy => m (RyB MQ1 dy qx) * m (G1d MD1 qy dy))]).
  destruct (stage_spec Q1D Q1D cells vals
     (fun qy qx m => 
      let '(u0, v0, u1, v1) :=
        for_ D1D (fun dy '(u0, v0, u1, v1) =>
          (u0 + m (RxG MQ1 dy qx) * m (B1d MD1 qy dy),
           v0 + m (RxB MQ1 dy qx) * m (G1d MD1 qy dy),
           u1 + m (RyG MQ1 dy qx) * m (B1d MD1 qy dy),
           v1 + m (RyB MQ1 dy qx) * m (G1d MD1 qy dy)))
          (0, 0, 0, 0) in
      let m := upd m (Rx0 MQ1 qy qx) u0 in
      let m := upd m (Rx1 MQ1 qy qx) v0 in
      let m := upd m (Ry0 MQ1 qy qx) u1 in
      let m := upd m (Ry1 MQ1 qy qx) v1 in
      m) W_RQQ) with (m := m) as [Hhit [Hother _]].
  - solve_body.
  - reflexivity.
  - solve_nodup.
  - unfold cells, Rx0, Rx1, Ry0, Ry1. solve_disj MQ1.
  - unfold cells, W_RQQ, Rx0, Rx1, Ry0, Ry1. solve_W.
  - unfold vals. solve_vals.
  - split; [|exact Hother].
    intros qy qx Hqy Hqx. repeat split;
      [apply (Hhit qy qx 0%nat) | apply (Hhit qy qx 1%nat)
      | apply (Hhit qy qx 2%nat) | apply (Hhit qy qx 3%nat)]; simpl; lia.
Qed.

Lemma pass_YQQ_spec m :
  (forall qy qx, (qy < Q1D)%nat -> (qx < Q1D)%nat ->
     let C := contract_qp J dP e (m (Rx0 MQ1 qy qx)) (m (Rx1 MQ1 qy qx))
                (m (Ry0 MQ1 qy qx)) (m (Ry1 MQ1 qy qx)) qx qy in
     pass_YQQ Q1D MQ1 J dP e m (Cx0 MQ1 qy qx) = C 0%nat /\
     pass_YQQ Q1D MQ1 J dP e m (Cy0 MQ1 qy qx) = C 2%nat /\
     pass_YQQ Q1D MQ1 J dP e m (Cx1 MQ1 qy qx) = C 1%nat /\
     pass_YQQ Q1D MQ1 J dP e m (Cy1 MQ1 qy qx) = C 3%nat) /\
  (forall c, ~ W_YQQ (fst c) -> pass_YQQ Q1D MQ1 J dP e m c = m c).
Proof.
  pose (cells := fun qy qx => [Cx0 MQ1 qy qx; Cy0 MQ1 qy qx; Cx1 MQ1 qy qx; Cy1 MQ1 qy qx]).
  pose (vals := fun qy qx (m : mem) =>
     let C := contract_qp J dP e (m (Rx0 MQ1 qy qx)) (m (Rx1 MQ1 qy qx))
                (m (Ry0 MQ1 qy qx)) (m (Ry1 MQ1 qy qx)) qx qy in
     [C 0%nat; C 2%nat; C 1%nat; C 3%nat]).
  destruct (stage_spec Q1D Q1D cells vals
     (fun qy qx m =>
      let C := contract_qp J dP e (m (Rx0 MQ1 qy qx)) (m (Rx1 MQ1 qy qx))
                 (m (Ry0 MQ1 qy qx)) (m (Ry1 MQ1 qy qx)) qx qy in
      let m := upd m (Cx0 MQ1 qy qx) (C 0%nat) in
      let m := upd m (Cy0 MQ1 qy qx) (C 2%nat) in
      let m := upd m (Cx1 MQ1 qy qx) (C 1%nat) in
      let m := upd m (Cy1 MQ1 qy qx) (C 3%nat) in
      m) W_YQQ) with (m := m) as [Hhit [Hother _]].
  - solve_body.
  - reflexivity.
  - solve_nodup.
  - unfold cells, Cx0, Cx1, Cy0, Cy1. solve_disj MQ1.
  - unfold cells, W_YQQ, Cx0, Cx1, Cy0, Cy1. solve_W.
  - unfold vals. cbv zeta. solve_vals.
  - split; [|exact Hother].
    intros qy qx Hqy Hqx. cbv zeta. repeat split;
      [apply (Hhit qy qx 0%nat) | apply (Hhit qy qx 1%nat)
      | apply (Hhit qy qx 2%nat) | apply (Hhit qy qx 3%nat)]; simpl; lia.
Qed.

Lemma pass_CDQ_spec m :
  (forall qy dx, (qy < Q1D)%nat -> (dx < D1D)%nat ->
     pass_CDQ D1D Q1D MQ1 m (CxB MQ1 dx qy)
       = rsum Q1D (fun qx => m (G1dt MQ1 dx qx) * m (Cx0 MQ1 qy qx)) /\
     pass_CDQ D1D Q1D MQ1 m (CxG MQ1 dx qy)
       = rsum Q1D (fun qx => m (B1dt MQ1 dx qx) * m (Cx1 MQ1 qy qx)) /\
     pass_CDQ D1D Q1D MQ1 m (CyB MQ1 dx qy)
       = rsum Q1D (fun qx => m (G1dt MQ1 dx qx) * m (Cy0 MQ1 qy qx)) /\
     pass_CDQ D1D Q1D MQ1 m (CyG MQ1 dx qy)
       = rsum Q1D (fun qx => m (B1dt MQ1 dx qx) * m (Cy1 MQ1 qy qx))) /\
  (forall c, ~ W_CDQ (fst c) -> pass_CDQ D1D Q1D MQ1 m c = m c).
Proof.
  pose (cells := fun qy dx => [CxB MQ1 dx qy; CxG MQ1 dx qy; CyB MQ1 dx qy; CyG MQ1 dx qy]).
  pose (vals := fun qy dx (m : mem) =>
     [rsum Q1D (fun qx => m (G1dt MQ1 dx qx) * m (Cx0 MQ1 qy qx));
      rsum Q1D (fun qx => m (B1dt MQ1 dx qx) * m (Cx1 MQ1 qy qx));
      rsum Q1D (fun qx => m (G1dt MQ1 dx qx) * m (Cy0 MQ1 qy qx));
      rsum Q1D (fun qx => m (B1dt MQ1 dx qx) * m (Cy1 MQ1 qy qx))]).
  destruct (stage_spec Q1D D1D cells vals
     (fun qy dx m =>
      let '(u0, v0, u1, v1) :=
        for_ Q1D (fun qx '(u0, v0, u1, v1) =>
          (u0 + m (G1dt MQ1 dx qx) * m (Cx0 MQ1 qy qx),
           v0 + m (B1dt MQ1 dx qx) * m (Cx1 MQ1 qy qx),
           u1 + m (G1dt MQ1 dx qx) * m (Cy0 MQ1 qy qx),
           v1 + m (B1dt MQ1 dx qx) * m (Cy1 MQ1 qy qx)))
          (0, 0, 0, 0) in
      let m := upd m (CxB MQ1 dx qy) u0 in
      let m := upd m (CxG MQ1 dx qy) v0 in
      let m := upd m (CyB MQ1 dx qy) u1 in
      let m := upd m (CyG MQ1 dx qy) v1 in
      m) W_CDQ) with (m := m) as [Hhit [Hother _]].
  - solve_body.
  - reflexivity.
  - solve_nodup.
  - unfold cells, CxB, CxG, CyB, CyG. solve_disj MQ1.
  - unfold cells, W_CDQ, CxB, CxG, CyB, CyG. solve_W.
  - unfold vals. solve_vals.
  - split; [|exact Hother].
    intros qy dx Hqy Hdx. repeat split;
      [apply (Hhit qy dx 0%nat) | apply (Hhit qy dx 1%nat)
      | apply (Hhit qy dx 2%nat) | apply (Hhit qy dx 3%nat)]; simpl; lia.
Qed.

Lemma pass_Y_spec m :
  (forall dy dx, (dy < D1D)%nat -> (dx < D1D)%nat ->
     pass_Y D1D Q1D MQ1 e m (Y D1D e dx dy 0)
       = m (Y D1D e dx dy 0%nat)
         + (rsum Q1D (fun qy => m (CxB MQ1 dx qy) * m (B1dt MQ1 dy qy))
            + rsum Q1D (fun qy => m (CxG MQ1 dx qy) * m (G1dt MQ1 dy qy))) /\
     pass_Y D1D Q1D MQ1 e m (Y D1D e dx dy 1)
       = m (Y D1D e dx dy 1%nat)
         + (rsum Q1D (fun qy => m (CyB MQ1 dx qy) * m (B1dt MQ1 dy qy))
            + rsum Q1D (fun qy => m (CyG MQ1 dx qy) * m (G1dt MQ1 dy qy)))) /\
  (forall c, ~ W_Y (fst c) -> pass_Y D1D Q1D MQ1 e m c = m c) /\
  (forall c, (forall dy dx, (dy < D1D)%nat -> (dx < D1D)%nat ->
                c <> Y D1D e dx dy 0 /\ c <> Y D1D e dx dy 1) ->
     pass_Y D1D Q1D MQ1 e m c = m c).
Proof.
  pose (cells := fun dy dx => [Y D1D e dx dy 0; Y D1D e dx dy 1]).
  pose (vals := fun dy dx (m : mem) =>
     [m (Y D1D e dx dy 0%nat)
         + (rsum Q1D (fun qy => m (CxB MQ1 dx qy) * m (B1dt MQ1 dy qy))
            + rsum Q1D (fun qy => m (CxG MQ1 dx qy) * m (G1dt MQ1 dy qy)));
      m (Y D1D e dx dy 1%nat)
         + (rsum Q1D (fun qy => m (CyB MQ1 dx qy) * m (B1dt MQ1 dy qy))
            + rsum Q1D (fun qy => m (CyG MQ1 dx qy) * m (G1dt MQ1 dy qy)))]).
  destruct (stage_spec D1D D1D cells vals
     (fun dy dx m =>
      let '(u0, v0, u1, v1) :=
        for_ Q1D (fun qy '(u0, v0, u1, v1) =>
          (u0 + m (CxB MQ1 dx qy) * m (B1dt MQ1 dy qy),
           v0 + m (CxG MQ1 dx qy) * m (G1dt MQ1 dy qy),
           u1 + m (CyB MQ1 dx qy) * m (B1dt MQ1 dy qy),
           v1 + m (CyG MQ1 dx qy) * m (G1dt MQ1 dy qy)))
          (0, 0, 0, 0) in
      let m := upd m (Y D1D e dx dy 0) (m (Y D1D e dx dy 0%nat) + (u0 + v0)) in
      let m := upd m (Y D1D e dx dy 1) (m (Y D1D e dx dy 1%nat) + (u1 + v1)) in
      m) W_Y) with (m := m) as [Hhit [Hother Hmiss]].
  - intros dy dx m0 Hdy Hdx. cbv zeta. rewrite acc4_rsum. unfold cells, vals, wr. simpl.
    rewrite (upd_other m0 (Y D1D e dx dy 0) _ (Y D1D e dx dy 1)); [reflexivity|].
    unfold Y. intros H; inversion H as [H']. apply ix4_inj in H'; unfold VDIM; lia.
  - reflexivity.
  - intros dy dx Hdy Hdx. unfold cells, Y. repeat constructor; simpl; [|tauto].
    intros [E|[]]. inversion E as [E']. apply ix4_inj in E'; unfold VDIM; lia.
  - intros dy dx dy' dx' c Hdy Hdx Hdy' Hdx' H1 H2. unfold cells, Y in *. split_in;
    match goal with H : (_, _) = (_, _) |- _ => inversion H as [H'] end;
    apply ix4_inj in H'; unfold VDIM; lia.
  - unfold cells, W_Y, Y. solve_W.
  - intros dy dx j m0 m0' Hdy Hdx Hj Hown Hag. unfold vals.
    destruct j as [|[|j]]; [ | | simpl in Hj; lia]; simpl in Hown |- *;
    rewrite Hown; f_equal; f_equal; apply rsum_ext; intros;
    repeat (rewrite (Hag _) by not_W); reflexivity.
  - split; [|split; [exact Hother|]].
    + intros dy dx Hdy Hdx. split;
      [apply (Hhit dy dx 0%nat) | apply (Hhit dy dx 1%nat)]; simpl; lia.
    + intros c Hc. apply Hmiss. intros dy dx Hdy Hdx. unfold cells. simpl.
      destruct (Hc dy dx Hdy Hdx). intuition congruence.
Qed.

Ltac other_buf := simpl; first [ intros [? ?]; discriminate | intros [?|?]; discriminate | discriminate ].

Lemma element_Y m dy dx :
  (dy < D1D)%nat -> (dx < D1D)%nat ->
  element D1D Q1D MD1 MQ1 b g J X dP e m (Y D1D e dx dy 0)
    = m (Y D1D e dx dy 0%nat) + fact_Y D1D Q1D b g J X dP e 0 dx dy /\
  element D1D Q1D MD1 MQ1 b g J X dP e m (Y D1D e dx dy 1)
    = m (Y D1D e dx dy 1%nat) + fact_Y D1D Q1D b g J X dP e 1 dx dy.
Proof.
  intros Hdy Hdx. unfold element.
  set (m1 := load_X D1D MD1 X e m).
  set (m2 := load_BG D1D Q1D MD1 b g m1).
  set (m3 := pass_RDQ D1D Q1D MD1 MQ1 m2).
  set (m4 := pass_RQQ D1D Q1D MD1 MQ1 m3).
  set (m5 := pass_YQQ Q1D MQ1 J dP e m4).
  set (m6 := load_BGt D1D Q1D MQ1 b g m5).
  set (m7 := pass_CDQ D1D Q1D MQ1 m6).
  destruct (load_X_spec m) as [H1 O1]. fold m1 in H1, O1.
  destruct (load_BG_spec m1) as [H2 O2]. fold m2 in H2, O2.
  destruct (pass_RDQ_spec m2) as [H3 O3]. fold m3 in H3, O3.
  destruct (pass_RQQ_spec m3) as [H4 O4]. fold m4 in H4, O4.
  destruct (pass_YQQ_spec m4) as [H5 O5]. fold m5 in H5, O5.
  destruct (load_BGt_spec m5) as [H6 O6]. fold m6 in H6, O6.
  destruct (pass_CDQ_spec m6) as [H7 O7]. fold m7 in H7, O7.
  destruct (pass_Y_spec m7) as [H8 _].
  assert (F2 : forall dy dx, (dy < D1D)%nat -> (dx < D1D)%nat ->
            m2 (Xx MD1 dy dx) = X dx dy 0%nat e /\ m2 (Xy MD1 dy dx) = X dx dy 1%nat e).
  { intros dy0 dx0 Hy Hx. rewrite !O2 by other_buf. now apply H1. }
  assert (F3 : forall dy qx, (dy < D1D)%nat -> (qx < Q1D)%nat ->
            m3 (RxB MQ1 dy qx) = fact_RB D1D b X e 0 dy qx /\
            m3 (RxG MQ1 dy qx) = fact_RG D1D g X e 0 dy qx /\
            m3 (RyB MQ1 dy qx) = fact_RB D1D b X e 1 dy qx /\
            m3 (RyG MQ1 dy qx) = fact_RG D1D g X e 1 dy qx).
  { intros dy0 qx Hy Hq. destruct (H3 dy0 qx Hy Hq) as (-> & -> & -> & ->).
    unfold fact_RB, fact_RG. repeat split; apply rsum_ext; intros dx0 Hx;
    destruct (H2 dx0 qx Hx Hq) as [E1 E2]; destruct (F2 dy0 dx0 Hy Hx) as [E3 E4];
    rewrite ?E1, ?E2, ?E3, ?E4; reflexivity. }
  assert (B3 : forall d q, (d < D1D)%nat -> (q < Q1D)%nat ->
            m3 (B1d MD1 q d) = b q d /\ m3 (G1d MD1 q d) = g q d).
  { intros d q Hd Hq. rewrite !O3 by other_buf. now apply H2. }
  assert (F4 : forall qy qx, (qy < Q1D)%nat -> (qx < Q1D)%nat ->
            m4 (Rx0 MQ1 qy qx) = fact_R0 D1D b g X e 0 qy qx /\
            m4 (Rx1 MQ1 qy qx) = fact_R1 D1D b g X e 0 qy qx /\
            m4 (Ry0 MQ1 qy qx) = fact_R0 D1D b g X e 1 qy qx /\
            m4 (Ry1 MQ1 qy qx) = fact_R1 D1D b g X e 1 qy qx).
  { intros qy qx Hy Hx. destruct (H4 qy qx Hy Hx) as (-> & -> & -> & ->).
    unfold fact_R0, fact_R1. repeat split; apply rsum_ext; intros dy0 Hy0;
    destruct (F3 dy0 qx Hy0 Hx) as (E1 & E2 & E3 & E4);
    destruct (B3 dy0 qy Hy0 Hy) as [E5 E6]; rewrite ?E1, ?E2, ?E3, ?E4, ?E5, ?E6; reflexivity. }
  assert (F5 : forall qy qx, (qy < Q1D)%nat -> (qx < Q1D)%nat ->
            m5 (Cx0 MQ1 qy qx) = fact_C D1D b g J X dP e qy qx 0 /\
            m5 (Cy0 MQ1 qy qx) = fact_C D1D b g J X dP e qy qx 2 /\
            m5 (Cx1 MQ1 qy qx) = fact_C D1D b g J X dP e qy qx 1 /\
            m5 (Cy1 MQ1 qy qx) = fact_C D1D b g J X dP e qy qx 3).
  { intros qy qx Hy Hx. destruct (H5 qy qx Hy Hx) as (-> & -> & -> & ->).
    unfold fact_C. destruct (F4 qy qx Hy Hx) as (-> & -> & -> & ->). repeat split. }
  assert (F6 : forall qy qx, (qy < Q1D)%nat -> (qx < Q1D)%nat ->
            m6 (Cx0 MQ1 qy qx) = fact_C D1D b g J X dP e qy qx 0 /\
            m6 (Cy0 MQ1 qy qx) = fact_C D1D b g J X dP e qy qx 2 /\
            m6 (Cx1 MQ1 qy qx) = fact_C D1D b g J X dP e qy qx 1 /\
            m6 (Cy1 MQ1 qy qx) = fact_C D1D b g J X dP e qy qx 3).
  { intros qy qx Hy Hx. rewrite !O6 by other_buf. now apply F5. }
  assert (F7 : forall qy dx, (qy < Q1D)%nat -> (dx < D1D)%nat ->
            m7 (CxB MQ1 dx qy) = fact_CB D1D Q1D b g J X dP e 0 dx qy /\
            m7 (CxG MQ1 dx qy) = fact_CG D1D Q1D b g J X dP e 0 dx qy /\
            m7 (CyB MQ1 dx qy) = fact_CB D1D Q1D b g J X dP e 1 dx qy /\
            m7 (CyG MQ1 dx qy) = fact_CG D1D Q1D b g J X dP e 1 dx qy).
  { intros qy dx0 Hy Hx. destruct (H7 qy dx0 Hy Hx) as (-> & -> & -> & ->).
    unfold fact_CB, fact_CG. repeat split; apply rsum_ext; intros qx Hq;
    destruct (H6 dx0 qx Hx Hq) as [E1 E2];
    destruct (F6 qy qx Hy Hq) as (E3 & E4 & E5 & E6);
    rewrite ?E1, ?E2, ?E3, ?E4, ?E5, ?E6; reflexivity. }
  assert (B7 : forall d q, (d < D1D)%nat -> (q < Q1D)%nat ->
            m7 (B1dt MQ1 d q) = b q d /\ m7 (G1dt MQ1 d q) = g q d).
  { intros d q Hd Hq. rewrite !O7 by other_buf. now apply H6. }
  assert (Y7 : forall c, fst c = v_y -> m7 c = m c).
  { intros [bf n] Hc. simpl in Hc. subst bf.
    rewrite O7, O6, O5, O4, O3, O2, O1 by other_buf. reflexivity. }
  destruct (H8 dy dx Hdy Hdx) as [-> ->].
  rewrite !Y7 by reflexivity. unfold fact_Y.
  split; f_equal; f_equal; apply rsum_ext; intros qy Hq;
  destruct (F7 qy dx Hq Hdx) as (E1 & E2 & E3 & E4);
  destruct (B7 dy qy Hdy Hq) as [E5 E6]; rewrite ?E1, ?E2, ?E3, ?E4, ?E5, ?E6; reflexivity.
Qed.

Lemma element_frame m c :
  is_scratch (fst c) = false ->
  (forall dy dx, (dy < D1D)%nat -> (dx < D1D)%nat ->
     c <> Y D1D e dx dy 0 /\ c <> Y D1D e dx dy 1) ->
  element D1D Q1D MD1 MQ1 b g J X dP e m c = m c.
Proof.
  intros Hs Hc. unfold element.
  destruct (pass_Y_spec (pass_CDQ D1D Q1D MQ1
    (load_BGt D1D Q1D MQ1 b g (pass_YQQ Q1D MQ1 J dP e
      (pass_RQQ D1D Q1D MD1 MQ1 (pass_RDQ D1D Q1D MD1 MQ1
        (load_BG D1D Q1D MD1 b g (load_X D1D MD1 X e m)))))))) as [_ [_ ->]]; [|exact Hc].
  assert (Hn : forall k, (fst c <> s_BG k) /\ fst c <> s_RDQ k /\ fst c <> s_RQQ k
               /\ fst c <> s_YQQ k /\ fst c <> s_CDQ k /\ fst c <> s_Xx /\ fst c <> s_Xy).
  { intros k. destruct c as [bf n]. simpl in *. destruct bf; simpl in Hs; try discriminate;
    repeat split; discriminate. }
  rewrite (proj2 (pass_CDQ_spec _)) by (intros [k Hk]; destruct (Hn k); tauto).
  rewrite (proj2 (load_BGt_spec _)) by (intros [k Hk]; destruct (Hn k); tauto).
  rewrite (proj2 (pass_YQQ_spec _)) by (intros [k Hk]; destruct (Hn k); tauto).
  rewrite (proj2 (pass_RQQ_spec _)) by (intros [k Hk]; destruct (Hn k); tauto).
  rewrite (proj2 (pass_RDQ_spec _)) by (intros [k Hk]; destruct (Hn k); tauto).
  rewrite (proj2 (load_BG_spec _)) by (intros [k Hk]; destruct (Hn k); tauto).
  rewrite (proj2 (load_X_spec _)) by (intros [Hk|Hk]; destruct (Hn 0%nat); tauto).
  reflexivity.
Qed.
End ApplyStages.


(** ** The element loop of the Apply kernel *)

Section ApplyLoop.
Variables D1D Q1D MD1 MQ1 NE : nat.
Variables b g : nat -> nat -> R.
Variable J : nat -> nat -> R.
Variable X : nat -> nat -> nat -> nat -> R.
Variable dP : nat -> nat -> nat -> nat -> nat -> nat -> nat -> R.
Hypothesis HD : (D1D <= MD1)%nat.
Hypothesis HQ : (Q1D <= MQ1)%nat.

Let loop (m : mem) : mem :=
  for_ NE (fun e m => Apply.element D1D Q1D MD1 MQ1 b g J X dP e m) m.

Lemma element_local e c m m' :
  Y_cell_of D1D e c -> m c = m' c ->
  Apply.element D1D Q1D MD1 MQ1 b g J X dP e m c
  = Apply.element D1D Q1D MD1 MQ1 b g J X dP e m' c.
Proof.
  intros (dx & dy & k & Hdx & Hdy & Hk & ->) Hm.
  destruct (element_Y D1D Q1D MD1 MQ1 b g J X dP e HD HQ m dy dx Hdy Hdx) as [E0 E1].
  destruct (element_Y D1D Q1D MD1 MQ1 b g J X dP e HD HQ m' dy dx Hdy Hdx) as [E0' E1'].
  unfold Apply.Y in *. unfold VDIM in Hk.
  destruct k as [|[|k]]; [ | | lia].
  - rewrite E0, E0'. now rewrite Hm.
  - rewrite E1, E1'. now rewrite Hm.
Qed.

Lemma element_frame' e c m :
  ~ scratch_cell c -> ~ Y_cell_of D1D e c ->
  Apply.element D1D Q1D MD1 MQ1 b g J X dP e m c = m c.
Proof.
  intros Hs Hc. apply element_frame; try assumption.
  - unfold scratch_cell in Hs. now destruct (is_scratch (fst c)).
  - intros dy dx Hdy Hdx. unfold Apply.Y. split; intros ->; apply Hc.
    + exists dx, dy, 0%nat. unfold VDIM. repeat split; try assumption; lia.
    + exists dx, dy, 1%nat. unfold VDIM. repeat split; try assumption; lia.
Qed.

Lemma Y_cell_disj e e' c : Y_cell_of D1D e c -> Y_cell_of D1D e' c -> e = e'.
Proof.
  intros (dx & dy & k & Hdx & Hdy & Hk & ->) (dx' & dy' & k' & Hdx' & Hdy' & Hk' & H).
  inversion H as [H']. apply ix4_inj in H'; tauto.
Qed.

Lemma kernel_loop_hit m e dx dy k :
  (e < NE)%nat -> (dx < D1D)%nat -> (dy < D1D)%nat -> (k < VDIM)%nat ->
  loop m (v_y, ix4 D1D D1D VDIM dx dy k e)
  = m (v_y, ix4 D1D D1D VDIM dx dy k e) + fact_Y D1D Q1D b g J X dP e k dx dy.
Proof.
  intros He Hdx Hdy Hk. unfold loop. rewrite for__foreach.
  rewrite (parfor_hit _ (Y_cell_of D1D) scratch_cell) with (k := e).
  - destruct (element_Y D1D Q1D MD1 MQ1 b g J X dP e HD HQ m dy dx Hdy Hdx) as [E0 E1].
    unfold Apply.Y in *. unfold VDIM in Hk.
    destruct k as [|[|k]]; [exact E0 | exact E1 | lia].
  - apply seq_NoDup.
  - intros e1 e2 c _ _. apply Y_cell_disj.
  - intros e1 c _ (dx' & dy' & k' & _ & _ & _ & ->). unfold scratch_cell. simpl. discriminate.
  - intros e1 m0 c _. apply element_frame'.
  - intros e1 c m0 m0' _ Hc Hm _. now apply element_local.
  - apply in_seq. lia.
  - exists dx, dy, k. tauto.
Qed.

Lemma kernel_loop_miss m c :
  ~ scratch_cell c -> (forall e, (e < NE)%nat -> ~ Y_cell_of D1D e c) -> loop m c = m c.
Proof.
  intros Hs Hc. unfold loop. rewrite for__foreach.
  apply (parfor_miss _ (Y_cell_of D1D) scratch_cell).
  - apply seq_NoDup.
  - intros e1 e2 c0 _ _. apply Y_cell_disj.
  - intros e1 m0 c0 _. apply element_frame'.
  - intros e1 c0 m0 m0' _ Hc0 Hm _. now apply element_local.
  - exact Hs.
  - intros e He. apply Hc. apply in_seq in He. lia.
Qed.
End ApplyLoop.


(** ** Sums, and the factorisation *)

Lemma rsum_plus n f g : rsum n (fun i => f i + g i) = rsum n f + rsum n g.
Proof. induction n as [|n IH]; simpl; [ring|]. rewrite IH. ring. Qed.

Lemma rsum_scal_l c n f : rsum n (fun i => c * f i) = c * rsum n f.
Proof. induction n as [|n IH]; simpl; [ring|]. rewrite IH. ring. Qed.

Lemma rsum_scal_r c n f : rsum n (fun i => f i * c) = rsum n f * c.
Proof. induction n as [|n IH]; simpl; [ring|]. rewrite IH. ring. Qed.

Lemma rsum_zero n : rsum n (fun _ => 0) = 0.
Proof. induction n as [|n IH]; simpl; [reflexivity|]. rewrite IH. ring. Qed.

Lemma rsum_swap n m (f : nat -> nat -> R) :
  rsum n (fun i => rsum m (fun j => f i j)) = rsum m (fun j => rsum n (fun i => f i j)).
Proof.
  induction n as [|n IH]; simpl.
  - now rewrite rsum_zero.
  - rewrite IH. now rewrite <- rsum_plus.
Qed.

Section ContractLinear.
Variable J : nat -> nat -> R.
Variable dP : nat -> nat -> nat -> nat -> nat -> nat -> nat -> R.
Variables e qx qy : nat.

Lemma contract_add a1 a2 a3 a4 b1 b2 b3 b4 n : (n < 4)%nat ->
  Apply.contract_qp J dP e (a1 + b1) (a2 + b2) (a3 + b3) (a4 + b4) qx qy n
  = Apply.contract_qp J dP e a1 a2 a3 a4 qx qy n
    + Apply.contract_qp J dP e b1 b2 b3 b4 qx qy n.
Proof.
  intros Hn. unfold Apply.contract_qp.
  generalize (CalcInverse2 (arr4 (J 0%nat 0%nat) (J 1%nat 0%nat) (J 0%nat 1%nat) (J 1%nat 1%nat))).
  intros Jrt.
  do 4 (destruct n as [|n]; [unfold kernels_MultABt, kernels_Mult, aset, arr4, dim; simpl; ring|]).
  lia.
Qed.

Lemma contract_zero n : (n < 4)%nat ->
  Apply.contract_qp J dP e 0 0 0 0 qx qy n = 0.
Proof.
  intros Hn. unfold Apply.contract_qp.
  generalize (CalcInverse2 (arr4 (J 0%nat 0%nat) (J 1%nat 0%nat) (J 0%nat 1%nat) (J 1%nat 1%nat))).
  intros Jrt.
  do 4 (destruct n as [|n]; [unfold kernels_MultABt, kernels_Mult, aset, arr4, dim; simpl; ring|]).
  lia.
Qed.

Lemma contract_rsum N f1 f2 f3 f4 n : (n < 4)%nat ->
  Apply.contract_qp J dP e (rsum N f1) (rsum N f2) (rsum N f3) (rsum N f4) qx qy n
  = rsum N (fun i => Apply.contract_qp J dP e (f1 i) (f2 i) (f3 i) (f4 i) qx qy n).
Proof.
  intros Hn. induction N as [|N IH]; simpl.
  - now apply contract_zero.
  - rewrite contract_add by assumption. now rewrite IH.
Qed.
End ContractLinear.

Lemma rsum2_ext n m (f g : nat -> nat -> R) :
  (forall i j, (i < n)%nat -> (j < m)%nat -> f i j = g i j) ->
  rsum n (fun i => rsum m (fun j => f i j)) = rsum n (fun i => rsum m (fun j => g i j)).
Proof. intros H. apply rsum_ext. intros i Hi. apply rsum_ext. intros j Hj. now apply H. Qed.

Lemma rsum_rsum_scal_r n m (f : nat -> nat -> R) (c : nat -> R) :
  rsum n (fun i => rsum m (fun j => f i j) * c i)
  = rsum n (fun i => rsum m (fun j => f i j * c i)).
Proof. apply rsum_ext. intros i _. now rewrite rsum_scal_r. Qed.

Lemma rsum2_comb n m (f g : nat -> nat -> R) (a b c d : R) :
  a * rsum n (fun i => rsum m (fun j => f i j)) * b
  + c * rsum n (fun i => rsum m (fun j => g i j)) * d
  = rsum n (fun i => rsum m (fun j => a * f i j * b + c * g i j * d)).
Proof.
  rewrite <- !rsum_scal_l, <- !rsum_scal_r, <- rsum_plus.
  apply rsum_ext. intros i _.
  rewrite <- !rsum_scal_l, <- !rsum_scal_r, <- rsum_plus. reflexivity.
Qed.

Lemma rsum_swap22 n1 n2 n3 n4 (f : nat -> nat -> nat -> nat -> R) :
  rsum n1 (fun a => rsum n2 (fun b => rsum n3 (fun c => rsum n4 (fun d => f a b c d))))
  = rsum n3 (fun c => rsum n4 (fun d => rsum n1 (fun a => rsum n2 (fun b => f a b c d)))).
Proof.
  transitivity (rsum n1 (fun a => rsum n3 (fun c => rsum n2 (fun b => rsum n4 (fun d => f a b c d))))).
  { apply rsum_ext. intros a _. apply rsum_swap. }
  rewrite rsum_swap. apply rsum_ext. intros c _.
  transitivity (rsum n1 (fun a => rsum n4 (fun d => rsum n2 (fun b => f a b c d)))).
  { apply rsum_ext. intros a _. apply rsum_swap. }
  apply rsum_swap.
Qed.

Section Factorization.
Variables D1D Q1D : nat.
Variables b g : nat -> nat -> R.
Variable J : nat -> nat -> R.
Variable X : nat -> nat -> nat -> nat -> R.
Variable dP : nat -> nat -> nat -> nat -> nat -> nat -> nat -> R.
Variable e : nat.

Lemma fact_C_sum qy qx n : (n < 4)%nat ->
  fact_C D1D b g J X dP e qy qx n
  = rsum D1D (fun dy' => rsum D1D (fun dx' =>
      Apply.contract_qp J dP e
        (g qx dx' * X dx' dy' 0%nat e * b qy dy')
        (b qx dx' * X dx' dy' 0%nat e * g qy dy')
        (g qx dx' * X dx' dy' 1%nat e * b qy dy')
        (b qx dx' * X dx' dy' 1%nat e * g qy dy') qx qy n)).
Proof.
  intros Hn. unfold fact_C, fact_R0, fact_R1, fact_RG, fact_RB.
  rewrite !rsum_rsum_scal_r.
  rewrite contract_rsum by assumption.
  apply rsum_ext. intros dy' _. now rewrite contract_rsum.
Qed.

Lemma fact_Y_dense k dx dy : (k < VDIM)%nat ->
  fact_Y D1D Q1D b g J X dP e k dx dy = dense_apply D1D Q1D b g J X dP e k dx dy.
Proof.
  intros Hk. unfold VDIM in Hk.
  transitivity
    (rsum Q1D (fun qy => rsum Q1D (fun qx =>
       rsum D1D (fun dy' => rsum D1D (fun dx' =>
         g qx dx * Apply.contract_qp J dP e
             (g qx dx' * X dx' dy' 0%nat e * b qy dy')
             (b qx dx' * X dx' dy' 0%nat e * g qy dy')
             (g qx dx' * X dx' dy' 1%nat e * b qy dy')
             (b qx dx' * X dx' dy' 1%nat e * g qy dy') qx qy (2 * k) * b qy dy
         + b qx dx * Apply.contract_qp J dP e
             (g qx dx' * X dx' dy' 0%nat e * b qy dy')
             (b qx dx' * X dx' dy' 0%nat e * g qy dy')
             (g qx dx' * X dx' dy' 1%nat e * b qy dy')
             (b qx dx' * X dx' dy' 1%nat e * g qy dy') qx qy (2 * k + 1) * g qy dy))))).
  - unfold fact_Y, fact_CB, fact_CG.
    rewrite <- rsum_plus. apply rsum_ext. intros qy _.
    rewrite <- !rsum_scal_r, <- rsum_plus. apply rsum_ext. intros qx _.
    rewrite !fact_C_sum by lia. apply rsum2_comb.
  - unfold dense_apply, dense_hessian.
    rewrite <- rsum_swap22. apply rsum2_ext. intros dy' dx' _ _.
    unfold VDIM. cbn [rsum].
    rewrite Rplus_0_l, <- !rsum_scal_r, <- rsum_plus. apply rsum_ext. intros qy _.
    rewrite <- !rsum_scal_r, <- rsum_plus. apply rsum_ext. intros qx _.
    unfold DS, DSh, Jrt, Apply.contract_qp.
    generalize (CalcInverse2 (arr4 (J 0%nat 0%nat) (J 1%nat 0%nat) (J 0%nat 1%nat) (J 1%nat 1%nat))).
    intros Jrt.
    destruct k as [|[|k]]; [ | | lia];
      unfold kernels_MultABt, kernels_Mult, aset, arr4, dim; simpl; ring.
Qed.
End Factorization.


(** ** The interpolation stages of the Setup kernel *)



Section SetupStages.
Variables D1D Q1D MD1 MQ1 : nat.
Variable W : nat -> nat -> R.
Variables b g : nat -> nat -> R.
Variable J : nat -> nat -> R.
Variable X : nat -> nat -> nat -> nat -> R.
Variable e : nat.
Hypothesis HD : (D1D <= MD1)%nat.
Hypothesis HQ : (Q1D <= MQ1)%nat.

Import Setup.

Lemma setup_load_X_spec m :
  (forall dy dx, (dy < D1D)%nat -> (dx < D1D)%nat ->
     load_X D1D MD1 X e m (Xx MD1 dy dx) = X dx dy 0%nat e /\
     load_X D1D MD1 X e m (Xy MD1 dy dx) = X dx dy 1%nat e) /\
  (forall c, ~ W_SX (fst c) -> load_X D1D MD1 X e m c = m c).
Proof.
  pose (cells := fun dy dx => [Xx MD1 dy dx; Xy MD1 dy dx]).
  pose (vals := fun dy dx (m : mem) => [X dx dy 0%nat e; X dx dy 1%nat e]).
  destruct (stage_spec D1D D1D cells vals
     (fun dy dx m => let m := upd m (Xx MD1 dy dx) (X dx dy 0%nat e) in
                let m := upd m (Xy MD1 dy dx) (X dx dy 1%nat e) in m) W_SX) with (m := m)
    as [Hhit [Hother _]].
  - solve_body.
  - reflexivity.
  - solve_nodup.
  - unfold cells, Xx, Xy. solve_disj MD1.
  - unfold cells, W_SX, Xx, Xy. solve_W.
  - unfold vals. solve_vals.
  - split; [|exact Hother].
    intros dy dx Hdy Hdx. split;
      [apply (Hhit dy dx 0%nat) | apply (Hhit dy dx 1%nat)]; simpl; lia.
Qed.

Lemma setup_load_BG_spec m :
  (forall d q, (d < D1D)%nat -> (q < Q1D)%nat ->
     load_BG D1D Q1D MD1 b g m (B1d MD1 q d) = b q d /\
     load_BG D1D Q1D MD1 b g m (G1d MD1 q d) = g q d) /\
  (forall c, ~ W_BG (fst c) -> load_BG D1D Q1D MD1 b g m c = m c).
Proof.
  pose (cells := fun d q => [B1d MD1 q d; G1d MD1 q d]).
  pose (vals := fun d q (m : mem) => [b q d; g q d]).
  destruct (stage_spec D1D Q1D cells vals
     (fun d q m => let m := upd m (B1d MD1 q d) (b q d) in
                let m := upd m (G1d MD1 q d) (g q d) in m) W_BG) with (m := m)
    as [Hhit [Hother _]].
  - solve_body.
  - reflexivity.
  - solve_nodup.
  - unfold cells, B1d, G1d. solve_disj MD1.
  - unfold cells, W_BG, B1d, G1d. solve_W.
  - unfold vals. solve_vals.
  - split; [|exact Hother].
    intros d q Hd Hq. split;
      [apply (Hhit d q 0%nat) | apply (Hhit d q 1%nat)]; simpl; lia.
Qed.

Lemma pass_DQ_spec m :
  (forall dy qx, (dy < D1D)%nat -> (qx < Q1D)%nat ->
     pass_DQ D1D Q1D MD1 MQ1 m (XxB MQ1 dy qx)
       = rsum D1D (fun dx => m (B1d MD1 qx dx) * m (Xx MD1 dy dx)) /\
     pass_DQ D1D Q1D MD1 MQ1 m (XxG MQ1 dy qx)
       = rsum D1D (fun dx => m (G1d MD1 qx dx) * m (Xx MD1 dy dx)) /\
     pass_DQ D1D Q1D MD1 MQ1 m (XyB MQ1 dy qx)
       = rsum D1D (fun dx => m (B1d MD1 qx dx) * m (Xy MD1 dy dx)) /\
     pass_DQ D1D Q1D MD1 MQ1 m (XyG MQ1 dy qx)
       = rsum D1D (fun dx => m (G1d MD1 qx dx) * m (Xy MD1 dy dx))) /\
  (forall c, ~ W_DQ (fst c) -> pass_DQ D1D Q1D MD1 MQ1 m c = m c).
Proof.
  pose (cells := fun dy qx => [XxB MQ1 dy qx; XxG MQ1 dy qx; XyB MQ1 dy qx; XyG MQ1 dy qx]).
  pose (vals := fun dy qx (m : mem) =>
     [rsum D1D (fun dx => m (B1d MD1 qx dx) * m (Xx MD1 dy dx));
      rsum D1D (fun dx => m (G1d MD1 qx dx) * m (Xx MD1 dy dx));
      rsum D1D (fun dx => m (B1d MD1 qx dx) * m (Xy MD1 dy dx));
      rsum D1D (fun dx => m (G1d MD1 qx dx) * m (Xy MD1 dy dx))]).
  destruct (stage_spec D1D Q1D cells vals
     (fun dy qx m =>
      let '(u0, v0, u1, v1) :=
        for_ D1D (fun dx '(u0, v0, u1, v1) =>
          let xx := m (Xx MD1 dy dx) in
          let xy := m (Xy MD1 dy dx) in
          (u0 + m (B1d MD1 qx dx) * xx,
           v0 + m (G1d MD1 qx dx) * xx,
           u1 + m (B1d MD1 qx dx) * xy,
           v1 + m (G1d MD1 qx dx) * xy))
          (0, 0, 0, 0) in
      let m := upd m (XxB MQ1 dy qx) u0 in
      let m := upd m (XxG MQ1 dy qx) v0 in
      let m := upd m (XyB MQ1 dy qx) u1 in
      let m := upd m (XyG MQ1 dy qx) v1 in
      m) W_DQ) with (m := m) as [Hhit [Hother _]].
  - solve_body.
  - reflexivity.
  - solve_nodup.
  - unfold cells, XxB, XxG, XyB, XyG. solve_disj MQ1.
  - unfold cells, W_DQ, XxB, XxG, XyB, XyG. solve_W.
  - unfold vals. solve_vals.
  - split; [|exact Hother].
    intros dy qx Hdy Hqx. repeat split;
      [apply (Hhit dy qx 0%nat) | apply (Hhit dy qx 1%nat)
      | apply (Hhit dy qx 2%nat) | apply (Hhit dy qx 3%nat)]; simpl; lia.
Qed.

Lemma pass_QQ_spec m :
  (forall qy qx, (qy < Q1D)%nat -> (qx < Q1D)%nat ->
     pass_QQ D1D Q1D MD1 MQ1 m (Xx0 MQ1 qy qx)
       = rsum D1D (fun dy => m (XxG MQ1 dy qx) * m (B1d MD1 qy dy)) /\
     pass_QQ D1D Q1D MD1 MQ1 m (Xx1 MQ1 qy qx)
       = rsum D1D (fun dy => m (XxB MQ1 dy qx) * m (G1d MD1 qy dy)) /\
     pass_QQ D1D Q1D MD1 MQ1 m (Xy0 MQ1 qy qx)
       = rsum D1D (fun dy => m (XyG MQ1 dy qx) * m (B1d MD1 qy dy)) /\
     pass_QQ D1D Q1D MD1 MQ1 m (Xy1 MQ1 qy qx)
       = rsum D1D (fun dy => m (XyB MQ1 dy qx) * m (G1d MD1 qy dy))) /\
  (forall c, ~ W_QQ (fst c) -> pass_QQ D1D Q1D MD1 MQ1 m c = m c).
Proof.
  pose (cells := fun qy qx => [Xx0 MQ1 qy qx; Xx1 MQ1 qy qx; Xy0 MQ1 qy qx; Xy1 MQ1 qy qx]).
  pose (vals := fun qy qx (m : mem) =>
     [rsum D1D (fun dy => m (XxG MQ1 dy qx) * m (B1d MD1 qy dy));
      rsum D1D (fun dy => m (XxB MQ1 dy qx) * m (G1d MD1 qy dy));
      rsum D1D (fun dy => m (XyG MQ1 dy qx) * m (B1d MD1 qy dy));
      rsum D1D (fun dy => m (XyB MQ1 dy qx) * m (G1d MD1 qy dy))]).
  destruct (stage_spec Q1D Q1D cells vals
     (fun qy qx m =>
      let '(u0, v0, u1, v1) :=
        for_ D1D (fun dy '(u0, v0, u1, v1) =>
          (u0 + m (XxG MQ1 dy qx) * m (B1d MD1 qy dy),
           v0 + m (XxB MQ1 dy qx) * m (G1d MD1 qy dy),
           u1 + m (XyG MQ1 dy qx) * m (B1d MD1 qy dy),
           v1 + m (XyB MQ1 dy qx) * m (G1d MD1 qy dy)))
          (0, 0, 0, 0) in
      let m := upd m (Xx0 MQ1 qy qx) u0 in
      let m := upd m (Xx1 MQ1 qy qx) v0 in
      let m := upd m (Xy0 MQ1 qy qx) u1 in
      let m := upd m (Xy1 MQ1 qy qx) v1 in
      m) W_QQ) with (m := m) as [Hhit [Hother _]].
  - solve_body.
  - reflexivity.
  - solve_nodup.
  - unfold cells, Xx0, Xx1, Xy0, Xy1. solve_disj MQ1.
  - unfold cells, W_QQ, Xx0, Xx1, Xy0, Xy1. solve_W.
  - unfold vals. solve_vals.
  - split; [|exact Hother].
    intros qy qx Hqy Hqx. repeat split;
      [apply (Hhit qy qx 0%nat) | apply (Hhit qy qx 1%nat)
      | apply (Hhit qy qx 2%nat) | apply (Hhit qy qx 3%nat)]; simpl; lia.
Qed.
End SetupStages.


(** ** The assembly at a quadrature point *)

Lemma ix5_inj n1 n2 n3 n4 i j k l p i' j' k' l' p' :
  (i < n1)%nat -> (i' < n1)%nat -> (j < n2)%nat -> (j' < n2)%nat ->
  (k < n3)%nat -> (k' < n3)%nat -> (l < n4)%nat -> (l' < n4)%nat ->
  ix5 n1 n2 n3 n4 i j k l p = ix5 n1 n2 n3 n4 i' j' k' l' p' ->
  i = i' /\ j = j' /\ k = k' /\ l = l' /\ p = p'.
Proof.
  unfold ix5. intros Hi Hi' Hj Hj' Hk Hk' Hl Hl' H.
  apply lin_inj in H as [? H]; try assumption.
  apply lin_inj in H as [? H]; try assumption.
  apply lin_inj in H as [? H]; try assumption.
  apply lin_inj in H as [? H]; try assumption. tauto.
Qed.

Lemma store_view_miss m base M c :
  (forall k, (k < Height M * Width M)%nat -> c <> (v_p, (base + k)%nat)) ->
  store_view m base M c = m c.
Proof.
  unfold store_view. induction (Height M * Width M)%nat as [|n IH]; intros H; [reflexivity|].
  simpl. rewrite upd_other by (apply H; lia). apply IH. intros k Hk. apply H. lia.
Qed.

Lemma store_view_hit m base M k :
  (k < Height M * Width M)%nat ->
  store_view m base M (v_p, (base + k)%nat) = Data M k.
Proof.
  unfold store_view. induction (Height M * Width M)%nat as [|n IH]; intros H; [lia|].
  simpl. destruct (Nat.eq_dec k n) as [->|Hne].
  - apply upd_same.
  - rewrite upd_other by (intros E; inversion E; lia). apply IH. lia.
Qed.

Section Assemble.
Variables D1D Q1D : nat.
Variable e : nat.
Variables DS Jpt : DenseMatrix.
Variable s : R.
Variables qx qy : nat.
Hypothesis Hqx : (qx < Q1D)%nat.
Hypothesis Hqy : (qy < Q1D)%nat.

Import Setup.
Let dof := (D1D * D1D)%nat.

Lemma G_inj i j i' j' :
  (i < dof * VDIM)%nat -> (j < dof * VDIM)%nat -> (i' < dof * VDIM)%nat -> (j' < dof * VDIM)%nat ->
  G D1D Q1D e qx qy i j = G D1D Q1D e qx qy i' j' -> i = i' /\ j = j'.
Proof.
  intros Hi Hj Hi' Hj' H. unfold G in H. inversion H as [H'].
  apply ix5_inj in H'; try assumption. tauto.
Qed.

Lemma accumulate_G_spec r c rr cc dp m :
  (r < 2)%nat -> (rr < 2)%nat ->
  (forall i j, (i < dof)%nat -> (j < dof)%nat ->
     accumulate_G D1D Q1D e DS qx qy r c rr cc dp m
       (G D1D Q1D e qx qy (i + r * dof) (j + rr * dof))
     = m (G D1D Q1D e qx qy (i + r * dof) (j + rr * dof))
       + elem DS i c * elem DS j cc * dp) /\
  (forall c0, ~ W_G (fst c0) -> accumulate_G D1D Q1D e DS qx qy r c rr cc dp m c0 = m c0) /\
  (forall c0, (forall i j, (i < dof)%nat -> (j < dof)%nat ->
                 c0 <> G D1D Q1D e qx qy (i + r * dof) (j + rr * dof)) ->
     accumulate_G D1D Q1D e DS qx qy r c rr cc dp m c0 = m c0).
Proof.
  intros Hr Hrr.
  pose (cells := fun i j => [G D1D Q1D e qx qy (i + r * dof) (j + rr * dof)]).
  pose (vals := fun i j (m : mem) =>
     [m (G D1D Q1D e qx qy (i + r * dof) (j + rr * dof)) + elem DS i c * elem DS j cc * dp]).
  destruct (stage_spec dof dof cells vals
     (fun i j m =>
        let ds := elem DS i c * elem DS j cc in
        let Gij := G D1D Q1D e qx qy (i + r * dof) (j + rr * dof) in
        upd m Gij (m Gij + ds * dp)) W_G) with (m := m) as [Hhit [Hother Hmiss]].
  - reflexivity.
  - reflexivity.
  - intros. repeat constructor. simpl. tauto.
  - intros i j i' j' c0 Hi Hj Hi' Hj' H1 H2. unfold cells in *. split_in.
    match goal with H : G _ _ _ _ _ _ _ = G _ _ _ _ _ _ _ |- _ => apply G_inj in H end;
      unfold VDIM; nia.
  - intros i j c0 Hc. unfold cells in Hc. split_in. reflexivity.
  - intros i j k m0 m0' Hi Hj Hk Hown _. unfold vals.
    destruct k as [|k]; [|simpl in Hk; lia]. simpl in *. now rewrite Hown.
  - split; [|split; [exact Hother|]].
    + intros i j Hi Hj. apply (Hhit i j 0%nat); simpl; auto.
    + intros c0 Hc. apply Hmiss. intros i j Hi Hj. unfold cells. simpl.
      specialize (Hc i j Hi Hj). intuition congruence.
Qed.

Lemma P_ix_base rr cc r c :
  P_ix Q1D e rr cc r c qx qy = (P_ix Q1D e 0 0 r c qx qy + (rr + cc * 2))%nat.
Proof. unfold P_ix, ix7, VDIM. lia. Qed.

Lemma G_block_neq i j i' j' r rr r' rr' :
  (i < dof)%nat -> (j < dof)%nat -> (i' < dof)%nat -> (j' < dof)%nat ->
  (r < 2)%nat -> (rr < 2)%nat -> (r' < 2)%nat -> (rr' < 2)%nat ->
  (r <> r' \/ rr <> rr') ->
  G D1D Q1D e qx qy (i + r * dof) (j + rr * dof)
  <> G D1D Q1D e qx qy (i' + r' * dof) (j' + rr' * dof).
Proof.
  intros Hi Hj Hi' Hj' Hr Hrr Hr' Hrr' Hne H.
  apply G_inj in H; unfold VDIM; try nia.
Qed.

Lemma inner_spec r c m :
  (r < 2)%nat ->
  let base := P_ix Q1D e 0 0 r c qx qy in
  let inner :=
    for_ dim (fun rr m =>
      for_ dim (fun cc m =>
        let dp := elem (load_view m base dim dim) rr cc in
        accumulate_G D1D Q1D e DS qx qy r c rr cc dp m) m) m in
  (forall i j rr, (i < dof)%nat -> (j < dof)%nat -> (rr < 2)%nat ->
     inner (G D1D Q1D e qx qy (i + r * dof) (j + rr * dof))
     = m (G D1D Q1D e qx qy (i + r * dof) (j + rr * dof))
       + (elem DS i c * elem DS j 0 * m (P Q1D e rr 0 r c qx qy)
          + elem DS i c * elem DS j 1 * m (P Q1D e rr 1 r c qx qy))) /\
  (forall c0, ~ W_G (fst c0) -> inner c0 = m c0) /\
  (forall c0, (forall i j rr, (i < dof)%nat -> (j < dof)%nat -> (rr < 2)%nat ->
                 c0 <> G D1D Q1D e qx qy (i + r * dof) (j + rr * dof)) ->
     inner c0 = m c0).
Proof.
  intros Hr base inner. unfold inner, dim. cbn [for_]. clear inner.
  set (m1 := accumulate_G D1D Q1D e DS qx qy r c 0 0 (elem (load_view m base 2 2) 0 0) m).
  set (m2 := accumulate_G D1D Q1D e DS qx qy r c 0 1 (elem (load_view m1 base 2 2) 0 1) m1).
  set (m3 := accumulate_G D1D Q1D e DS qx qy r c 1 0 (elem (load_view m2 base 2 2) 1 0) m2).
  destruct (accumulate_G_spec r c 0 0 (elem (load_view m base 2 2) 0 0) m Hr) as (A1 & B1 & C1); [lia|].
  destruct (accumulate_G_spec r c 0 1 (elem (load_view m1 base 2 2) 0 1) m1 Hr) as (A2 & B2 & C2); [lia|].
  destruct (accumulate_G_spec r c 1 0 (elem (load_view m2 base 2 2) 1 0) m2 Hr) as (A3 & B3 & C3); [lia|].
  destruct (accumulate_G_spec r c 1 1 (elem (load_view m3 base 2 2) 1 1) m3 Hr) as (A4 & B4 & C4); [lia|].
  fold m1 in A1, B1, C1. fold m2 in A2, B2, C2. fold m3 in A3, B3, C3.
  assert (Hp : forall n, m3 (v_p, n) = m (v_p, n) /\ m2 (v_p, n) = m (v_p, n) /\ m1 (v_p, n) = m (v_p, n)).
  { intros n. rewrite B3, B2, B1 by (simpl; discriminate). auto. }
  assert (Hdp : forall rr cc, (rr < 2)%nat -> (cc < 2)%nat ->
            elem (load_view m3 base 2 2) rr cc = m (P Q1D e rr cc r c qx qy) /\
            elem (load_view m2 base 2 2) rr cc = m (P Q1D e rr cc r c qx qy) /\
            elem (load_view m1 base 2 2) rr cc = m (P Q1D e rr cc r c qx qy) /\
            elem (load_view m base 2 2) rr cc = m (P Q1D e rr cc r c qx qy)).
  { intros rr cc _ _. unfold elem, load_view, DenseMatrix_view, P. simpl.
    rewrite P_ix_base. fold base. 
    destruct (Hp (base + (rr + cc * 2))%nat) as (-> & -> & ->). auto. }
  split; [|split].
  - intros i j rr Hi Hj Hrr.
    destruct rr as [|[|rr]]; [ | | lia].
    + rewrite C4 by (intros; apply G_block_neq; auto; lia).
      rewrite C3 by (intros; apply G_block_neq; auto; lia).
      rewrite A2, A1 by assumption.
      rewrite (proj1 (proj2 (proj2 (Hdp 0%nat 1%nat ltac:(lia) ltac:(lia))))).
      rewrite (proj2 (proj2 (proj2 (Hdp 0%nat 0%nat ltac:(lia) ltac:(lia))))).
      ring.
    + rewrite A4, A3 by assumption.
      rewrite C2 by (intros; apply G_block_neq; auto; lia).
      rewrite C1 by (intros; apply G_block_neq; auto; lia).
      rewrite (proj1 (Hdp 1%nat 1%nat ltac:(lia) ltac:(lia))).
      rewrite (proj1 (proj2 (Hdp 1%nat 0%nat ltac:(lia) ltac:(lia)))).
      ring.
  - intros c0 Hc0. now rewrite B4, B3, B2, B1.
  - intros c0 Hc0. rewrite C4, C3, C2, C1; auto; intros; apply Hc0; auto.
Qed.

Lemma d2_data (D : DenseMatrix) r c rr cc :
  Height D = 2%nat -> (rr < 2)%nat -> (cc < 2)%nat ->
  Data (Dim2Invariant1_dMdM Jpt r c D) (rr + cc * 2)
  = elem (Dim2Invariant1_dMdM Jpt r c (DenseMatrix_new 2 2)) rr cc.
Proof.
  intros HD Hrr Hcc. destruct D as [h w d]. simpl in HD. subst h.
  destruct rr as [|[|rr]]; [ | | lia]; destruct cc as [|[|cc]]; try lia; reflexivity.
Qed.

Lemma P_form_cover n r c :
  (forall rr cc, (rr < 2)%nat -> (cc < 2)%nat -> (v_p, n) <> P Q1D e rr cc r c qx qy) ->
  forall k, (k < 4)%nat -> (v_p, n) <> (v_p, (P_ix Q1D e 0 0 r c qx qy + k)%nat).
Proof.
  intros H k Hk. unfold P in H.
  destruct k as [|[|[|[|k]]]]; [ | | | | lia].
  - specialize (H 0%nat 0%nat). rewrite P_ix_base in H. apply H; lia.
  - specialize (H 1%nat 0%nat). rewrite P_ix_base in H. apply H; lia.
  - specialize (H 0%nat 1%nat). rewrite P_ix_base in H. apply H; lia.
  - specialize (H 1%nat 1%nat). rewrite P_ix_base in H. apply H; lia.
Qed.

Lemma assemble_rc_spec r c m :
  (r < 2)%nat -> (c < 2)%nat ->
  (forall rr cc, (rr < 2)%nat -> (cc < 2)%nat ->
     assemble_rc D1D Q1D e DS Jpt s qx qy r c m (P Q1D e rr cc r c qx qy) = Pval Jpt s r c rr cc) /\
  (forall i j rr, (i < dof)%nat -> (j < dof)%nat -> (rr < 2)%nat ->
     assemble_rc D1D Q1D e DS Jpt s qx qy r c m
       (G D1D Q1D e qx qy (i + r * dof) (j + rr * dof))
     = m (G D1D Q1D e qx qy (i + r * dof) (j + rr * dof))
       + (elem DS i c * elem DS j 0 * Pval Jpt s r c rr 0
          + elem DS i c * elem DS j 1 * Pval Jpt s r c rr 1)) /\
  (forall c0,
     (forall rr cc, (rr < 2)%nat -> (cc < 2)%nat -> c0 <> P Q1D e rr cc r c qx qy) ->
     (forall i j rr, (i < dof)%nat -> (j < dof)%nat -> (rr < 2)%nat ->
        c0 <> G D1D Q1D e qx qy (i + r * dof) (j + rr * dof)) ->
     assemble_rc D1D Q1D e DS Jpt s qx qy r c m c0 = m c0).
Proof.
  intros Hr Hc. unfold assemble_rc.
  set (base := P_ix Q1D e 0 0 r c qx qy).
  set (D1 := Dim2Invariant1_dMdM Jpt r c (load_view m base dim dim)).
  set (m1 := store_view m base D1).
  set (m2 := store_view m1 base (scale (load_view m1 base dim dim) s)).
  cbv zeta.
  destruct (inner_spec r c m2 Hr) as (A & B & C). fold base in A, B, C. cbv zeta in A, B, C.
  assert (HP : forall rr cc, (rr < 2)%nat -> (cc < 2)%nat ->
            m2 (P Q1D e rr cc r c qx qy) = Pval Jpt s r c rr cc).
  { intros rr cc Hrr Hcc. unfold P. rewrite P_ix_base. fold base. unfold m2.
    rewrite store_view_hit by (simpl; nia).
    unfold scale, load_view, DenseMatrix_view. simpl. unfold m1.
    rewrite store_view_hit by (simpl; nia).
    unfold D1, Pval. rewrite d2_data; auto. }
  split; [|split].
  - intros rr cc Hrr Hcc. rewrite B by (simpl; discriminate). now apply HP.
  - intros i j rr Hi Hj Hrr. rewrite A by assumption.
    rewrite !HP by lia. f_equal.
  - intros [bf n] HnP HnG. rewrite C by assumption.
    destruct (buf_eq_dec bf v_p) as [->|Hbf].
    + unfold m2, m1. rewrite !store_view_miss; auto;
        intros k Hk; apply P_form_cover; auto; simpl in Hk; lia.
    + unfold m2, m1. rewrite !store_view_miss; auto; intros k Hk E; inversion E; congruence.
Qed.

Lemma P_rc_neq rr cc r c rr' cc' r' c' :
  (rr < 2)%nat -> (cc < 2)%nat -> (rr' < 2)%nat -> (cc' < 2)%nat ->
  (r < 2)%nat -> (r' < 2)%nat ->
  (r <> r' \/ c <> c') ->
  P Q1D e rr cc r c qx qy <> P Q1D e rr' cc' r' c' qx qy.
Proof.
  intros Hrr Hcc Hrr' Hcc' Hr Hr' Hne H. unfold P, P_ix, ix7, VDIM in H.
  apply (f_equal snd) in H. cbn [snd] in H. lia.
Qed.

Lemma P_G_neq rr cc r c i j : P Q1D e rr cc r c qx qy <> G D1D Q1D e qx qy i j.
Proof. unfold P, G. discriminate. Qed.

Lemma assemble_rc_loop_spec m :
  let out :=
    for_ dim (fun r m =>
      for_ dim (fun c m => assemble_rc D1D Q1D e DS Jpt s qx qy r c m) m) m in
  (forall rr cc r c, (rr < 2)%nat -> (cc < 2)%nat -> (r < 2)%nat -> (c < 2)%nat ->
     out (P Q1D e rr cc r c qx qy) = Pval Jpt s r c rr cc) /\
  (forall i j r rr, (i < dof)%nat -> (j < dof)%nat -> (r < 2)%nat -> (rr < 2)%nat ->
     out (G D1D Q1D e qx qy (i + r * dof) (j + rr * dof))
     = m (G D1D Q1D e qx qy (i + r * dof) (j + rr * dof))
       + rsum dim (fun c => rsum dim (fun cc =>
           elem DS i c * elem DS j cc * Pval Jpt s r c rr cc))) /\
  (forall c0,
     (forall rr cc r c, (rr < 2)%nat -> (cc < 2)%nat -> (r < 2)%nat -> (c < 2)%nat ->
        c0 <> P Q1D e rr cc r c qx qy) ->
     (forall i j r rr, (i < dof)%nat -> (j < dof)%nat -> (r < 2)%nat -> (rr < 2)%nat ->
        c0 <> G D1D Q1D e qx qy (i + r * dof) (j + rr * dof)) ->
     out c0 = m c0).
Proof.
  intros out. unfold out, dim. cbn [for_ rsum]. clear out.
  set (m1 := assemble_rc D1D Q1D e DS Jpt s qx qy 0 0 m).
  set (m2 := assemble_rc D1D Q1D e DS Jpt s qx qy 0 1 m1).
  set (m3 := assemble_rc D1D Q1D e DS Jpt s qx qy 1 0 m2).
  destruct (assemble_rc_spec 0 0 m) as (A1 & B1 & C1); [lia|lia|].
  destruct (assemble_rc_spec 0 1 m1) as (A2 & B2 & C2); [lia|lia|].
  destruct (assemble_rc_spec 1 0 m2) as (A3 & B3 & C3); [lia|lia|].
  destruct (assemble_rc_spec 1 1 m3) as (A4 & B4 & C4); [lia|lia|].
  fold m1 in A1, B1, C1. fold m2 in A2, B2, C2. fold m3 in A3, B3, C3.
  split; [|split].
  - intros rr cc r c Hrr Hcc Hr Hc.
    destruct r as [|[|r]]; [ | | lia]; destruct c as [|[|c]]; try lia.
    + rewrite C4, C3, C2 by
        (try (intros; apply P_rc_neq; auto; lia); intros; apply P_G_neq).
      now apply A1.
    + rewrite C4, C3 by
        (try (intros; apply P_rc_neq; auto; lia); intros; apply P_G_neq).
      now apply A2.
    + rewrite C4 by
        (try (intros; apply P_rc_neq; auto; lia); intros; apply P_G_neq).
      now apply A3.
    + now apply A4.
  - intros i j r rr Hi Hj Hr Hrr.
    destruct r as [|[|r]]; [ | | lia].
    + rewrite C4, C3 by
        (try (intros; apply not_eq_sym; apply P_G_neq); intros; apply G_block_neq; auto; lia).
      rewrite B2, B1 by assumption. ring.
    + rewrite B4, B3 by assumption.
      rewrite C2, C1 by
        (try (intros; apply not_eq_sym; apply P_G_neq); intros; apply G_block_neq; auto; lia).
      ring.
  - intros c0 HnP HnG. rewrite C4, C3, C2, C1; auto.
Qed.
End Assemble.


(** ** Closed forms of the local matrices *)

Lemma for_inv {S : Type} (Inv : nat -> S -> Prop) n (body : nat -> S -> S) s :
  Inv 0%nat s ->
  (forall k s, (k < n)%nat -> Inv k s -> Inv (Datatypes.S k) (body k s)) ->
  Inv n (for_ n body s).
Proof.
  intros H0 Hstep. induction n as [|n IH]; [exact H0|].
  simpl. apply Hstep; [lia|]. apply IH. intros k s0 Hk. apply Hstep. lia.
Qed.

Lemma for_ext {S : Type} n (f g : nat -> S -> S) s :
  (forall k s, (k < n)%nat -> f k s = g k s) -> for_ n f s = for_ n g s.
Proof.
  intros H. induction n as [|n IH]; [reflexivity|].
  simpl. rewrite IH by (intros; apply H; lia). apply H. lia.
Qed.

Lemma elem_set_elem M i j v i' j' :
  (i < Height M)%nat -> (i' < Height M)%nat ->
  elem (set_elem M i j v) i' j'
  = if (Nat.eqb i' i && Nat.eqb j' j)%bool then v else elem M i' j'.
Proof.
  intros Hi Hi'. unfold elem, set_elem. simpl.
  destruct (Nat.eqb_spec (i' + j' * Height M) (i + j * Height M)) as [E|E].
  - rewrite (Nat.mul_comm j'), (Nat.mul_comm j) in E. apply lin_inj in E as [-> ->]; try assumption.
    now rewrite !Nat.eqb_refl.
  - destruct (Nat.eqb_spec i' i) as [->|]; [|reflexivity].
    destruct (Nat.eqb_spec j' j) as [->|]; [|reflexivity]. congruence.
Qed.

Lemma elem_Mult A B i j :
  (i < Height A)%nat ->
  elem (Mult A B) i j = rsum (Width A) (fun l => elem A i l * elem B l j).
Proof.
  intros Hi. unfold elem at 1. unfold Mult. simpl.
  rewrite Nat.Div0.mod_add, Nat.div_add by lia.
  rewrite Nat.mod_small, Nat.div_small by assumption. reflexivity.
Qed.

Section SetupClosedForms.
Variables D1D Q1D MD1 MQ1 : nat.
Variables b g : nat -> nat -> R.
Variable J : nat -> nat -> R.
Variables qx qy : nat.
Import Setup.
Let dof := (D1D * D1D)%nat.

Lemma Jrt_qp_elem l c : (l < 2)%nat -> elem (Jrt_qp J) l c = Jrt J (l + 2 * c).
Proof.
  intros Hl. unfold elem, Jrt_qp, Jrt, DenseMatrix_view, dim. simpl. f_equal. lia.
Qed.

Lemma DS_qp_elem m i1 i2 c :
  (qx < Q1D)%nat -> (qy < Q1D)%nat ->
  (i1 < D1D)%nat -> (i2 < D1D)%nat ->
  (forall q d, (q < Q1D)%nat -> (d < D1D)%nat ->
     m (B1d MD1 q d) = b q d /\ m (G1d MD1 q d) = g q d) ->
  elem (DS_qp D1D MD1 J qx qy m) (i2 + i1 * D1D) c = DS b g J qx qy i1 i2 c.
Proof.
  intros Hqx Hqy Hi1 Hi2 Hm0.
  assert (Hm : forall q d, (q = qx \/ q = qy) -> (d < D1D)%nat ->
             m (B1d MD1 q d) = b q d /\ m (G1d MD1 q d) = g q d)
    by (intros q d [->| ->] Hd; apply Hm0; assumption). unfold DS_qp. cbv zeta. fold dof.
  set (DSh := for_ D1D _ _).
  assert (Inv : Height DSh = dof /\ Width DSh = 2%nat /\
            forall i1 i2, (i1 < D1D)%nat -> (i2 < D1D)%nat ->
              elem DSh (i2 + i1 * D1D) 0 = g qx i1 * b qy i2 /\
              elem DSh (i2 + i1 * D1D) 1 = b qx i1 * g qy i2).
  { unfold DSh.
    apply (for_inv (fun n M => Height M = dof /\ Width M = 2%nat /\
            forall i1 i2, (i1 < n)%nat -> (i2 < D1D)%nat ->
              elem M (i2 + i1 * D1D) 0 = g qx i1 * b qy i2 /\
              elem M (i2 + i1 * D1D) 1 = b qx i1 * g qy i2)).
    - split; [reflexivity|]. split; [reflexivity|]. intros; lia.
    - intros n M Hn (HH & HW & HI).
      assert (Hrow : forall j1 j2, (j1 < D1D)%nat -> (j2 < D1D)%nat -> (j2 + j1 * D1D < dof)%nat)
        by (intros; unfold dof; nia).
      pose (Inv2 := fun (k : nat) (M' : DenseMatrix) =>
              Height M' = dof /\ Width M' = 2%nat /\
              (forall i1 i2, (i1 < n)%nat -> (i2 < D1D)%nat ->
                elem M' (i2 + i1 * D1D) 0 = g qx i1 * b qy i2 /\
                elem M' (i2 + i1 * D1D) 1 = b qx i1 * g qy i2) /\
              (forall i2, (i2 < k)%nat ->
                elem M' (i2 + n * D1D) 0 = g qx n * b qy i2 /\
                elem M' (i2 + n * D1D) 1 = b qx n * g qy i2)).
      match goal with
      | |- context [for_ D1D ?f M] => assert (Hin : Inv2 D1D (for_ D1D f M))
      end.
      { apply (for_inv Inv2); unfold Inv2.
        - split; [exact HH|]. split; [exact HW|]. split; [exact HI|]. intros; lia.
        - intros k M' Hk (HH' & HW' & HI1 & HI2). cbv zeta.
          split; [exact HH'|]. split; [exact HW'|]. split.
          + intros j1 j2 Hj1 Hj2.
            rewrite !elem_set_elem by (simpl; rewrite ?HH'; apply Hrow; lia).
            destruct (Nat.eqb_spec (j2 + j1 * D1D) (k + n * D1D)) as [E|E]; [nia|].
            simpl. now apply HI1.
          + intros j2 Hj2. destruct (Nat.eq_dec j2 k) as [->|Hne].
            * rewrite !elem_set_elem by (simpl; rewrite ?HH'; apply Hrow; lia).
              rewrite Nat.eqb_refl. simpl.
              destruct (Hm qx n (or_introl eq_refl) Hn) as [-> ->]. destruct (Hm qy k (or_intror eq_refl) Hk) as [-> ->]. split; reflexivity.
            * rewrite !elem_set_elem by (simpl; rewrite ?HH'; apply Hrow; lia).
              destruct (Nat.eqb_spec (j2 + n * D1D) (k + n * D1D)) as [E|E]; [lia|].
              simpl. apply HI2. lia. }
      unfold Inv2 in Hin. destruct Hin as (HH' & HW' & HI1 & HI2).
      split; [exact HH'|]. split; [exact HW'|].
      intros j1 j2 Hj1 Hj2.
      destruct (Nat.eq_dec j1 n) as [->|Hne]; [now apply HI2 | apply HI1; lia]. }
  destruct Inv as (HH & HW & HI).
  rewrite elem_Mult by (rewrite HH; unfold dof; nia).
  rewrite HW. unfold DS, dim. cbn [rsum].
  destruct (HI i1 i2 Hi1 Hi2) as [-> ->].
  rewrite !Jrt_qp_elem by lia. unfold DSh. reflexivity.
Qed.
End SetupClosedForms.


(** ** The quadrature-point loop of the Setup kernel *)

Lemma ix7_inj n5 n6 i j k l p q r i' j' k' l' p' q' r' :
  (i < 2)%nat -> (i' < 2)%nat -> (j < 2)%nat -> (j' < 2)%nat ->
  (k < 2)%nat -> (k' < 2)%nat -> (l < 2)%nat -> (l' < 2)%nat ->
  (p < n5)%nat -> (p' < n5)%nat -> (q < n6)%nat -> (q' < n6)%nat ->
  ix7 2 2 2 2 n5 n6 i j k l p q r = ix7 2 2 2 2 n5 n6 i' j' k' l' p' q' r' ->
  i = i' /\ j = j' /\ k = k' /\ l = l' /\ p = p' /\ q = q' /\ r = r'.
Proof.
  unfold ix7. intros Hi Hi' Hj Hj' Hk Hk' Hl Hl' Hp Hp' Hq Hq' H.
  apply lin_inj in H as [? H]; try assumption.
  apply lin_inj in H as [? H]; try assumption.
  apply lin_inj in H as [? H]; try assumption.
  apply lin_inj in H as [? H]; try assumption.
  apply lin_inj in H as [? H]; try assumption.
  apply lin_inj in H as [? H]; try assumption. tauto.
Qed.





Section SetupForms.
Variables D1D Q1D : nat.
Let dof := (D1D * D1D)%nat.

Lemma qp_cell_disj e qx qy e' qx' qy' c0 :
  (qx < Q1D)%nat -> (qy < Q1D)%nat -> (qx' < Q1D)%nat -> (qy' < Q1D)%nat ->
  qp_cell D1D Q1D e qx qy c0 -> qp_cell D1D Q1D e' qx' qy' c0 -> e = e' /\ qx = qx' /\ qy = qy'.
Proof.
  intros Hqx Hqy Hqx' Hqy'
    [(rr & cc & r & c & ? & ? & ? & ? & ->) | (i & j & r & rr & ? & ? & ? & ? & ->)]
    [(rr' & cc' & r' & c' & ? & ? & ? & ? & E) | (i' & j' & r' & rr' & ? & ? & ? & ? & E)].
  - unfold Setup.P, Setup.P_ix, VDIM in E. apply (f_equal snd) in E. cbn [snd] in E.
    apply ix7_inj in E; tauto.
  - discriminate E.
  - discriminate E.
  - unfold Setup.G in E. apply (f_equal snd) in E. cbn [snd] in E.
    apply ix5_inj in E; unfold VDIM; try nia; tauto.
Qed.
End SetupForms.

Section SetupElement.
Variables D1D Q1D MD1 MQ1 : nat.
Variable W : nat -> nat -> R.
Variables b g : nat -> nat -> R.
Variable J : nat -> nat -> R.
Variable X : nat -> nat -> nat -> nat -> R.
Hypothesis HD : (D1D <= MD1)%nat.
Hypothesis HQ : (Q1D <= MQ1)%nat.
Import Setup.

Lemma assemble_qp_spec e qx qy m :
  (qx < Q1D)%nat -> (qy < Q1D)%nat ->
  let DSm := DS_qp D1D MD1 J qx qy m in
  let Jpt := Jpt_qp MQ1 J qx qy m in
  let s := scaling_qp W J Jpt qx qy in
  (forall rr cc r c, (rr < 2)%nat -> (cc < 2)%nat -> (r < 2)%nat -> (c < 2)%nat ->
     assemble_qp D1D Q1D MD1 MQ1 W J e qy qx m (P Q1D e rr cc r c qx qy)
     = Pval Jpt s r c rr cc) /\
  (forall i j r rr, (i < D1D * D1D)%nat -> (j < D1D * D1D)%nat -> (r < 2)%nat -> (rr < 2)%nat ->
     assemble_qp D1D Q1D MD1 MQ1 W J e qy qx m
       (G D1D Q1D e qx qy (i + r * (D1D * D1D)) (j + rr * (D1D * D1D)))
     = m (G D1D Q1D e qx qy (i + r * (D1D * D1D)) (j + rr * (D1D * D1D)))
       + rsum dim (fun c => rsum dim (fun cc =>
           elem DSm i c * elem DSm j cc * Pval Jpt s r c rr cc))) /\
  (forall c0, ~ qp_cell D1D Q1D e qx qy c0 ->
     assemble_qp D1D Q1D MD1 MQ1 W J e qy qx m c0 = m c0).
Proof.
  intros Hqx Hqy DSm Jpt s.
  destruct (assemble_rc_loop_spec D1D Q1D e DSm Jpt s qx qy Hqx Hqy m) as (A & B & C).
  split; [exact A|]. split; [exact B|].
  intros c0 Hc0. apply C.
  - intros rr cc r c ? ? ? ? ->. apply Hc0. left. exists rr, cc, r, c. tauto.
  - intros i j r rr ? ? ? ? ->. apply Hc0. right. exists i, j, r, rr. tauto.
Qed.

(** What a quadrature point computes depends on the scratch arrays only. *)
Lemma DS_qp_local qx qy m m' :
  (forall c0, W_BG (fst c0) -> m c0 = m' c0) ->
  DS_qp D1D MD1 J qx qy m = DS_qp D1D MD1 J qx qy m'.
Proof.
  intros H. unfold DS_qp. cbv zeta. f_equal.
  apply for_ext. intros i1 M1 _. apply for_ext. intros i2 M2 _.
  rewrite !(H (G1d MD1 _ _)), !(H (B1d MD1 _ _)) by (simpl; unfold W_BG; eauto).
  reflexivity.
Qed.

Lemma Jpt_qp_local qx qy m m' :
  (forall c0, W_QQ (fst c0) -> m c0 = m' c0) ->
  Jpt_qp MQ1 J qx qy m = Jpt_qp MQ1 J qx qy m'.
Proof.
  intros H. unfold Jpt_qp. cbv zeta.
  rewrite (H (Xx0 MQ1 qy qx)), (H (Xx1 MQ1 qy qx)), (H (Xy0 MQ1 qy qx)), (H (Xy1 MQ1 qy qx))
    by (simpl; unfold W_QQ; eauto).
  reflexivity.
Qed.

Lemma assemble_spec e m :
  (forall qx qy c0, (qx < Q1D)%nat -> (qy < Q1D)%nat -> qp_cell D1D Q1D e qx qy c0 ->
     assemble D1D Q1D MD1 MQ1 W J e m c0
     = assemble_qp D1D Q1D MD1 MQ1 W J e qy qx m c0) /\
  (forall c0, ~ element_cell D1D Q1D e c0 ->
     assemble D1D Q1D MD1 MQ1 W J e m c0 = m c0).
Proof.
  assert (Hdisj : forall k k' c0,
            In k (pairs Q1D Q1D) -> In k' (pairs Q1D Q1D) ->
            qp_cell D1D Q1D e (snd k) (fst k) c0 -> qp_cell D1D Q1D e (snd k') (fst k') c0 ->
            k = k').
  { intros [qy qx] [qy' qx'] c0 H1 H2 T1 T2. apply in_pairs in H1, H2. cbn [fst snd] in *.
    destruct (qp_cell_disj D1D Q1D e qx qy e qx' qy' c0) as (_ & -> & ->); tauto. }
  assert (Hframe : forall k m0 c0, In k (pairs Q1D Q1D) -> ~ False ->
            ~ qp_cell D1D Q1D e (snd k) (fst k) c0 ->
            assemble_qp D1D Q1D MD1 MQ1 W J e (fst k) (snd k) m0 c0 = m0 c0).
  { intros [qy qx] m0 c0 H1 _ Hc. apply in_pairs in H1. cbn [fst snd] in *.
    destruct H1 as [Hqy Hqx].
    apply (assemble_qp_spec e qx qy m0 Hqx Hqy). exact Hc. }
  assert (Hlocal : forall k c0 m0 m0', In k (pairs Q1D Q1D) ->
            qp_cell D1D Q1D e (snd k) (fst k) c0 -> m0 c0 = m0' c0 ->
            (forall c', ~ False ->
               (forall k', In k' (pairs Q1D Q1D) -> ~ qp_cell D1D Q1D e (snd k') (fst k') c') ->
               m0 c' = m0' c') ->
            assemble_qp D1D Q1D MD1 MQ1 W J e (fst k) (snd k) m0 c0
            = assemble_qp D1D Q1D MD1 MQ1 W J e (fst k) (snd k) m0' c0).
  { intros [qy qx] c0 m0 m0' H1 T Hown Hrest. apply in_pairs in H1. cbn [fst snd] in *.
    assert (Hs : forall c', is_scratch (fst c') = true -> m0 c' = m0' c').
    { intros c' Hc'. apply Hrest; [tauto|]. intros [qy' qx'] _ T'. cbn [fst snd] in T'.
      destruct T' as [(? & ? & ? & ? & _ & _ & _ & _ & ->) | (? & ? & ? & ? & _ & _ & _ & _ & ->)];
        discriminate Hc'. }
    destruct H1 as [Hqy Hqx].
    destruct (assemble_qp_spec e qx qy m0 Hqx Hqy) as (A & B & _).
    destruct (assemble_qp_spec e qx qy m0' Hqx Hqy) as (A' & B' & _).
    assert (EDS : DS_qp D1D MD1 J qx qy m0 = DS_qp D1D MD1 J qx qy m0')
      by (apply DS_qp_local; intros [bf n] [k Hk]; simpl in Hk; subst; apply Hs; reflexivity).
    assert (EJ : Jpt_qp MQ1 J qx qy m0 = Jpt_qp MQ1 J qx qy m0')
      by (apply Jpt_qp_local; intros [bf n] [k Hk]; simpl in Hk; subst; apply Hs; reflexivity).
    destruct T as [(rr & cc & r & c & ? & ? & ? & ? & ->) | (i & j & r & rr & ? & ? & ? & ? & ->)].
    - rewrite A, A' by assumption. now rewrite EJ.
    - rewrite B, B' by assumption. now rewrite EDS, EJ, Hown. }
  split.
  - intros qx qy c0 Hqx Hqy T. unfold assemble. rewrite for2_foreach.
    rewrite (parfor_hit _ (fun k c0 => qp_cell D1D Q1D e (snd k) (fst k) c0) (fun _ => False))
      with (k := (qy, qx)).
    + reflexivity.
    + apply NoDup_pairs.
    + exact Hdisj.
    + tauto.
    + exact Hframe.
    + exact Hlocal.
    + apply in_pairs. tauto.
    + exact T.
  - intros c0 Hc0. unfold assemble. rewrite for2_foreach.
    apply (parfor_miss _ (fun k c0 => qp_cell D1D Q1D e (snd k) (fst k) c0) (fun _ => False)).
    + apply NoDup_pairs.
    + exact Hdisj.
    + exact Hframe.
    + exact Hlocal.
    + tauto.
    + intros [qy qx] Hin T. apply in_pairs in Hin. cbn [fst snd] in *.
      apply Hc0. exists qx, qy. tauto.
Qed.
End SetupElement.


(** ** The element loop of the Setup kernel *)

Section SetupKernel.
Variables D1D Q1D MD1 MQ1 NE : nat.
Variable W : nat -> nat -> R.
Variables b g : nat -> nat -> R.
Variable J : nat -> nat -> R.
Variable X : nat -> nat -> nat -> nat -> R.
Hypothesis HD : (D1D <= MD1)%nat.
Hypothesis HQ : (Q1D <= MQ1)%nat.
Import Setup.

Ltac other_buf := simpl; first [ intros [? ?]; discriminate | intros [?|?]; discriminate | discriminate ].

Lemma setup_element_spec e m :
  (forall qx qy rr cc r c, (qx < Q1D)%nat -> (qy < Q1D)%nat ->
     (rr < 2)%nat -> (cc < 2)%nat -> (r < 2)%nat -> (c < 2)%nat ->
     element D1D Q1D MD1 MQ1 W b g J X e m (P Q1D e rr cc r c qx qy)
     = Pval (Jpt_at D1D b g J X e qx qy)
            (scaling_qp W J (Jpt_at D1D b g J X e qx qy) qx qy) r c rr cc) /\
  (forall qx qy i1 i2 j1 j2 r rr, (qx < Q1D)%nat -> (qy < Q1D)%nat ->
     (i1 < D1D)%nat -> (i2 < D1D)%nat -> (j1 < D1D)%nat -> (j2 < D1D)%nat ->
     (r < 2)%nat -> (rr < 2)%nat ->
     element D1D Q1D MD1 MQ1 W b g J X e m
       (G D1D Q1D e qx qy ((i2 + i1 * D1D) + r * (D1D * D1D))
                          ((j2 + j1 * D1D) + rr * (D1D * D1D)))
     = m (G D1D Q1D e qx qy ((i2 + i1 * D1D) + r * (D1D * D1D))
                            ((j2 + j1 * D1D) + rr * (D1D * D1D)))
       + rsum dim (fun c => rsum dim (fun cc =>
           DS b g J qx qy i1 i2 c * DS b g J qx qy j1 j2 cc
           * Pval (Jpt_at D1D b g J X e qx qy)
                  (scaling_qp W J (Jpt_at D1D b g J X e qx qy) qx qy) r c rr cc))) /\
  (forall c0, is_scratch (fst c0) = false -> ~ element_cell D1D Q1D e c0 ->
     element D1D Q1D MD1 MQ1 W b g J X e m c0 = m c0).
Proof.
  unfold element.
  set (m1 := load_X D1D MD1 X e m).
  set (m2 := load_BG D1D Q1D MD1 b g m1).
  set (m3 := pass_DQ D1D Q1D MD1 MQ1 m2).
  set (m4 := pass_QQ D1D Q1D MD1 MQ1 m3).
  destruct (setup_load_X_spec D1D Q1D MD1 MQ1 W b g J X e HD HQ m) as [H1 O1]. fold m1 in H1, O1.
  destruct (setup_load_BG_spec D1D Q1D MD1 MQ1 W b g J X HD HQ m1) as [H2 O2]. fold m2 in H2, O2.
  destruct (pass_DQ_spec D1D Q1D MD1 MQ1 W b g J X HD HQ m2) as [H3 O3]. fold m3 in H3, O3.
  destruct (pass_QQ_spec D1D Q1D MD1 MQ1 W b g J X HD HQ m3) as [H4 O4]. fold m4 in H4, O4.
  destruct (assemble_spec D1D Q1D MD1 MQ1 W b g J X e m4) as [Hqp Hfr].
  assert (F2 : forall dy dx, (dy < D1D)%nat -> (dx < D1D)%nat ->
            m2 (Xx MD1 dy dx) = X dx dy 0%nat e /\ m2 (Xy MD1 dy dx) = X dx dy 1%nat e).
  { intros dy0 dx0 Hy Hx. rewrite !O2 by other_buf. now apply H1. }
  assert (F3 : forall dy qx, (dy < D1D)%nat -> (qx < Q1D)%nat ->
            m3 (XxB MQ1 dy qx) = fact_RB D1D b X e 0 dy qx /\
            m3 (XxG MQ1 dy qx) = fact_RG D1D g X e 0 dy qx /\
            m3 (XyB MQ1 dy qx) = fact_RB D1D b X e 1 dy qx /\
            m3 (XyG MQ1 dy qx) = fact_RG D1D g X e 1 dy qx).
  { intros dy0 qx Hy Hq. destruct (H3 dy0 qx Hy Hq) as (-> & -> & -> & ->).
    unfold fact_RB, fact_RG. repeat split; apply rsum_ext; intros dx0 Hx;
    destruct (H2 dx0 qx Hx Hq) as [E1 E2]; destruct (F2 dy0 dx0 Hy Hx) as [E3 E4];
    rewrite ?E1, ?E2, ?E3, ?E4; reflexivity. }
  assert (B3 : forall d q, (d < D1D)%nat -> (q < Q1D)%nat ->
            m3 (B1d MD1 q d) = b q d /\ m3 (G1d MD1 q d) = g q d).
  { intros d q Hd Hq. rewrite !O3 by other_buf. now apply H2. }
  assert (F4 : forall qy qx, (qy < Q1D)%nat -> (qx < Q1D)%nat ->
            m4 (Xx0 MQ1 qy qx) = fact_R0 D1D b g X e 0 qy qx /\
            m4 (Xx1 MQ1 qy qx) = fact_R1 D1D b g X e 0 qy qx /\
            m4 (Xy0 MQ1 qy qx) = fact_R0 D1D b g X e 1 qy qx /\
            m4 (Xy1 MQ1 qy qx) = fact_R1 D1D b g X e 1 qy qx).
  { intros qy qx Hy Hx. destruct (H4 qy qx Hy Hx) as (-> & -> & -> & ->).
    unfold fact_R0, fact_R1. repeat split; apply rsum_ext; intros dy0 Hy0;
    destruct (F3 dy0 qx Hy0 Hx) as (E1 & E2 & E3 & E4);
    destruct (B3 dy0 qy Hy0 Hy) as [E5 E6]; rewrite ?E1, ?E2, ?E3, ?E4, ?E5, ?E6; reflexivity. }
  assert (B4 : forall q d, (q < Q1D)%nat -> (d < D1D)%nat ->
            m4 (B1d MD1 q d) = b q d /\ m4 (G1d MD1 q d) = g q d).
  { intros q d Hq Hd. rewrite !O4 by other_buf. now apply B3. }
  assert (EJ : forall qx qy, (qx < Q1D)%nat -> (qy < Q1D)%nat ->
            Jpt_qp MQ1 J qx qy m4 = Jpt_at D1D b g J X e qx qy).
  { intros qx qy Hqx Hqy. unfold Jpt_qp, Jpt_at. cbv zeta.
    destruct (F4 qy qx Hqy Hqx) as (-> & -> & -> & ->). reflexivity. }
  assert (Hkeep : forall c0, is_scratch (fst c0) = false -> m4 c0 = m c0).
  { intros [bf n] Hs. simpl in Hs.
    rewrite O4, O3, O2, O1; try reflexivity;
      destruct bf; simpl in Hs; try discriminate Hs; other_buf. }
  split; [|split].
  - intros qx qy rr cc r c Hqx Hqy Hrr Hcc Hr Hc.
    rewrite (Hqp qx qy) by (try assumption; left; exists rr, cc, r, c; tauto).
    destruct (assemble_qp_spec D1D Q1D MD1 MQ1 W b g J X e qx qy m4 Hqx Hqy) as (A & _ & _).
    rewrite A by assumption. now rewrite EJ.
  - intros qx qy i1 i2 j1 j2 r rr Hqx Hqy Hi1 Hi2 Hj1 Hj2 Hr Hrr.
    assert (Hi : (i2 + i1 * D1D < D1D * D1D)%nat) by nia.
    assert (Hj : (j2 + j1 * D1D < D1D * D1D)%nat) by nia.
    rewrite (Hqp qx qy) by
      (try assumption; right; exists (i2 + i1 * D1D)%nat, (j2 + j1 * D1D)%nat, r, rr; tauto).
    destruct (assemble_qp_spec D1D Q1D MD1 MQ1 W b g J X e qx qy m4 Hqx Hqy) as (_ & B & _).
    rewrite B by assumption. rewrite EJ by assumption.
    rewrite Hkeep by reflexivity. f_equal.
    apply rsum_ext. intros c _. apply rsum_ext. intros cc _.
    rewrite !(DS_qp_elem D1D Q1D MD1 b g J qx qy m4) by assumption. reflexivity.
  - intros c0 Hs Hc0. rewrite Hfr by assumption. now apply Hkeep.
Qed.

Let loop (m : mem) : mem :=
  for_ NE (fun e m => element D1D Q1D MD1 MQ1 W b g J X e m) m.

Lemma element_cell_disj e e' c0 :
  element_cell D1D Q1D e c0 -> element_cell D1D Q1D e' c0 -> e = e'.
Proof.
  intros (qx & qy & Hqx & Hqy & T) (qx' & qy' & Hqx' & Hqy' & T').
  destruct (qp_cell_disj D1D Q1D e qx qy e' qx' qy' c0); tauto.
Qed.

Lemma element_cell_live e c0 : element_cell D1D Q1D e c0 -> ~ scratch_cell c0.
Proof.
  intros (qx & qy & _ & _ & [(? & ? & ? & ? & _ & _ & _ & _ & ->) | (? & ? & ? & ? & _ & _ & _ & _ & ->)]);
    unfold scratch_cell; simpl; discriminate.
Qed.

Lemma G_form_decompose e qx qy i j r rr :
  (i < D1D * D1D)%nat -> (j < D1D * D1D)%nat ->
  exists i1 i2 j1 j2, (i1 < D1D)%nat /\ (i2 < D1D)%nat /\ (j1 < D1D)%nat /\ (j2 < D1D)%nat /\
    G D1D Q1D e qx qy (i + r * (D1D * D1D)) (j + rr * (D1D * D1D))
    = G D1D Q1D e qx qy ((i2 + i1 * D1D) + r * (D1D * D1D)) ((j2 + j1 * D1D) + rr * (D1D * D1D)).
Proof.
  intros Hi Hj.
  assert (HD0 : D1D <> 0%nat) by lia.
  exists (i / D1D)%nat, (i mod D1D)%nat, (j / D1D)%nat, (j mod D1D)%nat.
  repeat split.
  - apply Nat.Div0.div_lt_upper_bound. lia.
  - now apply Nat.mod_upper_bound.
  - apply Nat.Div0.div_lt_upper_bound. lia.
  - now apply Nat.mod_upper_bound.
  - f_equal; f_equal; rewrite (Nat.div_mod_eq _ D1D) at 1; lia.
Qed.

Lemma setup_element_local e c0 m m' :
  element_cell D1D Q1D e c0 -> m c0 = m' c0 ->
  element D1D Q1D MD1 MQ1 W b g J X e m c0 = element D1D Q1D MD1 MQ1 W b g J X e m' c0.
Proof.
  intros (qx & qy & Hqx & Hqy & T) Hown.
  destruct (setup_element_spec e m) as (A & B & _).
  destruct (setup_element_spec e m') as (A' & B' & _).
  destruct T as [(rr & cc & r & c & ? & ? & ? & ? & ->) | (i & j & r & rr & Hi & Hj & ? & ? & ->)].
  - rewrite A, A' by assumption. reflexivity.
  - destruct (G_form_decompose e qx qy i j r rr Hi Hj)
      as (i1 & i2 & j1 & j2 & ? & ? & ? & ? & E).
    rewrite E in *. rewrite B, B' by assumption. now rewrite Hown.
Qed.

Lemma setup_loop_spec m :
  (forall e c0, (e < NE)%nat -> element_cell D1D Q1D e c0 ->
     loop m c0 = element D1D Q1D MD1 MQ1 W b g J X e m c0) /\
  (forall c0, ~ scratch_cell c0 -> (forall e, (e < NE)%nat -> ~ element_cell D1D Q1D e c0) ->
     loop m c0 = m c0).
Proof.
  assert (Hframe : forall e m0 c0, In e (seq 0 NE) -> ~ scratch_cell c0 ->
            ~ element_cell D1D Q1D e c0 ->
            element D1D Q1D MD1 MQ1 W b g J X e m0 c0 = m0 c0).
  { intros e m0 c0 _ Hs Hc. apply (setup_element_spec e m0); [|exact Hc].
    unfold scratch_cell in Hs. now destruct (is_scratch (fst c0)). }
  assert (Hlocal : forall e c0 m0 m0', In e (seq 0 NE) -> element_cell D1D Q1D e c0 ->
            m0 c0 = m0' c0 ->
            (forall c', ~ scratch_cell c' ->
               (forall e', In e' (seq 0 NE) -> ~ element_cell D1D Q1D e' c') ->
               m0 c' = m0' c') ->
            element D1D Q1D MD1 MQ1 W b g J X e m0 c0
            = element D1D Q1D MD1 MQ1 W b g J X e m0' c0).
  { intros e c0 m0 m0' _ T Hown _. now apply setup_element_local. }
  split.
  - intros e c0 He T. unfold loop. rewrite for__foreach.
    rewrite (parfor_hit _ (element_cell D1D Q1D) scratch_cell) with (k := e).
    + reflexivity.
    + apply seq_NoDup.
    + intros e1 e2 c1 _ _. apply element_cell_disj.
    + intros e1 c1 _. apply element_cell_live.
    + exact Hframe.
    + exact Hlocal.
    + apply in_seq. lia.
    + exact T.
  - intros c0 Hs Hc. unfold loop. rewrite for__foreach.
    apply (parfor_miss _ (element_cell D1D Q1D) scratch_cell).
    + apply seq_NoDup.
    + intros e1 e2 c1 _ _. apply element_cell_disj.
    + exact Hframe.
    + exact Hlocal.
    + exact Hs.
    + intros e He. apply Hc. apply in_seq in He. lia.
Qed.
End SetupKernel.

(** ** The kernels, on their arguments *)

Lemma tpl_pos T rt : T <> 0%nat -> tpl T rt = T.
Proof. unfold tpl. destruct (Nat.eqb_spec T 0); congruence. Qed.

Section ApplyKernel.
Variables MAX_D1D MAX_Q1D T_D1D T_Q1D NE : nat.
Variables b1d_ g1d_ : nat -> R.
Variable Jtr : DenseMatrix.
Variables d1d q1d : nat.
Let D1D := tpl T_D1D d1d.
Let Q1D := tpl T_Q1D q1d.
Hypothesis HD : (D1D <= tpl T_D1D MAX_D1D)%nat.
Hypothesis HQ : (Q1D <= tpl T_Q1D MAX_Q1D)%nat.

(** The Apply kernel adds the dense contraction to the cells of [y_] that
    belong to the [NE] elements and leaves every other cell of [y_] as it
    was. *)
Lemma apply_kernel_spec p_ x_ m :
  let out := AddMultGradPA_Kernel_2D MAX_D1D MAX_Q1D T_D1D T_Q1D NE
               b1d_ g1d_ Jtr p_ x_ d1d q1d m in
  (forall e dx dy k,
     (e < NE)%nat -> (dx < D1D)%nat -> (dy < D1D)%nat -> (k < VDIM)%nat ->
     vec_of out v_y (ix4 D1D D1D VDIM dx dy k e)
     = vec_of m v_y (ix4 D1D D1D VDIM dx dy k e)
       + dense_apply D1D Q1D (view2 Q1D b1d_) (view2 Q1D g1d_)
           (view2 VDIM (Data Jtr)) (view4 D1D D1D VDIM x_)
           (view7 VDIM VDIM VDIM VDIM Q1D Q1D p_) e k dx dy) /\
  (forall i, (forall e, (e < NE)%nat -> ~ Y_cell_of D1D e (v_y, i)) ->
     vec_of out v_y i = vec_of m v_y i).
Proof.
  intros out. unfold out, AddMultGradPA_Kernel_2D, vec_of. cbv zeta.
  fold D1D Q1D. split.
  - intros e dx dy k He Hdx Hdy Hk.
    rewrite (kernel_loop_hit D1D Q1D _ _ NE _ _ _ _ _ HD HQ) by assumption.
    now rewrite fact_Y_dense.
  - intros i Hi.
    apply (kernel_loop_miss D1D Q1D _ _ NE _ _ _ _ _ HD HQ).
    + unfold scratch_cell. simpl. discriminate.
    + exact Hi.
Qed.

(** The result in [y_] does not depend on what the scratch arrays contain
    when the kernel starts. *)
Lemma apply_kernel_scratch p_ x_ y_ scr scr' i :
  vec_of (AddMultGradPA_Kernel_2D MAX_D1D MAX_Q1D T_D1D T_Q1D NE
            b1d_ g1d_ Jtr p_ x_ d1d q1d (with_vec scr v_y y_)) v_y i
  = vec_of (AddMultGradPA_Kernel_2D MAX_D1D MAX_Q1D T_D1D T_Q1D NE
              b1d_ g1d_ Jtr p_ x_ d1d q1d (with_vec scr' v_y y_)) v_y i.
Proof.
  destruct (apply_kernel_spec p_ x_ (with_vec scr v_y y_)) as [A B].
  destruct (apply_kernel_spec p_ x_ (with_vec scr' v_y y_)) as [A' B'].
  destruct (classic (exists e, (e < NE)%nat /\ Y_cell_of D1D e (v_y, i)))
    as [(e & He & dx & dy & k & Hdx & Hdy & Hk & E) | Hno].
  - inversion E. subst i. rewrite A, A' by assumption. reflexivity.
  - rewrite B, B'; [reflexivity | |]; intros e He Hc; apply Hno; eauto.
Qed.
End ApplyKernel.

Lemma rsum_lin n a b (f g : nat -> R) :
  rsum n (fun i => a * f i + b * g i) = a * rsum n f + b * rsum n g.
Proof. rewrite rsum_plus, !rsum_scal_l. reflexivity. Qed.

Lemma dense_apply_linear D1D Q1D b g J dP e k dx dy a c
    (U V : nat -> nat -> nat -> nat -> R) :
  dense_apply D1D Q1D b g J (fun i j l p => a * U i j l p + c * V i j l p) dP e k dx dy
  = a * dense_apply D1D Q1D b g J U dP e k dx dy
    + c * dense_apply D1D Q1D b g J V dP e k dx dy.
Proof.
  unfold dense_apply.
  rewrite <- rsum_lin. apply rsum_ext. intros dy' _.
  rewrite <- rsum_lin. apply rsum_ext. intros dx' _.
  rewrite <- rsum_lin. apply rsum_ext. intros k' _.
  unfold dense_hessian. ring.
Qed.

Lemma P_ix_bound Q1D NE e qx qy rr cc r c :
  (e < NE)%nat -> (qx < Q1D)%nat -> (qy < Q1D)%nat ->
  (rr < 2)%nat -> (cc < 2)%nat -> (r < 2)%nat -> (c < 2)%nat ->
  (ix7 VDIM VDIM VDIM VDIM Q1D Q1D rr cc r c qx qy e < 16 * Q1D * Q1D * NE)%nat.
Proof.
  intros He Hqx Hqy Hrr Hcc Hr Hc. unfold ix7, VDIM.
  assert (H1 : (qx + Q1D * (qy + Q1D * e) < Q1D * Q1D * NE)%nat) by nia.
  lia.
Qed.

Section SetupKernelSpec.
Variables MAX_D1D MAX_Q1D T_D1D T_Q1D : nat.
Variable xe_ : nat -> R.
Variable NE : nat.
Variables w_ b1d_ g1d_ : nat -> R.
Variable Jtr : DenseMatrix.
Variables d1d q1d : nat.
Let D1D := tpl T_D1D d1d.
Let Q1D := tpl T_Q1D q1d.
Let W := view2 Q1D w_.
Let b := view2 Q1D b1d_.
Let g := view2 Q1D g1d_.
Let J := view2 VDIM (Data Jtr).
Let X := view4 D1D D1D VDIM xe_.
Hypothesis HD : (D1D <= tpl T_D1D MAX_D1D)%nat.
Hypothesis HQ : (Q1D <= tpl T_Q1D MAX_Q1D)%nat.

(** The Setup kernel stores the scaled second derivative of the metric in
    [p_], adds the dense blocks to [g_], and leaves the other cells of the
    two vectors as they were. *)
Lemma setup_kernel_spec m :
  let out := SetupGradPA_2D MAX_D1D MAX_Q1D T_D1D T_Q1D xe_ NE w_ b1d_ g1d_
               Jtr d1d q1d m in
  (forall e qx qy rr cc r c,
     (e < NE)%nat -> (qx < Q1D)%nat -> (qy < Q1D)%nat ->
     (rr < 2)%nat -> (cc < 2)%nat -> (r < 2)%nat -> (c < 2)%nat ->
     vec_of out v_p (ix7 VDIM VDIM VDIM VDIM Q1D Q1D rr cc r c qx qy e)
     = Pval (Jpt_at D1D b g J X e qx qy)
            (scaling_qp W J (Jpt_at D1D b g J X e qx qy) qx qy) r c rr cc) /\
  (forall e qx qy i1 i2 j1 j2 r rr,
     (e < NE)%nat -> (qx < Q1D)%nat -> (qy < Q1D)%nat ->
     (i1 < D1D)%nat -> (i2 < D1D)%nat -> (j1 < D1D)%nat -> (j2 < D1D)%nat ->
     (r < 2)%nat -> (rr < 2)%nat ->
     let idx := ix5 Q1D Q1D (D1D * D1D * VDIM) (D1D * D1D * VDIM) qx qy
                  ((i2 + i1 * D1D) + r * (D1D * D1D))
                  ((j2 + j1 * D1D) + rr * (D1D * D1D)) e in
     vec_of out v_g idx
     = vec_of m v_g idx
       + rsum dim (fun c => rsum dim (fun cc =>
           DS b g J qx qy i1 i2 c * DS b g J qx qy j1 j2 cc
           * Pval (Jpt_at D1D b g J X e qx qy)
                  (scaling_qp W J (Jpt_at D1D b g J X e qx qy) qx qy)
                  r c rr cc))) /\
  (forall c0, ~ scratch_cell c0 ->
     (forall e, (e < NE)%nat -> ~ element_cell D1D Q1D e c0) ->
     out c0 = m c0).
Proof.
  intros out. unfold out, SetupGradPA_2D. cbv zeta.
  fold D1D Q1D. fold W b g J X.
  destruct (setup_loop_spec D1D Q1D _ _ NE W b g J X HD HQ m) as [Hhit Hmiss].
  split; [|split].
  - intros e qx qy rr cc r c He Hqx Hqy Hrr Hcc Hr Hc. unfold vec_of.
    change (v_p, ix7 VDIM VDIM VDIM VDIM Q1D Q1D rr cc r c qx qy e)
      with (Setup.P Q1D e rr cc r c qx qy).
    rewrite (Hhit e).
    + now apply (setup_element_spec D1D Q1D _ _ W b g J X HD HQ e m).
    + exact He.
    + exists qx, qy. split; [exact Hqx|]. split; [exact Hqy|]. left.
      exists rr, cc, r, c. repeat split; assumption.
  - intros e qx qy i1 i2 j1 j2 r rr He Hqx Hqy Hi1 Hi2 Hj1 Hj2 Hr Hrr.
    unfold vec_of.
    change (v_g, ix5 Q1D Q1D (D1D * D1D * VDIM) (D1D * D1D * VDIM) qx qy
                   (i2 + i1 * D1D + r * (D1D * D1D))
                   (j2 + j1 * D1D + rr * (D1D * D1D)) e)
      with (Setup.G D1D Q1D e qx qy (i2 + i1 * D1D + r * (D1D * D1D))
              (j2 + j1 * D1D + rr * (D1D * D1D))).
    rewrite (Hhit e).
    + now apply (setup_element_spec D1D Q1D _ _ W b g J X HD HQ e m).
    + exact He.
    + exists qx, qy. split; [exact Hqx|]. split; [exact Hqy|]. right.
      exists (i2 + i1 * D1D)%nat, (j2 + j1 * D1D)%nat, r, rr.
      repeat split; try assumption; nia.
  - exact Hmiss.
Qed.

(** [p_] beyond the [16 * Q1D * Q1D * NE] cells of the tensor is left as it
    was. *)
Lemma setup_kernel_p_frame m n :
  (16 * Q1D * Q1D * NE <= n)%nat ->
  vec_of (SetupGradPA_2D MAX_D1D MAX_Q1D T_D1D T_Q1D xe_ NE w_ b1d_ g1d_
            Jtr d1d q1d m) v_p n
  = vec_of m v_p n.
Proof.
  intros Hn. unfold vec_of.
  apply (proj2 (proj2 (setup_kernel_spec m))).
  - unfold scratch_cell. simpl. discriminate.
  - intros e He (qx & qy & Hqx & Hqy & [T|T]).
    + destruct T as (rr & cc & r & c & Hrr & Hcc & Hr & Hc & E).
      apply (f_equal snd) in E. unfold Setup.P, Setup.P_ix in E. cbn [snd] in E.
      pose proof (P_ix_bound Q1D NE e qx qy rr cc r c He Hqx Hqy Hrr Hcc Hr Hc).
      lia.
    + destruct T as (i & j & r & rr & _ & _ & _ & _ & E). discriminate.
Qed.
End SetupKernelSpec.

(** The determinant and the second derivative of the metric read the four
    entries of a 2x2 matrix only. *)
Lemma Det_ext (M M' : DenseMatrix) :
  (forall k, (k < 4)%nat -> Data M k = Data M' k) -> Det M = Det M'.
Proof. intros H. unfold Det. rewrite !H by lia. reflexivity. Qed.

Lemma Dim2Invariant1_dMdM_ext (M M' : DenseMatrix) (i j r c : nat)
    (D : DenseMatrix) :
  is2x2 M -> is2x2 M' ->
  (forall k, (k < 4)%nat -> Data M k = Data M' k) ->
  (i < 2)%nat -> (j < 2)%nat -> (r < 2)%nat -> (c < 2)%nat ->
  elem (Dim2Invariant1_dMdM M i j (DenseMatrix_new 2 2)) r c
  = elem (Dim2Invariant1_dMdM M' i j (DenseMatrix_new 2 2)) r c.
Proof.
  intros [HM HW] [HM' HW'] H Hi Hj Hr Hc.
  pose proof (H 0%nat ltac:(lia)) as H0. pose proof (H 1%nat ltac:(lia)) as H1.
  pose proof (H 2%nat ltac:(lia)) as H2. pose proof (H 3%nat ltac:(lia)) as H3.
  clear H.
  destruct M as [h w d]; destruct M' as [h' w' d']; simpl in *; subst.
  two_cases i; two_cases j; two_cases r; two_cases c; unfold_dm;
    rewrite ?H0, ?H1, ?H2, ?H3; reflexivity.
Qed.

(** ** The dispatcher *)

Lemma Req_b_true x y : Req_b x y = true <-> x = y.
Proof. unfold Req_b. destruct (Req_dec_T x y); split; congruence. Qed.

Lemma identity_check J :
  Req_b (elem J 0 0) 1 && Req_b (elem J 1 1) 1 &&
  Req_b (elem J 1 0) 0 && Req_b (elem J 0 1) 0 = true <-> identity_entries J.
Proof.
  unfold identity_entries. rewrite !andb_true_iff, !Req_b_true. tauto.
Qed.

Lemma specialization_range id d q :
  specialization id = Some (d, q) ->
  (2 <= d <= 5)%nat /\ (1 <= q <= 5)%nat /\ id = (16 * Z.of_nat d + Z.of_nat q)%Z.
Proof.
  unfold specialization.
  destruct id as [|p|p]; try discriminate.
  do 7 (try destruct p as [p|p|]; try discriminate);
    intros E; inversion E; subst; repeat split; lia.
Qed.

(** Once the three verifications hold, a call is the setup step followed by
    the Apply step. *)
Lemma AddMultGradPA_verified MAX_D1D MAX_Q1D Xe Re Ce scratch I W :
  IntRule I = Some W -> Det (GeomToPerfGeomJac I) = 1 ->
  identity_entries (GeomToPerfGeomJac I) ->
  AddMultGradPA MAX_D1D MAX_Q1D Xe Re Ce scratch I
  = (I1 <- run_setup MAX_D1D MAX_Q1D Xe W
             (kernel_id (maps_ndof I) (maps_nqpt I)) (GeomToPerfGeomJac I)
             scratch I ;;
     run_apply MAX_D1D MAX_Q1D Re Ce
       (kernel_id (maps_ndof I) (maps_nqpt I)) (GeomToPerfGeomJac I)
       scratch I1).
Proof.
  intros HW HD HI. unfold AddMultGradPA. rewrite HW. cbv zeta.
  apply Req_b_true in HD. apply identity_check in HI.
  rewrite HD, HI. reflexivity.
Qed.

Lemma AddMultGradPA_returned MAX_D1D MAX_Q1D Xe Re Ce scratch I r :
  AddMultGradPA MAX_D1D MAX_Q1D Xe Re Ce scratch I = Returned r ->
  exists W T, IntRule I = Some W /\ Det (GeomToPerfGeomJac I) = 1 /\
    identity_entries (GeomToPerfGeomJac I) /\
    specialization (kernel_id (maps_ndof I) (maps_nqpt I)) = Some T.
Proof.
  unfold AddMultGradPA. destruct (IntRule I) as [W|]; [|discriminate].
  cbv zeta.
  destruct (Req_b (Det (GeomToPerfGeomJac I)) 1) eqn:E1; [|discriminate].
  cbn [MFEM_VERIFY bind].
  match goal with |- context [MFEM_VERIFY ?c _] => destruct c eqn:E2 end;
    [|discriminate].
  cbn [MFEM_VERIFY bind]. intros H.
  exists W.
  destruct (specialization (kernel_id (maps_ndof I) (maps_nqpt I))) as [T|] eqn:ES.
  - exists T. repeat split; try reflexivity.
    + now apply Req_b_true.
    + now apply identity_check.
    + now apply identity_check.
    + now apply identity_check.
    + now apply identity_check.
  - exfalso. unfold run_setup, run_apply in H. rewrite ES in H.
    destruct (negb (setup I)); cbn [bind MFEM_ABORT] in H; discriminate.
Qed.

(** A call on an integrator that has not been set up. *)
Lemma AddMultGradPA_first MAX_D1D MAX_Q1D Xe Re Ce scratch I r :
  setup I = false ->
  AddMultGradPA MAX_D1D MAX_Q1D Xe Re Ce scratch I = Returned r ->
  exists W d q,
    IntRule I = Some W /\
    specialization (kernel_id (maps_ndof I) (maps_nqpt I)) = Some (d, q) /\
    config (fst r) = config I /\ setup (fst r) = true /\
    calls (fst r) = calls I ++ [Setup_call d q; Apply_call d q] /\
    dPpa (fst r)
    = vec_of (SetupGradPA_2D MAX_D1D MAX_Q1D d q Xe (ne I) W (maps_B I)
                (maps_G I) (GeomToPerfGeomJac I) 0 0
                (with_vec (with_vec scratch v_p (dPpa I)) v_g (fun _ => 0))) v_p /\
    Gpa (fst r)
    = vec_of (SetupGradPA_2D MAX_D1D MAX_Q1D d q Xe (ne I) W (maps_B I)
                (maps_G I) (GeomToPerfGeomJac I) 0 0
                (with_vec (with_vec scratch v_p (dPpa I)) v_g (fun _ => 0))) v_g /\
    snd r = apply_output MAX_D1D MAX_Q1D (d, q) (fst r) (mkCall Xe Re Ce scratch).
Proof.
  intros Hs H.
  destruct (AddMultGradPA_returned _ _ _ _ _ _ _ _ H) as (W & [d q] & HW & HD & HI & ES).
  rewrite (AddMultGradPA_verified _ _ _ _ _ _ _ W HW HD HI) in H.
  unfold run_setup, run_apply in H. rewrite Hs, ES in H. cbn [negb bind] in H.
  inversion H. subst r. clear H. cbn.
  exists W, d, q. rewrite <- app_assoc. repeat split; auto.
Qed.

(** A call on an integrator that has been set up. *)
Lemma AddMultGradPA_cached MAX_D1D MAX_Q1D Xe Re Ce scratch I r :
  setup I = true ->
  AddMultGradPA MAX_D1D MAX_Q1D Xe Re Ce scratch I = Returned r ->
  exists d q,
    specialization (kernel_id (maps_ndof I) (maps_nqpt I)) = Some (d, q) /\
    config (fst r) = config I /\ setup (fst r) = true /\
    calls (fst r) = calls I ++ [Apply_call d q] /\
    dPpa (fst r) = dPpa I /\ Gpa (fst r) = Gpa I /\
    snd r = apply_output MAX_D1D MAX_Q1D (d, q) I (mkCall Xe Re Ce scratch).
Proof.
  intros Hs H.
  destruct (AddMultGradPA_returned _ _ _ _ _ _ _ _ H) as (W & [d q] & HW & HD & HI & ES).
  rewrite (AddMultGradPA_verified _ _ _ _ _ _ _ W HW HD HI) in H.
  unfold run_setup, run_apply in H. rewrite Hs, ES in H. cbn [negb bind] in H.
  inversion H. subst r. clear H. cbn.
  exists d, q. repeat split; auto.
Qed.

Lemma config_id I I' :
  config I' = config I ->
  kernel_id (maps_ndof I') (maps_nqpt I') = kernel_id (maps_ndof I) (maps_nqpt I).
Proof. unfold config. intros E. inversion E. congruence. Qed.

Lemma apply_output_config MAX_D1D MAX_Q1D T I I' a :
  config I' = config I -> dPpa I' = dPpa I ->
  apply_output MAX_D1D MAX_Q1D T I' a = apply_output MAX_D1D MAX_Q1D T I a.
Proof. unfold config, apply_output. intros E E'. inversion E. congruence. Qed.

(** Calls on an integrator that has been set up keep the cached tensor and
    start one Apply kernel each. *)
Lemma run_calls_cached MAX_D1D MAX_Q1D l : forall I r,
  setup I = true ->
  run_calls MAX_D1D MAX_Q1D l I = Returned r ->
  config (fst r) = config I /\ setup (fst r) = true /\
  dPpa (fst r) = dPpa I /\ Gpa (fst r) = Gpa I /\
  List.length (snd r) = List.length l /\
  forall d q,
    specialization (kernel_id (maps_ndof I) (maps_nqpt I)) = Some (d, q) ->
    calls (fst r) = calls I ++ repeat (Apply_call d q) (List.length l) /\
    snd r = map (apply_output MAX_D1D MAX_Q1D (d, q) I) l.
Proof.
  induction l as [|a l IH]; intros I r Hs H.
  - cbn in H. inversion H. subst r. cbn. repeat split; auto.
    now rewrite app_nil_r.
  - cbn [run_calls] in H.
    destruct (AddMultGradPA MAX_D1D MAX_Q1D (arg_Xe a) (arg_Re a) (arg_Ce a)
                (arg_scratch a) I) as [r1|] eqn:E1; [|discriminate].
    cbn [bind] in H.
    destruct (run_calls MAX_D1D MAX_Q1D l (fst r1)) as [r2|] eqn:E2; [|discriminate].
    cbn [bind] in H. inversion H. subst r. clear H. cbn [fst snd].
    destruct (AddMultGradPA_cached _ _ _ _ _ _ _ _ Hs E1)
      as (d & q & ES & Hc & Hs1 & Hcalls & HP & HG & Hout).
    destruct (IH _ _ Hs1 E2) as (Hc2 & Hs2 & HP2 & HG2 & Hlen & Hrest).
    repeat split; try congruence.
    + cbn. now rewrite Hlen.
    + rewrite ES in H. inversion H. subst d0 q0.
      destruct (Hrest d q) as [Hc3 _]; [now rewrite (config_id _ _ Hc)|].
      rewrite Hc3, Hcalls, <- app_assoc. reflexivity.
    + rewrite ES in H. inversion H. subst d0 q0.
      destruct (Hrest d q) as [_ Ho]; [now rewrite (config_id _ _ Hc)|].
      rewrite Ho, Hout. cbn [map]. destruct a. cbn. f_equal.
      apply map_ext. intros a'. now apply apply_output_config.
Qed.

(** The output of a call does not depend on the contents of the scratch
    arrays. *)
Lemma apply_output_scratch MAX_D1D MAX_Q1D id d q I a a' :
  specialization id = Some (d, q) ->
  arg_Re a = arg_Re a' -> arg_Ce a = arg_Ce a' ->
  forall n, apply_output MAX_D1D MAX_Q1D (d, q) I a n
            = apply_output MAX_D1D MAX_Q1D (d, q) I a' n.
Proof.
  intros ES ER EC n. unfold apply_output. cbn [fst snd]. rewrite ER, EC.
  destruct (specialization_range _ _ _ ES) as (Hd & Hq & _).
  apply apply_kernel_scratch; rewrite !tpl_pos by lia; lia.
Qed.

Lemma AddMultGradPA_returns MAX_D1D MAX_Q1D Xe Re Ce scratch I W T :
  IntRule I = Some W -> Det (GeomToPerfGeomJac I) = 1 ->
  identity_entries (GeomToPerfGeomJac I) ->
  specialization (kernel_id (maps_ndof I) (maps_nqpt I)) = Some T ->
  exists r, AddMultGradPA MAX_D1D MAX_Q1D Xe Re Ce scratch I = Returned r.
Proof.
  intros HW HD HI ES.
  rewrite (AddMultGradPA_verified _ _ _ _ _ _ _ W HW HD HI).
  unfold run_setup, run_apply. rewrite ES. destruct T as [d q].
  destruct (negb (setup I)); cbn [bind]; eauto.
Qed.

Lemma AddMultGradPA_config MAX_D1D MAX_Q1D Xe Re Ce scratch I r :
  AddMultGradPA MAX_D1D MAX_Q1D Xe Re Ce scratch I = Returned r ->
  config (fst r) = config I /\ setup (fst r) = true.
Proof.
  intros H. destruct (setup I) eqn:Hs.
  - destruct (AddMultGradPA_cached _ _ _ _ _ _ _ _ Hs H) as (d & q & _ & Hc & Hs1 & _).
    now split.
  - destruct (AddMultGradPA_first _ _ _ _ _ _ _ _ Hs H) as (W & d & q & _ & _ & Hc & Hs1 & _).
    now split.
Qed.

Lemma run_calls_returns MAX_D1D MAX_Q1D l : forall I W T,
  IntRule I = Some W -> Det (GeomToPerfGeomJac I) = 1 ->
  identity_entries (GeomToPerfGeomJac I) ->
  specialization (kernel_id (maps_ndof I) (maps_nqpt I)) = Some T ->
  exists r, run_calls MAX_D1D MAX_Q1D l I = Returned r.
Proof.
  induction l as [|a l IH]; intros I W T HW HD HI ES.
  - cbn. eauto.
  - cbn [run_calls].
    destruct (AddMultGradPA_returns MAX_D1D MAX_Q1D (arg_Xe a) (arg_Re a)
                (arg_Ce a) (arg_scratch a) I W T HW HD HI ES) as [r1 E1].
    rewrite E1. cbn [bind].
    destruct (AddMultGradPA_config _ _ _ _ _ _ _ _ E1) as [Hc _].
    pose proof (config_id _ _ Hc) as Hid.
    unfold config in Hc. inversion Hc as [[H1 H2 H3 H4 H5 H6 H7]].
    destruct (IH (fst r1) W T) as [r2 E2]; try congruence.
    rewrite E2. cbn [bind]. eauto.
Qed.

Lemma Det_mat2 a b c d : Det (mat2 a b c d) = a * d - b * c.
Proof. unfold Det, mat2. cbn. ring. Qed.

Lemma identity_entries_I : identity_entries (mat2 1 0 0 1).
Proof. unfold identity_entries, elem, mat2. cbn. repeat split. Qed.

(** ** Further lemmas on the kernels and the dispatcher *)

Lemma dense_apply_plus D1D Q1D b g J dP e k dx dy
    (U V : nat -> nat -> nat -> nat -> R) :
  dense_apply D1D Q1D b g J (fun i j l p => U i j l p + V i j l p) dP e k dx dy
  = dense_apply D1D Q1D b g J U dP e k dx dy
    + dense_apply D1D Q1D b g J V dP e k dx dy.
Proof.
  unfold dense_apply.
  rewrite <- rsum_plus. apply rsum_ext. intros dy' _.
  rewrite <- rsum_plus. apply rsum_ext. intros dx' _.
  rewrite <- rsum_plus. apply rsum_ext. intros k' _.
  ring.
Qed.

Lemma dense_hessian_ext Q1D b g J e dx dy k dx' dy' k'
    (dP dP' : nat -> nat -> nat -> nat -> nat -> nat -> nat -> R) :
  (k < 2)%nat -> (k' < 2)%nat ->
  (forall rr cc r c qx qy,
     (rr < 2)%nat -> (cc < 2)%nat -> (r < 2)%nat -> (c < 2)%nat ->
     (qx < Q1D)%nat -> (qy < Q1D)%nat ->
     dP rr cc r c qx qy e = dP' rr cc r c qx qy e) ->
  dense_hessian Q1D b g J dP e dx dy k dx' dy' k'
  = dense_hessian Q1D b g J dP' e dx dy k dx' dy' k'.
Proof.
  intros Hk Hk' H. unfold dense_hessian.
  apply rsum_ext. intros qy Hqy. apply rsum_ext. intros qx Hqx.
  apply rsum_ext. intros c Hc. apply rsum_ext. intros j Hj.
  unfold dim in Hc, Hj. rewrite H by assumption. reflexivity.
Qed.

Lemma dense_apply_ext D1D Q1D b g J e k dx dy
    (X X' : nat -> nat -> nat -> nat -> R)
    (dP dP' : nat -> nat -> nat -> nat -> nat -> nat -> nat -> R) :
  (k < 2)%nat ->
  (forall dx' dy' k', (dx' < D1D)%nat -> (dy' < D1D)%nat -> (k' < 2)%nat ->
     X dx' dy' k' e = X' dx' dy' k' e) ->
  (forall rr cc r c qx qy,
     (rr < 2)%nat -> (cc < 2)%nat -> (r < 2)%nat -> (c < 2)%nat ->
     (qx < Q1D)%nat -> (qy < Q1D)%nat ->
     dP rr cc r c qx qy e = dP' rr cc r c qx qy e) ->
  dense_apply D1D Q1D b g J X dP e k dx dy
  = dense_apply D1D Q1D b g J X' dP' e k dx dy.
Proof.
  intros Hk HX HP. unfold dense_apply.
  apply rsum_ext. intros dy' Hdy'. apply rsum_ext. intros dx' Hdx'.
  apply rsum_ext. intros k' Hk'. unfold VDIM in Hk'.
  rewrite (HX dx' dy' k') by assumption.
  rewrite (dense_hessian_ext Q1D b g J e dx dy k dx' dy' k' dP dP') by assumption.
  reflexivity.
Qed.

Lemma Dim2Invariant1_dMdM_sym (M : DenseMatrix) (i j r c : nat) :
  is2x2 M -> (i < 2)%nat -> (j < 2)%nat -> (r < 2)%nat -> (c < 2)%nat ->
  elem (Dim2Invariant1_dMdM M i j (DenseMatrix_new 2 2)) r c
  = elem (Dim2Invariant1_dMdM M r c (DenseMatrix_new 2 2)) i j.
Proof.
  intros [Hh Hw] Hi Hj Hr Hc.
  destruct M as [h w d]; simpl in *; subst.
  two_cases i; two_cases j; two_cases r; two_cases c; unfold_dm;
    try reflexivity; unfold Rdiv; f_equal; ring.
Qed.

Section KernelsTogether.
Variables MAX_D1D MAX_Q1D T_D1D T_Q1D NE : nat.
Variables w_ b1d_ g1d_ : nat -> R.
Variable Jtr : DenseMatrix.
Variables d1d q1d : nat.
Let D1D := tpl T_D1D d1d.
Let Q1D := tpl T_Q1D q1d.
Let dof := (D1D * D1D)%nat.
Hypothesis HD : (D1D <= tpl T_D1D MAX_D1D)%nat.
Hypothesis HQ : (Q1D <= tpl T_Q1D MAX_Q1D)%nat.

(** The dense Hessian that the Apply kernel contracts, for the tensor the
    Setup kernel stored, is the sum over the quadrature points of the block
    entries that the Setup kernel added to [g_]. *)
Lemma dense_hessian_is_block_sum xe_ m0 e dx dy k dx' dy' k' :
  (e < NE)%nat -> (dx < D1D)%nat -> (dy < D1D)%nat -> (k < 2)%nat ->
  (dx' < D1D)%nat -> (dy' < D1D)%nat -> (k' < 2)%nat ->
  let ms := SetupGradPA_2D MAX_D1D MAX_Q1D T_D1D T_Q1D xe_ NE w_ b1d_ g1d_
              Jtr d1d q1d m0 in
  dense_hessian Q1D (view2 Q1D b1d_) (view2 Q1D g1d_) (view2 VDIM (Data Jtr))
    (view7 VDIM VDIM VDIM VDIM Q1D Q1D (vec_of ms v_p)) e dx dy k dx' dy' k'
  = rsum Q1D (fun qy => rsum Q1D (fun qx =>
      vec_of ms v_g
        (ix5 Q1D Q1D (dof * VDIM) (dof * VDIM) qx qy
           ((dy + dx * D1D) + k * dof) ((dy' + dx' * D1D) + k' * dof) e)
      - vec_of m0 v_g
          (ix5 Q1D Q1D (dof * VDIM) (dof * VDIM) qx qy
             ((dy + dx * D1D) + k * dof) ((dy' + dx' * D1D) + k' * dof) e))).
Proof.
  intros He Hdx Hdy Hk Hdx' Hdy' Hk' ms.
  destruct (setup_kernel_spec MAX_D1D MAX_Q1D T_D1D T_Q1D xe_ NE w_ b1d_ g1d_
              Jtr d1d q1d HD HQ m0) as (HP & HG & _).
  fold D1D Q1D in HP, HG. fold ms in HP, HG.
  unfold dense_hessian.
  apply rsum_ext. intros qy Hqy. apply rsum_ext. intros qx Hqx.
  unfold dof.
  rewrite (HG e qx qy dx dy dx' dy' k k') by assumption.
  match goal with |- _ = ?a + ?s - ?a => replace (a + s - a) with s by ring end.
  apply rsum_ext. intros c Hc. apply rsum_ext. intros j Hj.
  unfold dim in Hc, Hj. unfold view7 at 1.
  rewrite HP by assumption. ring.
Qed.
(** What the Apply kernel adds, for the tensor the Setup kernel stored from
    a zeroed [g_], is the product of the assembled blocks with the trial
    field. *)
Lemma apply_block_product xe_ x_ m0 m e dx dy k :
  (forall n, vec_of m0 v_g n = 0) ->
  (e < NE)%nat -> (dx < D1D)%nat -> (dy < D1D)%nat -> (k < VDIM)%nat ->
  let ms := SetupGradPA_2D MAX_D1D MAX_Q1D T_D1D T_Q1D xe_ NE w_ b1d_ g1d_
              Jtr d1d q1d m0 in
  let out := AddMultGradPA_Kernel_2D MAX_D1D MAX_Q1D T_D1D T_Q1D NE
               b1d_ g1d_ Jtr (vec_of ms v_p) x_ d1d q1d m in
  vec_of out v_y (ix4 D1D D1D VDIM dx dy k e)
  = vec_of m v_y (ix4 D1D D1D VDIM dx dy k e)
    + rsum D1D (fun dy' => rsum D1D (fun dx' => rsum VDIM (fun k' =>
        rsum Q1D (fun qy => rsum Q1D (fun qx =>
          vec_of ms v_g
            (ix5 Q1D Q1D (dof * VDIM) (dof * VDIM) qx qy
               ((dy + dx * D1D) + k * dof) ((dy' + dx' * D1D) + k' * dof) e)))
        * x_ (ix4 D1D D1D VDIM dx' dy' k' e)))).
Proof.
  intros Hz He Hdx Hdy Hk ms out. unfold out.
  rewrite (proj1 (apply_kernel_spec _ _ _ _ NE b1d_ g1d_ Jtr _ _ HD HQ _ _ m))
    by assumption.
  f_equal. unfold dense_apply.
  apply rsum_ext. intros dy' Hdy'. apply rsum_ext. intros dx' Hdx'.
  apply rsum_ext. intros k' Hk'. unfold VDIM in Hk, Hk'.
  unfold ms. fold D1D Q1D.
  rewrite (dense_hessian_is_block_sum xe_ m0 e dx dy k dx' dy' k') by assumption.
  unfold view4. f_equal.
  apply rsum_ext. intros qy _. apply rsum_ext. intros qx _.
  rewrite Hz. ring.
Qed.
End KernelsTogether.

(** The sum-factorised interpolation of the Setup kernel: the local
    Jacobian is the nodal field contracted with [DS]. *)
Lemma gradient_sum D1D (b g : nat -> nat -> R)
    (X : nat -> nat -> nat -> nat -> R) e qx qy k (j0 j1 : R) :
  fact_R0 D1D b g X e k qy qx * j0 + fact_R1 D1D b g X e k qy qx * j1
  = rsum D1D (fun dy => rsum D1D (fun dx =>
      X dx dy k e * (g qx dx * b qy dy * j0 + b qx dx * g qy dy * j1))).
Proof.
  unfold fact_R0, fact_R1, fact_RG, fact_RB.
  rewrite <- !rsum_scal_r, <- rsum_plus.
  apply rsum_ext. intros dy _.
  rewrite <- !rsum_scal_r, <- rsum_plus.
  apply rsum_ext. intros dx _. ring.
Qed.

Lemma Jpt_at_elem D1D b g J X e qx qy k c :
  (k < 2)%nat -> (c < 2)%nat ->
  elem (Jpt_at D1D b g J X e qx qy) k c
  = rsum D1D (fun dy => rsum D1D (fun dx =>
      X dx dy k e * DS b g J qx qy dx dy c)).
Proof.
  intros Hk Hc. unfold Jpt_at. rewrite elem_Mult by (simpl; exact Hk).
  cbn [Width DenseMatrix_view]. change dim with 2%nat. cbn [rsum].
  rewrite !(Jrt_qp_elem 0) by lia.
  unfold elem. cbn [Data Height DenseMatrix_view].
  two_cases k; two_cases c; cbn [arr4 Nat.add Nat.mul];
    rewrite Rplus_0_l, gradient_sum;
    apply rsum_ext; intros dy _; apply rsum_ext; intros dx _;
    unfold DS, DSh, dim, rsum; cbn [Nat.add Nat.mul]; ring.
Qed.

Section SetupDetermined.
Variables MAX_D1D MAX_Q1D T_D1D T_Q1D NE : nat.
Variables xe_ w_ b1d_ g1d_ : nat -> R.
Variable Jtr : DenseMatrix.
Variables d1d q1d : nat.
Let D1D := tpl T_D1D d1d.
Let Q1D := tpl T_Q1D q1d.
Hypothesis HD : (D1D <= tpl T_D1D MAX_D1D)%nat.
Hypothesis HQ : (Q1D <= tpl T_Q1D MAX_Q1D)%nat.

(** What the Setup kernel leaves in [g_] depends on the initial [g_] only,
    and what it stores in the cells of the tensor on no initial content. *)
Lemma setup_kernel_determined m m' :
  (forall n, vec_of m v_g n = vec_of m' v_g n) ->
  let S m := SetupGradPA_2D MAX_D1D MAX_Q1D T_D1D T_Q1D xe_ NE w_ b1d_ g1d_
               Jtr d1d q1d m in
  (forall n, vec_of (S m) v_g n = vec_of (S m') v_g n) /\
  (forall e qx qy rr cc r c,
     (e < NE)%nat -> (qx < Q1D)%nat -> (qy < Q1D)%nat ->
     (rr < 2)%nat -> (cc < 2)%nat -> (r < 2)%nat -> (c < 2)%nat ->
     vec_of (S m) v_p (ix7 VDIM VDIM VDIM VDIM Q1D Q1D rr cc r c qx qy e)
     = vec_of (S m') v_p (ix7 VDIM VDIM VDIM VDIM Q1D Q1D rr cc r c qx qy e)).
Proof.
  intros Hg S. unfold S.
  destruct (setup_kernel_spec MAX_D1D MAX_Q1D T_D1D T_Q1D xe_ NE w_ b1d_ g1d_
              Jtr d1d q1d HD HQ m) as (HP & HG & HF).
  destruct (setup_kernel_spec MAX_D1D MAX_Q1D T_D1D T_Q1D xe_ NE w_ b1d_ g1d_
              Jtr d1d q1d HD HQ m') as (HP' & HG' & HF').
  fold D1D Q1D in HP, HG, HF, HP', HG', HF'.
  split.
  - intros n.
    destruct (classic (exists e, (e < NE)%nat /\ element_cell D1D Q1D e (v_g, n)))
      as [(e & He & qx & qy & Hqx & Hqy & T) | Hno].
    + destruct T as [(rr & cc & r & c & _ & _ & _ & _ & E)
                    | (i & j & r & rr & Hi & Hj & Hr & Hrr & E)];
        [discriminate|].
      destruct (G_form_decompose D1D Q1D _ _ HD HQ e qx qy i j r rr Hi Hj)
        as (i1 & i2 & j1 & j2 & Hi1 & Hi2 & Hj1 & Hj2 & E').
      rewrite E' in E. apply (f_equal snd) in E. unfold Setup.G in E.
      cbn [snd] in E. rewrite E.
      rewrite (HG e qx qy i1 i2 j1 j2 r rr) by assumption.
      rewrite (HG' e qx qy i1 i2 j1 j2 r rr) by assumption.
      rewrite Hg. reflexivity.
    + unfold vec_of. rewrite HF, HF'.
      * exact (Hg n).
      * unfold scratch_cell. simpl. discriminate.
      * intros e He Hc. apply Hno. eauto.
      * unfold scratch_cell. simpl. discriminate.
      * intros e He Hc. apply Hno. eauto.
  - intros e qx qy rr cc r c He Hqx Hqy Hrr Hcc Hr Hc.
    rewrite HP, HP' by assumption. reflexivity.
Qed.
End SetupDetermined.

Lemma kernel_id_small (D Q : Z) :
  (0 <= D < 2 ^ 27)%Z -> (0 <= Q < 16)%Z ->
  kernel_id D Q = (16 * D + Q)%Z.
Proof.
  intros HD HQ. unfold kernel_id.
  assert (E : Z.lor (Z.shiftl D 4) Q = (16 * D + Q)%Z).
  { rewrite <- Z.lxor_lor.
    - rewrite <- Z.add_nocarry_lxor.
      + rewrite Z.shiftl_mul_pow2 by lia. change (2 ^ 4)%Z with 16%Z. lia.
      + apply Z.bits_inj'. intros n Hn. rewrite Z.land_spec, Z.bits_0.
        destruct (Z.lt_ge_cases n 4) as [Hlt|Hge].
        * rewrite Z.shiftl_spec_low by assumption. reflexivity.
        * rewrite (Z.bits_above_log2 Q n); [apply andb_false_r|lia|].
          destruct (Z.eq_dec Q 0) as [->|Hne]; [simpl; lia|].
          apply Z.lt_le_trans with 4%Z; [|exact Hge].
          apply Z.log2_lt_pow2; lia.
    - apply Z.bits_inj'. intros n Hn. rewrite Z.land_spec, Z.bits_0.
      destruct (Z.lt_ge_cases n 4) as [Hlt|Hge].
      * rewrite Z.shiftl_spec_low by assumption. reflexivity.
      * rewrite (Z.bits_above_log2 Q n); [apply andb_false_r|lia|].
        destruct (Z.eq_dec Q 0) as [->|Hne]; [simpl; lia|].
        apply Z.lt_le_trans with 4%Z; [|exact Hge].
        apply Z.log2_lt_pow2; lia. }
  rewrite E. unfold wrap32.
  rewrite Z.mod_small by lia. lia.
Qed.

Lemma specialization_supported (D Q : Z) :
  (2 <= D <= 5)%Z -> (1 <= Q <= 5)%Z ->
  specialization (16 * D + Q) = Some (Z.to_nat D, Z.to_nat Q).
Proof.
  intros HD HQ.
  assert (D = 2 \/ D = 3 \/ D = 4 \/ D = 5)%Z as HD' by lia.
  assert (Q = 1 \/ Q = 2 \/ Q = 3 \/ Q = 4 \/ Q = 5)%Z as HQ' by lia.
  destruct HD' as [-> | [-> | [-> | ->]]];
    destruct HQ' as [-> | [-> | [-> | [-> | ->]]]]; reflexivity.
Qed.

Lemma specialization_unsupported (D Q : Z) :
  (0 <= D)%Z -> (0 <= Q < 16)%Z ->
  ~ ((2 <= D <= 5)%Z /\ (1 <= Q <= 5)%Z) ->
  specialization (16 * D + Q) = None.
Proof.
  intros HD HQ Hout.
  destruct (specialization (16 * D + Q)) as [[d q]|] eqn:E; [|reflexivity].
  exfalso. apply Hout.
  destruct (specialization_range _ _ _ E) as (Hd & Hq & Hid). lia.
Qed.

Lemma unknown_kernel_aborts MAX_D1D MAX_Q1D Xe Re Ce scratch I W :
  IntRule I = Some W -> Det (GeomToPerfGeomJac I) = 1 ->
  identity_entries (GeomToPerfGeomJac I) ->
  specialization (kernel_id (maps_ndof I) (maps_nqpt I)) = None ->
  AddMultGradPA MAX_D1D MAX_Q1D Xe Re Ce scratch I = Aborted "Unknown kernel.".
Proof.
  intros HW HD HI ES.
  rewrite (AddMultGradPA_verified _ _ _ _ _ _ _ W HW HD HI).
  unfold run_setup, run_apply. rewrite ES.
  destruct (negb (setup I)); reflexivity.
Qed.

Lemma AddMultGradPA_last_call MAX_D1D MAX_Q1D Xe Re Ce scratch I r d q :
  specialization (kernel_id (maps_ndof I) (maps_nqpt I)) = Some (d, q) ->
  AddMultGradPA MAX_D1D MAX_Q1D Xe Re Ce scratch I = Returned r ->
  exists tr, calls (fst r) = tr ++ [Apply_call d q].
Proof.
  intros ES H. destruct (setup I) eqn:Hs.
  - destruct (AddMultGradPA_cached _ _ _ _ _ _ _ _ Hs H)
      as (d' & q' & ES' & _ & _ & Hc & _).
    rewrite ES in ES'. inversion ES'. subst. eauto.
  - destruct (AddMultGradPA_first _ _ _ _ _ _ _ _ Hs H)
      as (W & d' & q' & _ & ES' & _ & _ & Hc & _).
    rewrite ES in ES'. inversion ES'. subst.
    exists (calls I ++ [Setup_call d' q']). rewrite Hc, <- app_assoc. reflexivity.
Qed.

Lemma cached_call_ignores_Xe MAX_D1D MAX_Q1D Xe Xe' Re Ce scratch I :
  setup I = true ->
  AddMultGradPA MAX_D1D MAX_Q1D Xe Re Ce scratch I
  = AddMultGradPA MAX_D1D MAX_Q1D Xe' Re Ce scratch I.
Proof.
  intros Hs. unfold AddMultGradPA, run_setup. rewrite Hs. reflexivity.
Qed.

Lemma vec_of_with_vec m b v i : vec_of (with_vec m b v) b i = v i.
Proof.
  unfold vec_of, with_vec. cbn [fst snd].
  destruct (buf_eq_dec b b); [reflexivity|congruence].
Qed.

(** The output of the Apply kernel a call starts, on the cells of the
    elements. *)
Lemma apply_output_spec MAX_D1D MAX_Q1D id D1D Q1D I a e dx dy k :
  specialization id = Some (D1D, Q1D) ->
  (e < ne I)%nat -> (dx < D1D)%nat -> (dy < D1D)%nat -> (k < VDIM)%nat ->
  apply_output MAX_D1D MAX_Q1D (D1D, Q1D) I a (ix4 D1D D1D VDIM dx dy k e)
  = arg_Ce a (ix4 D1D D1D VDIM dx dy k e)
    + dense_apply D1D Q1D (view2 Q1D (maps_B I)) (view2 Q1D (maps_G I))
        (view2 VDIM (Data (GeomToPerfGeomJac I)))
        (view4 D1D D1D VDIM (arg_Re a))
        (view7 VDIM VDIM VDIM VDIM Q1D Q1D (dPpa I)) e k dx dy.
Proof.
  intros ES He Hdx Hdy Hk.
  destruct (specialization_range _ _ _ ES) as (Hd & Hq & _).
  assert (TD : tpl D1D 0 = D1D) by (apply tpl_pos; lia).
  assert (TQ : tpl Q1D 0 = Q1D) by (apply tpl_pos; lia).
  assert (HDm : (tpl D1D 0 <= tpl D1D MAX_D1D)%nat) by (rewrite !tpl_pos; lia).
  assert (HQm : (tpl Q1D 0 <= tpl Q1D MAX_Q1D)%nat) by (rewrite !tpl_pos; lia).
  unfold apply_output. cbn [fst snd].
  pose proof (proj1 (apply_kernel_spec MAX_D1D MAX_Q1D D1D Q1D (ne I) (maps_B I)
                       (maps_G I) (GeomToPerfGeomJac I) 0 0 HDm HQm (dPpa I)
                       (arg_Re a) (with_vec (arg_scratch a) v_y (arg_Ce a)))
                e dx dy k) as H.
  rewrite TD, TQ in H. rewrite H by assumption.
  rewrite vec_of_with_vec. reflexivity.
Qed.

(** A first call that passes the verifications adds to [Ce] the product of
    the blocks it assembled in [Gpa] with [Re]. *)
Lemma first_call_block_product MAX_D1D MAX_Q1D Xe Re Ce scratch I W D1D Q1D :
  IntRule I = Some W -> Det (GeomToPerfGeomJac I) = 1 ->
  identity_entries (GeomToPerfGeomJac I) ->
  specialization (kernel_id (maps_ndof I) (maps_nqpt I)) = Some (D1D, Q1D) ->
  setup I = false ->
  exists r,
    AddMultGradPA MAX_D1D MAX_Q1D Xe Re Ce scratch I = Returned r /\
    forall e dx dy k,
      (e < ne I)%nat -> (dx < D1D)%nat -> (dy < D1D)%nat -> (k < VDIM)%nat ->
      let dof := (D1D * D1D)%nat in
      snd r (ix4 D1D D1D VDIM dx dy k e)
      = Ce (ix4 D1D D1D VDIM dx dy k e)
        + rsum D1D (fun dy' => rsum D1D (fun dx' => rsum VDIM (fun k' =>
            rsum Q1D (fun qy => rsum Q1D (fun qx =>
              Gpa (fst r)
                (ix5 Q1D Q1D (dof * VDIM) (dof * VDIM) qx qy
                   ((dy + dx * D1D) + k * dof)
                   ((dy' + dx' * D1D) + k' * dof) e)))
            * Re (ix4 D1D D1D VDIM dx' dy' k' e)))).
Proof.
  intros HW Hdet HI ES Hs.
  destruct (AddMultGradPA_returns MAX_D1D MAX_Q1D Xe Re Ce scratch I W _
              HW Hdet HI ES) as [r E].
  exists r. split; [exact E|].
  destruct (AddMultGradPA_first _ _ _ _ _ _ _ _ Hs E)
    as (W' & d & q & HW' & ES' & Hc & _ & _ & HP & HG & Hout).
  rewrite ES in ES'. inversion ES'. subst d q. clear ES'.
  rewrite HW in HW'. inversion HW'. subst W'. clear HW'.
  destruct (specialization_range _ _ _ ES) as (Hd & Hq & _).
  unfold config in Hc. inversion Hc as [[H1 H2 H3 H4 H5 H6 H7]]. clear Hc.
  intros e dx dy k He Hdx Hdy Hk dof.
  rewrite Hout. unfold apply_output. cbn [fst snd arg_Re arg_Ce arg_scratch].
  rewrite H4, H5, H6, H7, HP, HG.
  assert (TD : tpl D1D 0 = D1D) by (apply tpl_pos; lia).
  assert (TQ : tpl Q1D 0 = Q1D) by (apply tpl_pos; lia).
  assert (HDm : (tpl D1D 0 <= tpl D1D MAX_D1D)%nat) by (rewrite !tpl_pos; lia).
  assert (HQm : (tpl Q1D 0 <= tpl Q1D MAX_Q1D)%nat) by (rewrite !tpl_pos; lia).
  pose proof (apply_block_product MAX_D1D MAX_Q1D D1D Q1D (ne I) W (maps_B I)
                (maps_G I) (GeomToPerfGeomJac I) 0 0 HDm HQm Xe Re
                (with_vec (with_vec scratch v_p (dPpa I)) v_g (fun _ => 0))
                (with_vec scratch v_y Ce) e dx dy k) as Hbp.
  rewrite TD, TQ in Hbp. cbv zeta in Hbp.
  try rewrite H6 in He.
  rewrite Hbp; try assumption.
  - rewrite vec_of_with_vec. reflexivity.
  - intros n. apply vec_of_with_vec.
Qed.

Lemma config_fields I I' :
  config I' = config I ->
  IntRule I' = IntRule I /\ maps_B I' = maps_B I /\ maps_G I' = maps_G I /\
  ne I' = ne I /\ GeomToPerfGeomJac I' = GeomToPerfGeomJac I.
Proof. unfold config. intros E. inversion E. repeat split; assumption. Qed.

(** ** One bilinear element with one quadrature point *)

(** The tables of the bilinear basis at the centre of the element, the nodal
    field of the unit square with its first coordinate scaled by [s] (the
    element is inverted when [s < 0]), the weight of the rule, and the trial
    field that is one at the first node and zero elsewhere. *)
Abbreviation unit_b1d := (fun _ : nat => 1 / 2).
Abbreviation unit_g1d := (fun i : nat => match i with 0%nat => - (1) | _ => 1 end).
Abbreviation unit_xe s :=
  (fun i : nat => match i with
                  | 1%nat | 3%nat => s
                  | 6%nat | 7%nat => 1
                  | _ => 0
                  end).
Abbreviation unit_w := (fun _ : nat => 1).
Abbreviation node0 := (fun i : nat => match i with 0%nat => 1 | _ => 0 end).

Lemma unit_Jpt (s : R) (k : nat) :
  (k < 4)%nat ->
  Data (Jpt_at 2 (view2 1 unit_b1d) (view2 1 unit_g1d)
          (view2 VDIM (Data (mat2 1 0 0 1))) (view4 2 2 VDIM (unit_xe s))
          0 0 0) k
  = Data (mat2 s 0 0 1) k.
Proof.
  intros Hk.
  do 4 (destruct k as [|k];
        [ unfold Jpt_at, Mult, Setup.Jrt_qp, CalcInverse2, DenseMatrix_view,
            fact_R0, fact_R1, fact_RB, fact_RG, view2, view4, mat2, elem,
            rsum, for_, dim, VDIM, ix2, ix4, arr4; cbn; field | ]).
  lia.
Qed.

Lemma unit_Jpt_det (s : R) :
  Det (Jpt_at 2 (view2 1 unit_b1d) (view2 1 unit_g1d)
         (view2 VDIM (Data (mat2 1 0 0 1))) (view4 2 2 VDIM (unit_xe s))
         0 0 0) = s.
Proof.
  rewrite (Det_ext _ _ (unit_Jpt s)). rewrite Det_mat2. ring.
Qed.

(** The tensor the Setup kernel stores for that element. *)
Lemma unit_tensor (s : R) (m : mem) (rr cc r c : nat) :
  (rr < 2)%nat -> (cc < 2)%nat -> (r < 2)%nat -> (c < 2)%nat ->
  vec_of (SetupGradPA_2D 14 14 2 1 (unit_xe s) 1 unit_w unit_b1d unit_g1d
            (mat2 1 0 0 1) 0 0 m) v_p
    (ix7 VDIM VDIM VDIM VDIM 1 1 rr cc r c 0 0 0)
  = elem (Dim2Invariant1_dMdM (mat2 s 0 0 1) r c (DenseMatrix_new 2 2)) rr cc
    * ((if Rlt_dec s 0 then - (1) else 1) * (1 / 2)).
Proof.
  intros Hrr Hcc Hr Hc.
  assert (HD : (tpl 2 0 <= tpl 2 14)%nat) by (unfold tpl; simpl; lia).
  assert (HQ : (tpl 1 0 <= tpl 1 14)%nat) by (unfold tpl; simpl; lia).
  destruct (setup_kernel_spec 14 14 2 1 (unit_xe s) 1 unit_w unit_b1d unit_g1d
              (mat2 1 0 0 1) 0 0 HD HQ m) as (HP & _ & _).
  change (tpl 2 0) with 2%nat in HP. change (tpl 1 0) with 1%nat in HP.
  rewrite (HP 0%nat 0%nat 0%nat rr cc r c) by lia.
  unfold Pval, scaling_qp. rewrite unit_Jpt_det.
  rewrite (Dim2Invariant1_dMdM_ext _ (mat2 s 0 0 1) r c rr cc (DenseMatrix_new 2 2))
    by (try (split; reflexivity); try lia; exact (unit_Jpt s)).
  f_equal.
  unfold view2, mat2, ix2, VDIM. cbn [Data Nat.add Nat.mul].
  destruct (Rlt_dec s 0); field.
Qed.

Lemma unit_DS (dx dy c : nat) :
  (dx < 2)%nat -> (dy < 2)%nat -> (c < 2)%nat ->
  DS (view2 1 unit_b1d) (view2 1 unit_g1d) (view2 VDIM (Data (mat2 1 0 0 1)))
    0 0 dx dy c
  = (match c with 0%nat => unit_g1d dx | _ => unit_g1d dy end) * (1 / 2).
Proof.
  intros Hdx Hdy Hc.
  two_cases dx; two_cases dy; two_cases c;
    unfold DS, DSh, Jrt, CalcInverse2, view2, mat2, rsum, for_, dim, VDIM,
      ix2, arr4; cbn; field.
Qed.

(** The first entry of the dense block of the unit square. *)
Lemma unit_block (m : mem) :
  vec_of (SetupGradPA_2D 14 14 2 1 (unit_xe 1) 1 unit_w unit_b1d unit_g1d
            (mat2 1 0 0 1) 0 0 m) v_g 0
  = vec_of m v_g 0 + 1 / 2.
Proof.
  assert (HD : (tpl 2 0 <= tpl 2 14)%nat) by (unfold tpl; simpl; lia).
  assert (HQ : (tpl 1 0 <= tpl 1 14)%nat) by (unfold tpl; simpl; lia).
  destruct (setup_kernel_spec 14 14 2 1 (unit_xe 1) 1 unit_w unit_b1d unit_g1d
              (mat2 1 0 0 1) 0 0 HD HQ m) as (HP & HG & _).
  change (tpl 2 0) with 2%nat in HP, HG. change (tpl 1 0) with 1%nat in HP, HG.
  specialize (HG 0%nat 0%nat 0%nat 0%nat 0%nat 0%nat 0%nat 0%nat 0%nat
                 ltac:(lia) ltac:(lia) ltac:(lia) ltac:(lia) ltac:(lia)
                 ltac:(lia) ltac:(lia) ltac:(lia) ltac:(lia)).
  cbv zeta in HG.
  change (ix5 1 1 (2 * 2 * VDIM) (2 * 2 * VDIM) 0 0 (0 + 0 * 2 + 0 * (2 * 2))
            (0 + 0 * 2 + 0 * (2 * 2)) 0) with 0%nat in HG.
  rewrite HG. f_equal.
  unfold rsum, dim, for_.
  rewrite <- !(HP 0%nat 0%nat 0%nat) by lia.
  rewrite !unit_tensor by lia.
  rewrite !unit_DS by lia.
  destruct (Rlt_dec 1 0) as [Hn|_]; [lra|].
  unfold_dm. field.
Qed.

(** What the Apply kernel adds at the first node of the unit square, for
    the trial field that is one at that node, when the Setup kernel started
    from a zeroed [g_]. *)
Lemma unit_apply (m0 m : mem) :
  (forall n, vec_of m0 v_g n = 0) ->
  vec_of (AddMultGradPA_Kernel_2D 14 14 2 1 1 unit_b1d unit_g1d (mat2 1 0 0 1)
            (vec_of (SetupGradPA_2D 14 14 2 1 (unit_xe 1) 1 unit_w unit_b1d
                       unit_g1d (mat2 1 0 0 1) 0 0 m0) v_p)
            node0 0 0 m) v_y 0
  = vec_of m v_y 0 + 1 / 2.
Proof.
  intros Hz.
  assert (HD : (tpl 2 0 <= tpl 2 14)%nat) by (unfold tpl; simpl; lia).
  assert (HQ : (tpl 1 0 <= tpl 1 14)%nat) by (unfold tpl; simpl; lia).
  pose proof (apply_block_product 14 14 2 1 1 unit_w unit_b1d unit_g1d
                (mat2 1 0 0 1) 0 0 HD HQ (unit_xe 1) node0 m0 m
                0%nat 0%nat 0%nat 0%nat Hz) as H.
  change (tpl 2 0) with 2%nat in H. change (tpl 1 0) with 1%nat in H.
  specialize (H ltac:(lia) ltac:(lia) ltac:(lia) ltac:(unfold VDIM; lia)).
  cbv zeta in H.
  change (ix4 2 2 VDIM 0 0 0 0) with 0%nat in H.
  rewrite H. f_equal.
  unfold rsum, VDIM, ix4, ix5. cbn [Nat.add Nat.mul].
  rewrite unit_block, Hz. ring.
Qed.

(** The first call on the unit square, with that trial field. *)
Lemma unit_first_call (Ce : nat -> R) (scratch : mem) (dP0 G0 : nat -> R)
    (tr : list kernel_call) :
  exists r,
    AddMultGradPA 14 14 (unit_xe 1) node0 Ce scratch
      (mkIntegrator (Some unit_w) 2 1 unit_b1d unit_g1d 1 (mat2 1 0 0 1)
         false dP0 G0 tr)
    = Returned r /\
    snd r 0%nat = Ce 0%nat + 1 / 2.
Proof.
  set (I0 := mkIntegrator (Some unit_w) 2 1 unit_b1d unit_g1d 1 (mat2 1 0 0 1)
               false dP0 G0 tr).
  assert (Hdet : Det (GeomToPerfGeomJac I0) = 1) by (cbn; rewrite Det_mat2; ring).
  destruct (AddMultGradPA_returns 14 14 (unit_xe 1) node0 Ce scratch I0 unit_w
              (2, 1)%nat eq_refl Hdet identity_entries_I eq_refl) as [r E].
  exists r. split; [exact E|].
  destruct (AddMultGradPA_first _ _ _ _ _ _ _ _ (eq_refl : setup I0 = false) E)
    as (W' & d & q & HW' & ES' & Hc & _ & _ & HP & _ & Hout).
  assert (Ed : d = 2%nat /\ q = 1%nat) by (cbn in ES'; inversion ES'; now split).
  destruct Ed as [-> ->].
  assert (EW : W' = unit_w) by (cbn in HW'; inversion HW'; reflexivity).
  subst W'.
  destruct (config_fields _ _ Hc) as (_ & H4 & H5 & H6 & H7).
  rewrite Hout. unfold apply_output. cbn [fst snd arg_Re arg_Ce arg_scratch].
  rewrite H4, H5, H6, H7, HP. subst I0.
  cbn [ne maps_B maps_G GeomToPerfGeomJac dPpa].
  rewrite unit_apply.
  - rewrite vec_of_with_vec. reflexivity.
  - intros n. apply vec_of_with_vec.
Qed.

(** ** The invariant derivative library: the second derivative *)

(** Claim C3, the invariant it names.  At [M = diag(2, 1)] the entry
    [(0,0)] of [Dim2Invariant1_dMdM(M, 0, 0)] is [1/4], while the second
    derivative of [(2 det(M) |M|^2 - |M|^4) / det(M)^2] with respect to
    [M(0,0)] is [-15/8] there: the function does not compute a second
    derivative of that quantity. *)
Lemma C3_specified_invariant_is_not_the_potential :
  ~ second_partial_at I1_as_specified 0 0 0 0 (mat2 2 0 0 1)
      (elem (Dim2Invariant1_dMdM (mat2 2 0 0 1) 0 0 (DenseMatrix_new 2 2)) 0 0).
Proof.
  intros [g [Hg Hl]].
  assert (Hcode : elem (Dim2Invariant1_dMdM (mat2 2 0 0 1) 0 0
                          (DenseMatrix_new 2 2)) 0 0 = 1 / 4).
  { unfold_dm. field. }
  rewrite Hcode in Hl. clear Hcode.
  assert (Hg1 : forall M', is2x2 M' -> Det M' <> 0 ->
                  g M' = dI1_as_specified_00 M').
  { intros M' H2 Hd. eapply uniqueness_limite.
    - exact (Hg M' H2 Hd).
    - apply dI1_as_specified_00_ok; assumption. }
  assert (Hloc : derivable_pt_lim
                   (fun t => dI1_as_specified_00 (perturb (mat2 2 0 0 1) 0 0 t))
                   0 (1 / 4)).
  { apply (derivable_pt_lim_locally_ext
             (fun t => g (perturb (mat2 2 0 0 1) 0 0 t)) _ 0 (-1) 1).
    - lra.
    - intros z Hz. apply Hg1.
      + split; reflexivity.
      + unfold_dm. lra.
    - exact Hl. }
  assert (Hval : derivable_pt_lim
                   (fun t => dI1_as_specified_00 (perturb (mat2 2 0 0 1) 0 0 t))
                   0 (- 15 / 8)).
  { unfold_dm.
    eapply dl_value; [ eapply dl_div; [ repeat dl_rules | repeat dl_rules | ] | ].
    all: rewrite ?Rplus_0_r.
    1: lra.
    lra. }
  pose proof (uniqueness_limite _ _ _ _ Hloc Hval). lra.
Qed.

(** Claim C3, with the invariant [I1(M) = |M|_F^2 / det(M)].  For every 2x2
    matrix [M] with [det(M) <> 0] and all [i, j, r, c] in [{0, 1}], the entry
    [(r, c)] of [Dim2Invariant1_dMdM(M, i, j)] is the partial derivative with
    respect to [M(i,j)] of the entry [(r, c)] of the gradient expression
    [(2 det(M) M - |M|_F^2 adj(M)^T) / det(M)^2], and it is the second
    partial derivative of [I1], first with respect to [M(r,c)] and then with
    respect to [M(i,j)]. *)
Theorem C3_d2Metric_is_second_derivative (M : DenseMatrix) (i j r c : nat)
    (dMdM : DenseMatrix) :
  is2x2 M -> Det M <> 0 -> is2x2 dMdM ->
  (i < 2)%nat -> (j < 2)%nat -> (r < 2)%nat -> (c < 2)%nat ->
  partial_at (fun M' => metric_gradient M' r c) i j M
    (elem (Dim2Invariant1_dMdM M i j dMdM) r c) /\
  second_partial_at I1 r c i j M
    (elem (Dim2Invariant1_dMdM M i j dMdM) r c).
Proof.
  intros HM Hdet HdM Hi Hj Hr Hc.
  pose proof (d2Metric_differentiates_gradient M i j r c dMdM
                HM Hdet HdM Hi Hj Hr Hc) as H.
  split; [exact H|].
  exists (fun M' => metric_gradient M' r c). split; [|exact H].
  intros M' HM' Hdet'. now apply metric_gradient_is_gradient_of_I1.
Qed.

Lemma C3_witness :
  partial_at (fun M' => metric_gradient M' 0 0) 0 0 (mat2 2 0 0 1)
    (elem (Dim2Invariant1_dMdM (mat2 2 0 0 1) 0 0 (DenseMatrix_new 2 2)) 0 0) /\
  second_partial_at I1 0 0 0 0 (mat2 2 0 0 1)
    (elem (Dim2Invariant1_dMdM (mat2 2 0 0 1) 0 0 (DenseMatrix_new 2 2)) 0 0).
Proof.
  apply (C3_d2Metric_is_second_derivative (mat2 2 0 0 1) 0 0 0 0
           (DenseMatrix_new 2 2)); try lia.
  - split; reflexivity.
  - unfold Det, mat2. simpl. lra.
  - split; reflexivity.
Defined.

(** ** The Apply kernel *)

(** Claim C1.  The sum-factorised Apply kernel ends with, in every cell of
    [y_] that belongs to one of the [NE] elements, the value the cell had
    plus the direct contraction [dense_apply] of the dense local Hessian
    (the coefficient tensor weighted by the [DS] outer products) with the
    trial field; every other cell of [y_] keeps its value.  The kernel adds
    to [y_], it does not overwrite it. *)
Theorem C1_apply_adds_dense_contraction
    (MAX_D1D MAX_Q1D T_D1D T_Q1D NE : nat) (b1d_ g1d_ : nat -> R)
    (Jtr : DenseMatrix) (p_ x_ : nat -> R) (d1d q1d : nat) (m : mem) :
  let D1D := tpl T_D1D d1d in
  let Q1D := tpl T_Q1D q1d in
  (D1D <= tpl T_D1D MAX_D1D)%nat -> (Q1D <= tpl T_Q1D MAX_Q1D)%nat ->
  let out := AddMultGradPA_Kernel_2D MAX_D1D MAX_Q1D T_D1D T_Q1D NE
               b1d_ g1d_ Jtr p_ x_ d1d q1d m in
  (forall e dx dy k,
     (e < NE)%nat -> (dx < D1D)%nat -> (dy < D1D)%nat -> (k < VDIM)%nat ->
     vec_of out v_y (ix4 D1D D1D VDIM dx dy k e)
     = vec_of m v_y (ix4 D1D D1D VDIM dx dy k e)
       + dense_apply D1D Q1D (view2 Q1D b1d_) (view2 Q1D g1d_)
           (view2 VDIM (Data Jtr)) (view4 D1D D1D VDIM x_)
           (view7 VDIM VDIM VDIM VDIM Q1D Q1D p_) e k dx dy) /\
  (forall i, (forall e, (e < NE)%nat -> ~ Y_cell_of D1D e (v_y, i)) ->
     vec_of out v_y i = vec_of m v_y i).
Proof.
  intros D1D Q1D HD HQ. exact (apply_kernel_spec _ _ _ _ _ _ _ _ _ _ HD HQ p_ x_ m).
Qed.

Lemma C1_witness :
  let m : mem := fun _ => 0 in
  let out := AddMultGradPA_Kernel_2D 14 14 2 1 1 (fun _ => 1) (fun _ => 1)
               (mat2 1 0 0 1) (fun _ => 1) (fun _ => 1) 0 0 m in
  (forall e dx dy k,
     (e < 1)%nat -> (dx < 2)%nat -> (dy < 2)%nat -> (k < VDIM)%nat ->
     vec_of out v_y (ix4 2 2 VDIM dx dy k e)
     = vec_of m v_y (ix4 2 2 VDIM dx dy k e)
       + dense_apply 2 1 (view2 1 (fun _ => 1)) (view2 1 (fun _ => 1))
           (view2 VDIM (Data (mat2 1 0 0 1))) (view4 2 2 VDIM (fun _ => 1))
           (view7 VDIM VDIM VDIM VDIM 1 1 (fun _ => 1)) e k dx dy) /\
  (forall i, (forall e, (e < 1)%nat -> ~ Y_cell_of 2 e (v_y, i)) ->
     vec_of out v_y i = vec_of m v_y i).
Proof.
  apply (C1_apply_adds_dense_contraction 14 14 2 1 1 (fun _ => 1) (fun _ => 1)
           (mat2 1 0 0 1) (fun _ => 1) (fun _ => 1) 0 0 (fun _ => 0)); unfold tpl; simpl; lia.
Defined.

(** Claim C2.  For a fixed coefficient tensor, what the Apply kernel adds to
    a cell of [y_] is linear in the trial field:
    [added (a u + b v) = a added u + b added v]. *)
Theorem C2_apply_linear
    (MAX_D1D MAX_Q1D T_D1D T_Q1D NE : nat) (b1d_ g1d_ : nat -> R)
    (Jtr : DenseMatrix) (p_ : nat -> R) (d1d q1d : nat) (m : mem)
    (a b : R) (u v : nat -> R) (e dx dy k : nat) :
  let D1D := tpl T_D1D d1d in
  let Q1D := tpl T_Q1D q1d in
  (D1D <= tpl T_D1D MAX_D1D)%nat -> (Q1D <= tpl T_Q1D MAX_Q1D)%nat ->
  (e < NE)%nat -> (dx < D1D)%nat -> (dy < D1D)%nat -> (k < VDIM)%nat ->
  let added x_ :=
    vec_of (AddMultGradPA_Kernel_2D MAX_D1D MAX_Q1D T_D1D T_Q1D NE
              b1d_ g1d_ Jtr p_ x_ d1d q1d m) v_y (ix4 D1D D1D VDIM dx dy k e)
    - vec_of m v_y (ix4 D1D D1D VDIM dx dy k e) in
  added (fun i => a * u i + b * v i) = a * added u + b * added v.
Proof.
  intros D1D Q1D HD HQ He Hdx Hdy Hk added. unfold added.
  rewrite !(proj1 (apply_kernel_spec _ _ _ _ _ _ _ _ _ _ HD HQ p_ _ m)) by assumption.
  fold D1D Q1D.
  replace (view4 D1D D1D VDIM (fun i => a * u i + b * v i))
    with (fun i j l p => a * view4 D1D D1D VDIM u i j l p + b * view4 D1D D1D VDIM v i j l p)
    by reflexivity.
  rewrite dense_apply_linear. ring.
Qed.

Lemma C2_witness :
  let added x_ :=
    vec_of (AddMultGradPA_Kernel_2D 14 14 2 1 1 (fun _ => 1) (fun _ => 1)
              (mat2 1 0 0 1) (fun _ => 1) x_ 0 0 (fun _ => 0)) v_y
      (ix4 2 2 VDIM 0 0 0 0)
    - vec_of (fun _ => 0) v_y (ix4 2 2 VDIM 0 0 0 0) in
  added (fun i => 2 * (fun _ => 1) i + 3 * (fun _ => 1) i)
  = 2 * added (fun _ => 1) + 3 * added (fun _ => 1).
Proof.
  apply (C2_apply_linear 14 14 2 1 1 (fun _ => 1) (fun _ => 1) (mat2 1 0 0 1)
           (fun _ => 1) 0 0 (fun _ => 0) 2 3 (fun _ => 1) (fun _ => 1) 0 0 0 0);
    unfold tpl, VDIM; simpl; lia.
Defined.

(** ** The Setup kernel *)




(** Claim C5.  At every quadrature point of every element the Setup kernel
    stores [Dim2Invariant1_dMdM(Jpt, r, c)] scaled by
    [sign * 0.5 * weight * det(Jtr)], where [sign] is [-1] when
    [det(Jpt) < 0] and [1] otherwise, and for every pair of local degrees of
    freedom [(i, j)] it adds the sum over [(c, cc)] of
    [DS(i,c) * DS(j,cc) * dP(rr,cc)] to the cell
    [(qx, qy, i + r dof, j + rr dof, e)] of [g_].  The kernel is a total
    function of its arguments: an inverted element changes the sign and
    nothing else. *)
Theorem C5_setup_scales_by_orientation_sign
    (MAX_D1D MAX_Q1D T_D1D T_Q1D : nat) (xe_ : nat -> R) (NE : nat)
    (w_ b1d_ g1d_ : nat -> R) (Jtr : DenseMatrix) (d1d q1d : nat) (m : mem)
    (e qx qy : nat) :
  let D1D := tpl T_D1D d1d in
  let Q1D := tpl T_Q1D q1d in
  (D1D <= tpl T_D1D MAX_D1D)%nat -> (Q1D <= tpl T_Q1D MAX_Q1D)%nat ->
  (e < NE)%nat -> (qx < Q1D)%nat -> (qy < Q1D)%nat ->
  let W := view2 Q1D w_ in
  let b := view2 Q1D b1d_ in
  let g := view2 Q1D g1d_ in
  let J := view2 VDIM (Data Jtr) in
  let X := view4 D1D D1D VDIM xe_ in
  let out := SetupGradPA_2D MAX_D1D MAX_Q1D T_D1D T_Q1D xe_ NE w_ b1d_ g1d_
               Jtr d1d q1d m in
  let Jpt := Jpt_at D1D b g J X e qx qy in
  let sign := if Rlt_dec (Det Jpt) 0 then -1 else 1 in
  let detJtr := J 0%nat 0%nat * J 1%nat 1%nat - J 0%nat 1%nat * J 1%nat 0%nat in
  let dof := (D1D * D1D)%nat in
  (Det Jpt < 0 -> sign = -1) /\ (0 <= Det Jpt -> sign = 1) /\
  (forall rr cc r c,
     (rr < 2)%nat -> (cc < 2)%nat -> (r < 2)%nat -> (c < 2)%nat ->
     vec_of out v_p (ix7 VDIM VDIM VDIM VDIM Q1D Q1D rr cc r c qx qy e)
     = elem (Dim2Invariant1_dMdM Jpt r c (DenseMatrix_new 2 2)) rr cc
       * (sign * (1 / 2) * (W qx qy * detJtr))) /\
  (forall i1 i2 j1 j2 r rr,
     (i1 < D1D)%nat -> (i2 < D1D)%nat -> (j1 < D1D)%nat -> (j2 < D1D)%nat ->
     (r < 2)%nat -> (rr < 2)%nat ->
     let i := (i2 + i1 * D1D)%nat in
     let j := (j2 + j1 * D1D)%nat in
     let idx := ix5 Q1D Q1D (dof * VDIM) (dof * VDIM) qx qy
                  (i + r * dof) (j + rr * dof) e in
     vec_of out v_g idx
     = vec_of m v_g idx
       + rsum dim (fun c => rsum dim (fun cc =>
           DS b g J qx qy i1 i2 c * DS b g J qx qy j1 j2 cc
           * (elem (Dim2Invariant1_dMdM Jpt r c (DenseMatrix_new 2 2)) rr cc
              * (sign * (1 / 2) * (W qx qy * detJtr)))))).
Proof.
  intros D1D Q1D HD HQ He Hqx Hqy W b g J X out Jpt sign detJtr dof.
  destruct (setup_kernel_spec MAX_D1D MAX_Q1D T_D1D T_Q1D xe_ NE w_ b1d_ g1d_
              Jtr d1d q1d HD HQ m) as (HP & HG & _).
  split; [|split; [|split]].
  - intros H. unfold sign. destruct (Rlt_dec (Det Jpt) 0); [reflexivity|lra].
  - intros H. unfold sign. destruct (Rlt_dec (Det Jpt) 0); [lra|reflexivity].
  - intros rr cc r c Hrr Hcc Hr Hc. unfold out.
    rewrite HP by assumption. reflexivity.
  - intros i1 i2 j1 j2 r rr Hi1 Hi2 Hj1 Hj2 Hr Hrr i j idx.
    unfold idx, i, j, dof, out. rewrite HG by assumption. reflexivity.
Qed.

Lemma C5_witness :
  let out := SetupGradPA_2D 14 14 2 1 (unit_xe (-1)) 1 unit_w unit_b1d unit_g1d
               (mat2 1 0 0 1) 0 0 (fun _ => 0) in
  let W := view2 1 unit_w in
  let b := view2 1 unit_b1d in
  let g := view2 1 unit_g1d in
  let J := view2 VDIM (Data (mat2 1 0 0 1)) in
  let X := view4 2 2 VDIM (unit_xe (-1)) in
  let Jpt := Jpt_at 2 b g J X 0 0 0 in
  let sign := if Rlt_dec (Det Jpt) 0 then -1 else 1 in
  let detJtr := J 0%nat 0%nat * J 1%nat 1%nat - J 0%nat 1%nat * J 1%nat 0%nat in
  Det Jpt = -1 /\ sign = -1 /\
  vec_of out v_p (ix7 VDIM VDIM VDIM VDIM 1 1 0 0 0 0 0 0 0) = 1 /\
  (Det Jpt < 0 -> sign = -1) /\ (0 <= Det Jpt -> sign = 1) /\
  (forall rr cc r c,
     (rr < 2)%nat -> (cc < 2)%nat -> (r < 2)%nat -> (c < 2)%nat ->
     vec_of out v_p (ix7 VDIM VDIM VDIM VDIM 1 1 rr cc r c 0 0 0)
     = elem (Dim2Invariant1_dMdM Jpt r c (DenseMatrix_new 2 2)) rr cc
       * (sign * (1 / 2) * (W 0%nat 0%nat * detJtr))) /\
  (forall i1 i2 j1 j2 r rr,
     (i1 < 2)%nat -> (i2 < 2)%nat -> (j1 < 2)%nat -> (j2 < 2)%nat ->
     (r < 2)%nat -> (rr < 2)%nat ->
     let i := (i2 + i1 * 2)%nat in
     let j := (j2 + j1 * 2)%nat in
     let idx := ix5 1 1 (2 * 2 * VDIM) (2 * 2 * VDIM) 0 0
                  (i + r * (2 * 2)) (j + rr * (2 * 2)) 0 in
     vec_of out v_g idx
     = vec_of (fun _ => 0) v_g idx
       + rsum dim (fun c => rsum dim (fun cc =>
           DS b g J 0 0 i1 i2 c * DS b g J 0 0 j1 j2 cc
           * (elem (Dim2Invariant1_dMdM Jpt r c (DenseMatrix_new 2 2)) rr cc
              * (sign * (1 / 2) * (W 0%nat 0%nat * detJtr)))))).
Proof.
  intros out W b g J X Jpt sign detJtr.
  assert (H := C5_setup_scales_by_orientation_sign 14 14 2 1 (unit_xe (-1)) 1
                 unit_w unit_b1d unit_g1d (mat2 1 0 0 1) 0 0 (fun _ => 0)
                 0 0 0).
  cbv zeta in H. change (tpl 2 0) with 2%nat in H.
  change (tpl 1 0) with 1%nat in H.
  specialize (H ltac:(unfold tpl; simpl; lia) ltac:(unfold tpl; simpl; lia)
                ltac:(lia) ltac:(lia) ltac:(lia)).
  assert (Hdet : Det Jpt = -1) by apply unit_Jpt_det.
  split; [exact Hdet|].
  split; [apply (proj1 H); change (Det Jpt < 0); rewrite Hdet; lra|].
  split; [|exact H].
  unfold out. rewrite unit_tensor by lia.
  destruct (Rlt_dec (-1) 0) as [_|Hn]; [|lra].
  unfold_dm. field.
Defined.

(** ** Calls of the dispatcher *)

(** Claim C6, at [D1D = 2], [Q1D = 17].  The pair is outside
    [{2,...,5} x {1,...,5}], yet [(2 << 4) | 17 = 0x31]: the call returns
    after starting the Setup and Apply kernels of the case [<3,1,1>]. *)
Theorem C6_colliding_configuration_is_dispatched
    (MAX_D1D MAX_Q1D : nat) (Xe Re Ce : nat -> R) (scratch : mem)
    (W B G : nat -> R) (NE : nat) (dP0 G0 : nat -> R) :
  kernel_id 2 17 = 0x31%Z /\
  exists r,
    AddMultGradPA MAX_D1D MAX_Q1D Xe Re Ce scratch
      (mkIntegrator (Some W) 2 17 B G NE (mat2 1 0 0 1) false dP0 G0 [])
    = Returned r /\
    calls (fst r) = [Setup_call 3 1; Apply_call 3 1].
Proof.
  split; [reflexivity|].
  set (I := mkIntegrator (Some W) 2 17 B G NE (mat2 1 0 0 1) false dP0 G0 []).
  destruct (AddMultGradPA_returns MAX_D1D MAX_Q1D Xe Re Ce scratch I W (3, 1)%nat)
    as [r E]; try reflexivity.
  - cbn. rewrite Det_mat2. ring.
  - exact identity_entries_I.
  - exists r. split; [exact E|].
    destruct (AddMultGradPA_first _ _ _ _ _ _ _ _ (eq_refl : setup I = false) E)
      as (W' & d & q & _ & ES & _ & _ & Hc & _).
    cbn in ES. inversion ES. subst d q. exact Hc.
Qed.

(** Claim C7, as stated.  Two consecutive calls on the unit square with the
    same nodal field and the same trial field, the second call being given
    the vector the first call left: the first call leaves [1/2] in the first
    cell, the second leaves [1].  The output depends on what the vector
    holds on entry. *)
Lemma C7_reused_output_vector_accumulates :
  let I0 := mkIntegrator (Some unit_w) 2 1 unit_b1d unit_g1d 1 (mat2 1 0 0 1)
              false (fun _ => 0) (fun _ => 0) [] in
  exists r1 r2,
    AddMultGradPA 14 14 (unit_xe 1) node0 (fun _ => 0) (fun _ => 0) I0
    = Returned r1 /\
    AddMultGradPA 14 14 (unit_xe 1) node0 (snd r1) (fun _ => 0) (fst r1)
    = Returned r2 /\
    snd r1 0%nat = 1 / 2 /\ snd r2 0%nat = 1 /\
    snd r2 0%nat <> snd r1 0%nat.
Proof.
  intros I0.
  destruct (unit_first_call (fun _ => 0) (fun _ => 0) (fun _ => 0) (fun _ => 0) [])
    as (r1 & E1 & V1).
  fold I0 in E1.
  destruct (AddMultGradPA_first _ _ _ _ _ _ _ _ (eq_refl : setup I0 = false) E1)
    as (W' & d & q & _ & ES & Hc & Hs1 & _ & _ & _ & Hout1).
  assert (Ed : d = 2%nat /\ q = 1%nat) by (cbn in ES; inversion ES; now split).
  destruct Ed as [-> ->].
  destruct (config_fields _ _ Hc) as (HW & _ & _ & Hne & HJ).
  pose proof (config_id _ _ Hc) as Hid.
  destruct (AddMultGradPA_returns 14 14 (unit_xe 1) node0 (snd r1) (fun _ => 0)
              (fst r1) unit_w (2, 1)%nat) as [r2 E2].
  - rewrite HW. reflexivity.
  - rewrite HJ. cbn. rewrite Det_mat2. ring.
  - rewrite HJ. exact identity_entries_I.
  - rewrite Hid. exact ES.
  - exists r1, r2. split; [exact E1|]. split; [exact E2|].
    destruct (AddMultGradPA_cached _ _ _ _ _ _ _ _ Hs1 E2)
      as (d & q & ES2 & _ & _ & _ & _ & _ & Hout2).
    rewrite Hid, ES in ES2. inversion ES2. subst d q. clear ES2.
    assert (He : (0 < ne (fst r1))%nat) by (rewrite Hne; cbn; lia).
    assert (A1 := apply_output_spec 14 14 _ 2 1 (fst r1)
                    (mkCall (unit_xe 1) node0 (fun _ => 0) (fun _ => 0))
                    0 0 0 0 ES He ltac:(lia) ltac:(lia) ltac:(unfold VDIM; lia)).
    assert (A2 := apply_output_spec 14 14 _ 2 1 (fst r1)
                    (mkCall (unit_xe 1) node0 (snd r1) (fun _ => 0))
                    0 0 0 0 ES He ltac:(lia) ltac:(lia) ltac:(unfold VDIM; lia)).
    rewrite <- Hout1 in A1. rewrite <- Hout2 in A2.
    cbn [arg_Ce arg_Re] in A1, A2.
    change (ix4 2 2 VDIM 0 0 0 0) with 0%nat in A1, A2.
    rewrite V1 in *.
    assert (V2 : snd r2 0%nat = 1) by lra.
    repeat split; try assumption; lra.
Qed.

(** Claim C7, with the output vector taken into account.  In a sequence of
    calls that starts with the cache flag unset and that returns, the first
    call starts the Setup kernel and then the Apply kernel, every later call
    starts the Apply kernel only, the cached tensors after the last call are
    those the first call left, and two calls of the sequence with the same
    trial field and the same [Ce] on entry give the same output, whatever
    the nodal field and the scratch arrays they are given. *)
Theorem C7_setup_runs_once
    (MAX_D1D MAX_Q1D : nat) (I : TMOP_Integrator) (a : call_args)
    (l : list call_args) (r : TMOP_Integrator * list (nat -> R)) :
  setup I = false ->
  run_calls MAX_D1D MAX_Q1D (a :: l) I = Returned r ->
  exists d q r1,
    AddMultGradPA MAX_D1D MAX_Q1D (arg_Xe a) (arg_Re a) (arg_Ce a)
      (arg_scratch a) I = Returned r1 /\
    calls (fst r1) = calls I ++ [Setup_call d q; Apply_call d q] /\
    calls (fst r) = calls (fst r1) ++ repeat (Apply_call d q) (List.length l) /\
    dPpa (fst r) = dPpa (fst r1) /\
    Gpa (fst r) = Gpa (fst r1) /\
    List.length (snd r) = S (List.length l) /\
    forall i j, (i < S (List.length l))%nat -> (j < S (List.length l))%nat ->
      arg_Re (nth i (a :: l) a) = arg_Re (nth j (a :: l) a) ->
      arg_Ce (nth i (a :: l) a) = arg_Ce (nth j (a :: l) a) ->
      forall n, nth i (snd r) (fun _ => 0) n = nth j (snd r) (fun _ => 0) n.
Proof.
  intros Hs H. cbn [run_calls] in H.
  destruct (AddMultGradPA MAX_D1D MAX_Q1D (arg_Xe a) (arg_Re a) (arg_Ce a)
              (arg_scratch a) I) as [r1|] eqn:E1; [|discriminate].
  cbn [bind] in H.
  destruct (run_calls MAX_D1D MAX_Q1D l (fst r1)) as [r2|] eqn:E2; [|discriminate].
  cbn [bind] in H. inversion H. subst r. clear H. cbn [fst snd].
  destruct (AddMultGradPA_first _ _ _ _ _ _ _ _ Hs E1)
    as (W & d & q & HW & ES & Hc & Hs1 & Hcalls & _ & _ & Hout).
  destruct (run_calls_cached _ _ _ _ _ Hs1 E2) as (_ & _ & HP & HG & Hlen & Hrest).
  destruct (Hrest d q) as [Hc2 Ho]; [now rewrite (config_id _ _ Hc)|].
  exists d, q, r1. repeat split; try assumption.
  - cbn. now rewrite Hlen.
  - intros i j Hi Hj ER EC n.
    assert (E : snd r1 :: snd r2
                = map (apply_output MAX_D1D MAX_Q1D (d, q) (fst r1)) (a :: l)).
    { cbn [map]. rewrite Ho, Hout. now destruct a. }
    rewrite E.
    rewrite (nth_indep _ (fun _ => 0)
               (apply_output MAX_D1D MAX_Q1D (d, q) (fst r1) a))
      by (rewrite length_map; exact Hi).
    rewrite (nth_indep _ (fun _ => 0)
               (apply_output MAX_D1D MAX_Q1D (d, q) (fst r1) a))
      by (rewrite length_map; exact Hj).
    rewrite !map_nth.
    now apply (apply_output_scratch _ _ _ _ _ _ _ _ ES).
Qed.

Lemma C7_witness :
  let I0 := mkIntegrator (Some unit_w) 2 1 unit_b1d unit_g1d 1 (mat2 1 0 0 1)
              false (fun _ => 0) (fun _ => 0) [] in
  let a1 := mkCall (unit_xe 1) node0 (fun _ => 0) (fun _ => 0) in
  let a2 := mkCall (fun _ => 9) node0 (fun _ => 0) (fun _ => 7) in
  exists r,
    run_calls 14 14 [a1; a2] I0 = Returned r /\
    exists d q r1,
      AddMultGradPA 14 14 (arg_Xe a1) (arg_Re a1) (arg_Ce a1)
        (arg_scratch a1) I0 = Returned r1 /\
      snd r1 0%nat = 1 / 2 /\
      calls (fst r1) = calls I0 ++ [Setup_call d q; Apply_call d q] /\
      calls (fst r) = calls (fst r1) ++ repeat (Apply_call d q) (List.length [a2]) /\
      dPpa (fst r) = dPpa (fst r1) /\
      Gpa (fst r) = Gpa (fst r1) /\
      List.length (snd r) = S (List.length [a2]) /\
      forall i j, (i < S (List.length [a2]))%nat -> (j < S (List.length [a2]))%nat ->
        arg_Re (nth i [a1; a2] a1) = arg_Re (nth j [a1; a2] a1) ->
        arg_Ce (nth i [a1; a2] a1) = arg_Ce (nth j [a1; a2] a1) ->
        forall n, nth i (snd r) (fun _ => 0) n = nth j (snd r) (fun _ => 0) n.
Proof.
  intros I0 a1 a2.
  destruct (run_calls_returns 14 14 [a1; a2] I0 unit_w (2, 1)%nat)
    as [r E].
  - reflexivity.
  - cbn. rewrite Det_mat2. ring.
  - exact identity_entries_I.
  - reflexivity.
  - exists r. split; [exact E|].
    destruct (C7_setup_runs_once 14 14 I0 a1 [a2] r eq_refl E)
      as (d & q & r1 & E1 & H).
    exists d, q, r1. split; [exact E1|]. split; [|exact H].
    destruct (unit_first_call (fun _ => 0) (fun _ => 0) (fun _ => 0)
                (fun _ => 0) []) as (r1' & E1' & V1).
    fold I0 in E1'. cbn [arg_Xe arg_Re arg_Ce arg_scratch a1] in E1.
    unfold a1 in E1. cbn [arg_Xe arg_Re arg_Ce arg_scratch] in E1.
    rewrite E1' in E1. inversion E1. subst r1'. rewrite V1. ring.
Defined.

(** Claim C8, as stated.  With the nodal field zero the local Jacobian is
    singular at the quadrature point of the element, and the call does not
    abort. *)
Lemma C8_degenerate_element_is_not_fatal :
  let I0 := mkIntegrator (Some (fun _ => 1)) 2 1 (fun _ => 1) (fun _ => 1) 1
              (mat2 1 0 0 1) false (fun _ => 0) (fun _ => 0) [] in
  let Xe : nat -> R := fun _ => 0 in
  degenerate 2 1 1 (view2 1 (maps_B I0)) (view2 1 (maps_G I0))
    (view2 VDIM (Data (GeomToPerfGeomJac I0))) (view4 2 2 VDIM Xe) /\
  forall msg,
    AddMultGradPA 14 14 Xe (fun _ => 0) (fun _ => 0) (fun _ => 0) I0
    <> Aborted msg.
Proof.
  intros I0 Xe. split.
  - exists 0%nat, 0%nat, 0%nat. repeat split; try lia.
    unfold Jpt_at, Det, Mult, Setup.Jrt_qp, fact_R0, fact_R1, fact_RB, fact_RG,
      view4, Xe.
    cbn. ring.
  - intros msg H.
    destruct (AddMultGradPA_returns 14 14 Xe (fun _ => 0) (fun _ => 0)
                (fun _ => 0) I0 (fun _ => 1) (2, 1)%nat) as [r E]; try reflexivity.
    + cbn. rewrite Det_mat2. ring.
    + exact identity_entries_I.
    + congruence.
Qed.

(** Claim C8, for what the dispatcher checks.  A call returns exactly when an
    integration rule is set, the reference Jacobian has determinant one and
    the entries of the identity, and the configuration has a kernel: the
    nodal field, and with it [det(Jpt)], plays no part. *)
Theorem C8_call_returns_whatever_the_nodal_field
    (MAX_D1D MAX_Q1D : nat) (Xe Re Ce : nat -> R) (scratch : mem)
    (I : TMOP_Integrator) :
  (exists r, AddMultGradPA MAX_D1D MAX_Q1D Xe Re Ce scratch I = Returned r)
  <-> (IntRule I <> None /\ Det (GeomToPerfGeomJac I) = 1 /\
       identity_entries (GeomToPerfGeomJac I) /\
       specialization (kernel_id (maps_ndof I) (maps_nqpt I)) <> None).
Proof.
  split.
  - intros [r H].
    destruct (AddMultGradPA_returned _ _ _ _ _ _ _ _ H) as (W & T & HW & HD & HI & ES).
    repeat split; try congruence; apply HI.
  - intros (HW & HD & HI & ES).
    destruct (IntRule I) as [W|] eqn:EW; [|congruence].
    destruct (specialization (kernel_id (maps_ndof I) (maps_nqpt I))) as [T|] eqn:ET;
      [|congruence].
    now apply (AddMultGradPA_returns _ _ _ _ _ _ _ W T).
Qed.

(** Claim C9.  A call with a reference Jacobian whose determinant is not
    one aborts. *)
Theorem C9_non_unit_determinant_is_fatal
    (MAX_D1D MAX_Q1D : nat) (Xe Re Ce : nat -> R) (scratch : mem)
    (I : TMOP_Integrator) :
  Det (GeomToPerfGeomJac I) <> 1 ->
  exists msg, AddMultGradPA MAX_D1D MAX_Q1D Xe Re Ce scratch I = Aborted msg.
Proof.
  intros HD.
  destruct (AddMultGradPA MAX_D1D MAX_Q1D Xe Re Ce scratch I) as [r|msg] eqn:E.
  - destruct (AddMultGradPA_returned _ _ _ _ _ _ _ _ E) as (_ & _ & _ & H & _).
    contradiction.
  - eauto.
Qed.

Lemma C9_witness :
  exists msg,
    AddMultGradPA 14 14 (fun _ => 0) (fun _ => 0) (fun _ => 0) (fun _ => 0)
      (mkIntegrator (Some (fun _ => 1)) 2 1 (fun _ => 1) (fun _ => 1) 1
         (mat2 2 0 0 1) false (fun _ => 0) (fun _ => 0) [])
    = Aborted msg.
Proof.
  apply C9_non_unit_determinant_is_fatal.
  cbn. rewrite Det_mat2. lra.
Defined.

(** Claim C10.  A call with a reference Jacobian whose four entries are not
    those of the identity aborts; a rotation other than the identity has
    determinant one and is such a Jacobian. *)
Theorem C10_identity_check_is_stricter_than_determinant
    (MAX_D1D MAX_Q1D : nat) (Xe Re Ce : nat -> R) (scratch : mem)
    (I : TMOP_Integrator) (c s : R) :
  (~ identity_entries (GeomToPerfGeomJac I) ->
   exists msg, AddMultGradPA MAX_D1D MAX_Q1D Xe Re Ce scratch I = Aborted msg) /\
  (GeomToPerfGeomJac I = mat2 c (- s) s c -> c * c + s * s = 1 ->
   ~ (c = 1 /\ s = 0) ->
   Det (GeomToPerfGeomJac I) = 1 /\
   exists msg, AddMultGradPA MAX_D1D MAX_Q1D Xe Re Ce scratch I = Aborted msg).
Proof.
  assert (A : ~ identity_entries (GeomToPerfGeomJac I) ->
              exists msg, AddMultGradPA MAX_D1D MAX_Q1D Xe Re Ce scratch I = Aborted msg).
  { intros HI.
    destruct (AddMultGradPA MAX_D1D MAX_Q1D Xe Re Ce scratch I) as [r|msg] eqn:E.
    - destruct (AddMultGradPA_returned _ _ _ _ _ _ _ _ E) as (_ & _ & _ & _ & H & _).
      contradiction.
    - eauto. }
  split; [exact A|].
  intros EJ Hcs Hne. split.
  - rewrite EJ, Det_mat2. lra.
  - apply A. rewrite EJ. unfold identity_entries, elem, mat2. cbn.
    intros (H1 & _ & H2 & _). apply Hne. split; lra.
Qed.

Lemma C10_witness :
  let I0 := mkIntegrator (Some (fun _ => 1)) 2 1 (fun _ => 1) (fun _ => 1) 1
              (mat2 0 (- 1) 1 0) false (fun _ => 0) (fun _ => 0) [] in
  (exists msg, AddMultGradPA 14 14 (fun _ => 0) (fun _ => 0) (fun _ => 0)
                 (fun _ => 0) I0 = Aborted msg) /\
  (Det (GeomToPerfGeomJac I0) = 1 /\
   exists msg, AddMultGradPA 14 14 (fun _ => 0) (fun _ => 0) (fun _ => 0)
                 (fun _ => 0) I0 = Aborted msg).
Proof.
  intros I0.
  destruct (C10_identity_check_is_stricter_than_determinant 14 14
              (fun _ => 0) (fun _ => 0) (fun _ => 0) (fun _ => 0) I0 0 1)
    as [A B].
  split.
  - apply A. unfold identity_entries, elem, I0, mat2. cbn. intros (H & _). lra.
  - apply B.
    + reflexivity.
    + lra.
    + intros [H _]. lra.
Defined.

(* ================================================================= *)
(** * Part III: further properties of the code *)

(** ** The invariant derivative library *)

(** Property X1.  For a 2x2 matrix [M], the entry [(i, j)] of the matrix
    that [Dim2Invariant2_dM] fills is the partial derivative of [det(M)]
    with respect to [M(i,j)]. *)
Theorem Dim2Invariant2_dM_is_gradient_of_det (M dM : DenseMatrix) (i j : nat) :
  is2x2 M -> is2x2 dM -> (i < 2)%nat -> (j < 2)%nat ->
  partial_at Det i j M (elem (Dim2Invariant2_dM M dM) i j).
Proof.
  intros [Hh Hw] [Hh' Hw'] Hi Hj.
  destruct M as [h w d]; destruct dM as [h' w' d']; simpl in *; subst.
  unfold partial_at.
  two_cases i; two_cases j; unfold_dm;
    (eapply dl_value; [ repeat dl_rules | cbv beta; ring ]).
Qed.

Lemma Dim2Invariant2_dM_is_gradient_of_det_witness :
  partial_at Det 0 1 (mat2 1 2 3 4)
    (elem (Dim2Invariant2_dM (mat2 1 2 3 4) (DenseMatrix_new 2 2)) 0 1).
Proof.
  apply Dim2Invariant2_dM_is_gradient_of_det; try lia; split; reflexivity.
Defined.

(** Property X2.  The entry [(r, c)] of the matrix that
    [Dim2Invariant2_dMdM(M, i, j)] fills is the partial derivative with
    respect to [M(i,j)] of the entry [(r, c)] of [Dim2Invariant2_dM(M)]. *)
Theorem Dim2Invariant2_dMdM_differentiates_dM (M dM dMdM : DenseMatrix)
    (i j r c : nat) :
  is2x2 M -> is2x2 dM -> is2x2 dMdM ->
  (i < 2)%nat -> (j < 2)%nat -> (r < 2)%nat -> (c < 2)%nat ->
  partial_at (fun M' => elem (Dim2Invariant2_dM M' dM) r c) i j M
    (elem (Dim2Invariant2_dMdM M i j dMdM) r c).
Proof.
  intros [Hh Hw] [Hh' Hw'] [Hh2 Hw2] Hi Hj Hr Hc.
  destruct M as [h w d]; destruct dM as [h' w' d'];
    destruct dMdM as [h2 w2 d2]; simpl in *; subst.
  unfold partial_at.
  two_cases i; two_cases j; two_cases r; two_cases c; unfold_dm;
    (eapply dl_value; [ repeat dl_rules | cbv beta; ring ]).
Qed.

Lemma Dim2Invariant2_dMdM_differentiates_dM_witness :
  partial_at (fun M' => elem (Dim2Invariant2_dM M' (DenseMatrix_new 2 2)) 1 0)
    0 1 (mat2 1 2 3 4)
    (elem (Dim2Invariant2_dMdM (mat2 1 2 3 4) 0 1 (DenseMatrix_new 2 2)) 1 0).
Proof.
  apply Dim2Invariant2_dMdM_differentiates_dM; try lia; split; reflexivity.
Defined.

(** Property X3.  The second derivative is symmetric: the entry [(r, c)] of
    [Dim2Invariant1_dMdM(M, i, j)] is the entry [(i, j)] of
    [Dim2Invariant1_dMdM(M, r, c)], for every 2x2 matrix [M]. *)
Theorem Dim2Invariant1_dMdM_symmetric (M D D' : DenseMatrix) (i j r c : nat) :
  is2x2 M -> is2x2 D -> is2x2 D' ->
  (i < 2)%nat -> (j < 2)%nat -> (r < 2)%nat -> (c < 2)%nat ->
  elem (Dim2Invariant1_dMdM M i j D) r c
  = elem (Dim2Invariant1_dMdM M r c D') i j.
Proof.
  intros [Hh Hw] [Hh' Hw'] [Hh2 Hw2] Hi Hj Hr Hc.
  destruct M as [h w d]; destruct D as [h' w' d'];
    destruct D' as [h2 w2 d2]; simpl in *; subst.
  two_cases i; two_cases j; two_cases r; two_cases c; unfold_dm;
    try reflexivity; unfold Rdiv; f_equal; ring.
Qed.

Lemma Dim2Invariant1_dMdM_symmetric_witness :
  elem (Dim2Invariant1_dMdM (mat2 1 2 3 4) 0 1 (DenseMatrix_new 2 2)) 1 0
  = elem (Dim2Invariant1_dMdM (mat2 1 2 3 4) 1 0 (DenseMatrix_new 2 2)) 0 1.
Proof.
  apply Dim2Invariant1_dMdM_symmetric; try lia; split; reflexivity.
Defined.

(** Property X4.  The second derivative is homogeneous of degree [-2]:
    scaling a non-singular [M] by [a <> 0] divides every entry of
    [Dim2Invariant1_dMdM(M, i, j)] by [a * a]. *)
Theorem Dim2Invariant1_dMdM_homogeneous (M D : DenseMatrix) (a : R)
    (i j r c : nat) :
  is2x2 M -> is2x2 D -> Det M <> 0 -> a <> 0 ->
  (i < 2)%nat -> (j < 2)%nat -> (r < 2)%nat -> (c < 2)%nat ->
  elem (Dim2Invariant1_dMdM (scale M a) i j D) r c
  = elem (Dim2Invariant1_dMdM M i j D) r c / (a * a).
Proof.
  intros [Hh Hw] [Hh' Hw'] Hdet Ha Hi Hj Hr Hc.
  destruct M as [h w d]; destruct D as [h' w' d']; simpl in *; subst.
  unfold scale.
  two_cases i; two_cases j; two_cases r; two_cases c; unfold_dm;
    field; repeat split; try assumption;
    match goal with
    | |- ?x <> 0 =>
        replace x with ((d 0%nat * d 3%nat - d 1%nat * d 2%nat) * (a * a)) by ring;
        apply Rmult_integral_contrapositive_currified;
        [ assumption | apply prod_neq0; assumption ]
    end.
Qed.

Lemma Dim2Invariant1_dMdM_homogeneous_witness :
  elem (Dim2Invariant1_dMdM (scale (mat2 2 0 0 1) 3) 0 0 (DenseMatrix_new 2 2)) 0 0
  = elem (Dim2Invariant1_dMdM (mat2 2 0 0 1) 0 0 (DenseMatrix_new 2 2)) 0 0
    / (3 * 3).
Proof.
  apply Dim2Invariant1_dMdM_homogeneous; try lia; try (split; reflexivity).
  - unfold Det, mat2. simpl. lra.
  - lra.
Defined.

(** ** The Setup kernel *)

(** Property X5.  The matrix [Jpt] from which the Setup kernel computes the
    tensor at a quadrature point is the gradient of the interpolated nodal
    field: its entry [(k, c)] is the sum over the nodes [(dx, dy)] of
    [X(dx, dy, k, e) * DS(dx, dy, c)].  The two sum-factorised passes of the
    kernel compute that direct contraction. *)
Theorem setup_jacobian_is_gradient_of_nodal_field
    (MAX_D1D MAX_Q1D T_D1D T_Q1D NE : nat) (xe_ w_ b1d_ g1d_ : nat -> R)
    (Jtr : DenseMatrix) (d1d q1d : nat) (m : mem) (e qx qy : nat) :
  let D1D := tpl T_D1D d1d in
  let Q1D := tpl T_Q1D q1d in
  (D1D <= tpl T_D1D MAX_D1D)%nat -> (Q1D <= tpl T_Q1D MAX_Q1D)%nat ->
  (e < NE)%nat -> (qx < Q1D)%nat -> (qy < Q1D)%nat ->
  let b := view2 Q1D b1d_ in
  let g := view2 Q1D g1d_ in
  let J := view2 VDIM (Data Jtr) in
  let X := view4 D1D D1D VDIM xe_ in
  exists Jpt : DenseMatrix,
    is2x2 Jpt /\
    (forall k c, (k < 2)%nat -> (c < 2)%nat ->
       elem Jpt k c
       = rsum D1D (fun dy => rsum D1D (fun dx =>
           X dx dy k e * DS b g J qx qy dx dy c))) /\
    (forall rr cc r c,
       (rr < 2)%nat -> (cc < 2)%nat -> (r < 2)%nat -> (c < 2)%nat ->
       vec_of (SetupGradPA_2D MAX_D1D MAX_Q1D T_D1D T_Q1D xe_ NE w_ b1d_ g1d_
                 Jtr d1d q1d m) v_p
         (ix7 VDIM VDIM VDIM VDIM Q1D Q1D rr cc r c qx qy e)
       = elem (Dim2Invariant1_dMdM Jpt r c (DenseMatrix_new 2 2)) rr cc
         * scaling_qp (view2 Q1D w_) J Jpt qx qy).
Proof.
  intros D1D Q1D HD HQ He Hqx Hqy b g J X.
  exists (Jpt_at D1D b g J X e qx qy).
  split; [split; reflexivity|]. split.
  - intros k c Hk Hc. now apply Jpt_at_elem.
  - intros rr cc r c Hrr Hcc Hr Hc.
    destruct (setup_kernel_spec MAX_D1D MAX_Q1D T_D1D T_Q1D xe_ NE w_ b1d_ g1d_
                Jtr d1d q1d HD HQ m) as (HP & _ & _).
    rewrite HP by assumption. reflexivity.
Qed.

Lemma setup_jacobian_is_gradient_of_nodal_field_witness :
  let out := SetupGradPA_2D 14 14 2 1 (unit_xe 1) 1 unit_w unit_b1d unit_g1d
               (mat2 1 0 0 1) 0 0 (fun _ => 0) in
  let b := view2 1 unit_b1d in
  let g := view2 1 unit_g1d in
  let J := view2 VDIM (Data (mat2 1 0 0 1)) in
  let X := view4 2 2 VDIM (unit_xe 1) in
  vec_of out v_p (ix7 VDIM VDIM VDIM VDIM 1 1 0 0 0 0 0 0 0) = 1 /\
  exists Jpt : DenseMatrix,
    is2x2 Jpt /\
    (forall k c, (k < 2)%nat -> (c < 2)%nat ->
       elem Jpt k c
       = rsum 2 (fun dy => rsum 2 (fun dx =>
           X dx dy k 0%nat * DS b g J 0 0 dx dy c))) /\
    (forall rr cc r c,
       (rr < 2)%nat -> (cc < 2)%nat -> (r < 2)%nat -> (c < 2)%nat ->
       vec_of out v_p (ix7 VDIM VDIM VDIM VDIM 1 1 rr cc r c 0 0 0)
       = elem (Dim2Invariant1_dMdM Jpt r c (DenseMatrix_new 2 2)) rr cc
         * scaling_qp (view2 1 unit_w) J Jpt 0 0).
Proof.
  intros out b g J X. split.
  - unfold out. rewrite unit_tensor by lia.
    destruct (Rlt_dec 1 0) as [Hn|_]; [lra|]. unfold_dm. field.
  - apply (setup_jacobian_is_gradient_of_nodal_field 14 14 2 1 1 (unit_xe 1)
             unit_w unit_b1d unit_g1d (mat2 1 0 0 1) 0 0 (fun _ => 0) 0 0 0);
      unfold tpl; simpl; lia.
Defined.

(** Property X6.  What the Setup kernel leaves in [g_] depends on the
    initial [g_] only, and what it stores in the cells of the tensor depends
    on no initial content: the kernel reads no scratch array before it has
    written it, and it overwrites the tensor. *)
Theorem setup_reads_no_initial_scratch
    (MAX_D1D MAX_Q1D T_D1D T_Q1D NE : nat) (xe_ w_ b1d_ g1d_ : nat -> R)
    (Jtr : DenseMatrix) (d1d q1d : nat) (m m' : mem) :
  let D1D := tpl T_D1D d1d in
  let Q1D := tpl T_Q1D q1d in
  (D1D <= tpl T_D1D MAX_D1D)%nat -> (Q1D <= tpl T_Q1D MAX_Q1D)%nat ->
  (forall n, vec_of m v_g n = vec_of m' v_g n) ->
  let S m := SetupGradPA_2D MAX_D1D MAX_Q1D T_D1D T_Q1D xe_ NE w_ b1d_ g1d_
               Jtr d1d q1d m in
  (forall n, vec_of (S m) v_g n = vec_of (S m') v_g n) /\
  (forall e qx qy rr cc r c,
     (e < NE)%nat -> (qx < Q1D)%nat -> (qy < Q1D)%nat ->
     (rr < 2)%nat -> (cc < 2)%nat -> (r < 2)%nat -> (c < 2)%nat ->
     vec_of (S m) v_p (ix7 VDIM VDIM VDIM VDIM Q1D Q1D rr cc r c qx qy e)
     = vec_of (S m') v_p (ix7 VDIM VDIM VDIM VDIM Q1D Q1D rr cc r c qx qy e)).
Proof.
  intros D1D Q1D HD HQ Hg.
  exact (setup_kernel_determined MAX_D1D MAX_Q1D T_D1D T_Q1D NE xe_ w_ b1d_
           g1d_ Jtr d1d q1d HD HQ m m' Hg).
Qed.

Lemma setup_reads_no_initial_scratch_witness :
  let S m := SetupGradPA_2D 14 14 2 1 (fun _ => 1) 1 (fun _ => 1) (fun _ => 1)
               (fun _ => 1) (mat2 1 0 0 1) 0 0 m in
  let m : mem := fun _ => 0 in
  let m' : mem := fun c => if buf_eq_dec (fst c) v_g then 0 else 7 in
  (forall n, vec_of (S m) v_g n = vec_of (S m') v_g n) /\
  (forall e qx qy rr cc r c,
     (e < 1)%nat -> (qx < 1)%nat -> (qy < 1)%nat ->
     (rr < 2)%nat -> (cc < 2)%nat -> (r < 2)%nat -> (c < 2)%nat ->
     vec_of (S m) v_p (ix7 VDIM VDIM VDIM VDIM 1 1 rr cc r c qx qy e)
     = vec_of (S m') v_p (ix7 VDIM VDIM VDIM VDIM 1 1 rr cc r c qx qy e)).
Proof.
  apply (setup_reads_no_initial_scratch 14 14 2 1 1 (fun _ => 1) (fun _ => 1)
           (fun _ => 1) (fun _ => 1) (mat2 1 0 0 1) 0 0 (fun _ => 0)
           (fun c => if buf_eq_dec (fst c) v_g then 0 else 7));
    try (unfold tpl; simpl; lia).
  intros n. unfold vec_of. cbn [fst].
  destruct (buf_eq_dec v_g v_g); [reflexivity|congruence].
Defined.

(** Property X7.  Running the Setup kernel a second time on the memory the
    first run left stores the same tensor and adds every block entry to
    [g_] once more: the tensor is overwritten, the blocks are accumulated. *)
Theorem setup_twice_keeps_tensor_and_doubles_blocks
    (MAX_D1D MAX_Q1D T_D1D T_Q1D NE : nat) (xe_ w_ b1d_ g1d_ : nat -> R)
    (Jtr : DenseMatrix) (d1d q1d : nat) (m : mem) (e qx qy : nat) :
  let D1D := tpl T_D1D d1d in
  let Q1D := tpl T_Q1D q1d in
  let dof := (D1D * D1D)%nat in
  (D1D <= tpl T_D1D MAX_D1D)%nat -> (Q1D <= tpl T_Q1D MAX_Q1D)%nat ->
  (e < NE)%nat -> (qx < Q1D)%nat -> (qy < Q1D)%nat ->
  let S m := SetupGradPA_2D MAX_D1D MAX_Q1D T_D1D T_Q1D xe_ NE w_ b1d_ g1d_
               Jtr d1d q1d m in
  (forall rr cc r c,
     (rr < 2)%nat -> (cc < 2)%nat -> (r < 2)%nat -> (c < 2)%nat ->
     vec_of (S (S m)) v_p (ix7 VDIM VDIM VDIM VDIM Q1D Q1D rr cc r c qx qy e)
     = vec_of (S m) v_p (ix7 VDIM VDIM VDIM VDIM Q1D Q1D rr cc r c qx qy e)) /\
  (forall i1 i2 j1 j2 r rr,
     (i1 < D1D)%nat -> (i2 < D1D)%nat -> (j1 < D1D)%nat -> (j2 < D1D)%nat ->
     (r < 2)%nat -> (rr < 2)%nat ->
     let idx := ix5 Q1D Q1D (dof * VDIM) (dof * VDIM) qx qy
                  ((i2 + i1 * D1D) + r * dof) ((j2 + j1 * D1D) + rr * dof) e in
     vec_of (S (S m)) v_g idx - vec_of m v_g idx
     = 2 * (vec_of (S m) v_g idx - vec_of m v_g idx)).
Proof.
  intros D1D Q1D dof HD HQ He Hqx Hqy S. unfold S.
  destruct (setup_kernel_spec MAX_D1D MAX_Q1D T_D1D T_Q1D xe_ NE w_ b1d_ g1d_
              Jtr d1d q1d HD HQ m) as (HP1 & HG1 & _).
  destruct (setup_kernel_spec MAX_D1D MAX_Q1D T_D1D T_Q1D xe_ NE w_ b1d_ g1d_
              Jtr d1d q1d HD HQ
              (SetupGradPA_2D MAX_D1D MAX_Q1D T_D1D T_Q1D xe_ NE w_ b1d_ g1d_
                 Jtr d1d q1d m)) as (HP2 & HG2 & _).
  fold D1D Q1D in HP1, HG1, HP2, HG2.
  split.
  - intros rr cc r c Hrr Hcc Hr Hc. rewrite HP2, HP1 by assumption. reflexivity.
  - intros i1 i2 j1 j2 r rr Hi1 Hi2 Hj1 Hj2 Hr Hrr. cbv zeta. unfold dof.
    rewrite (HG2 e qx qy i1 i2 j1 j2 r rr) by assumption.
    rewrite (HG1 e qx qy i1 i2 j1 j2 r rr) by assumption.
    ring.
Qed.

Lemma setup_twice_keeps_tensor_and_doubles_blocks_witness :
  let S m := SetupGradPA_2D 14 14 2 1 (unit_xe 1) 1 unit_w unit_b1d unit_g1d
               (mat2 1 0 0 1) 0 0 m in
  let m : mem := fun _ => 0 in
  (vec_of (S m) v_g 0 = 1 / 2 /\ vec_of (S (S m)) v_g 0 = 1) /\
  (forall rr cc r c,
     (rr < 2)%nat -> (cc < 2)%nat -> (r < 2)%nat -> (c < 2)%nat ->
     vec_of (S (S m)) v_p (ix7 VDIM VDIM VDIM VDIM 1 1 rr cc r c 0 0 0)
     = vec_of (S m) v_p (ix7 VDIM VDIM VDIM VDIM 1 1 rr cc r c 0 0 0)) /\
  (forall i1 i2 j1 j2 r rr,
     (i1 < 2)%nat -> (i2 < 2)%nat -> (j1 < 2)%nat -> (j2 < 2)%nat ->
     (r < 2)%nat -> (rr < 2)%nat ->
     let idx := ix5 1 1 (2 * 2 * VDIM) (2 * 2 * VDIM) 0 0
                  ((i2 + i1 * 2) + r * (2 * 2)) ((j2 + j1 * 2) + rr * (2 * 2)) 0 in
     vec_of (S (S m)) v_g idx - vec_of m v_g idx
     = 2 * (vec_of (S m) v_g idx - vec_of m v_g idx)).
Proof.
  intros S m. split.
  - unfold S. rewrite !unit_block. unfold m, vec_of. split; lra.
  - apply (setup_twice_keeps_tensor_and_doubles_blocks 14 14 2 1 1 (unit_xe 1)
             unit_w unit_b1d unit_g1d (mat2 1 0 0 1) 0 0 (fun _ => 0) 0 0 0);
      unfold tpl; simpl; lia.
Defined.

(** Property X8.  For the tensor the Setup kernel stored, the dense local
    Hessian that the Apply kernel contracts is symmetric: its entry at row
    [(dx, dy, k)] and column [(dx', dy', k')] is its entry at row
    [(dx', dy', k')] and column [(dx, dy, k)]. *)
Theorem assembled_hessian_is_symmetric
    (MAX_D1D MAX_Q1D T_D1D T_Q1D NE : nat) (xe_ w_ b1d_ g1d_ : nat -> R)
    (Jtr : DenseMatrix) (d1d q1d : nat) (m0 : mem)
    (e dx dy k dx' dy' k' : nat) :
  let D1D := tpl T_D1D d1d in
  let Q1D := tpl T_Q1D q1d in
  (D1D <= tpl T_D1D MAX_D1D)%nat -> (Q1D <= tpl T_Q1D MAX_Q1D)%nat ->
  (e < NE)%nat -> (k < 2)%nat -> (k' < 2)%nat ->
  let dP := view7 VDIM VDIM VDIM VDIM Q1D Q1D
              (vec_of (SetupGradPA_2D MAX_D1D MAX_Q1D T_D1D T_Q1D xe_ NE w_
                         b1d_ g1d_ Jtr d1d q1d m0) v_p) in
  let H := dense_hessian Q1D (view2 Q1D b1d_) (view2 Q1D g1d_)
             (view2 VDIM (Data Jtr)) dP e in
  H dx dy k dx' dy' k' = H dx' dy' k' dx dy k.
Proof.
  intros D1D Q1D HD HQ He Hk Hk' dP H. unfold H, dense_hessian.
  destruct (setup_kernel_spec MAX_D1D MAX_Q1D T_D1D T_Q1D xe_ NE w_ b1d_ g1d_
              Jtr d1d q1d HD HQ m0) as (HP & _ & _).
  fold D1D Q1D in HP.
  apply rsum_ext. intros qy Hqy. apply rsum_ext. intros qx Hqx.
  rewrite rsum_swap.
  apply rsum_ext. intros c Hc. apply rsum_ext. intros j Hj.
  unfold dim in Hc, Hj. unfold dP, view7.
  rewrite !HP by assumption. unfold Pval.
  rewrite (Dim2Invariant1_dMdM_sym _ k j k' c) by (try assumption; split; reflexivity).
  ring.
Qed.

Lemma assembled_hessian_is_symmetric_witness :
  let dP := view7 VDIM VDIM VDIM VDIM 1 1
              (vec_of (SetupGradPA_2D 14 14 2 1 (unit_xe 1) 1 unit_w unit_b1d
                         unit_g1d (mat2 1 0 0 1) 0 0 (fun _ => 0)) v_p) in
  let H := dense_hessian 1 (view2 1 unit_b1d) (view2 1 unit_g1d)
             (view2 VDIM (Data (mat2 1 0 0 1))) dP 0 in
  H 0%nat 0%nat 0%nat 1%nat 0%nat 1%nat = - (1 / 2) /\
  H 0%nat 0%nat 0%nat 1%nat 0%nat 1%nat = H 1%nat 0%nat 1%nat 0%nat 0%nat 0%nat.
Proof.
  intros dP H. split.
  - unfold H, dense_hessian, dP, view7, rsum, dim.
    rewrite !unit_tensor by lia. rewrite !unit_DS by lia.
    destruct (Rlt_dec 1 0) as [Hn|_]; [lra|]. unfold_dm. field.
  - apply (assembled_hessian_is_symmetric 14 14 2 1 1 (unit_xe 1) unit_w
             unit_b1d unit_g1d (mat2 1 0 0 1) 0 0 (fun _ => 0)
             0 0 0 0 1 0 1); unfold tpl; simpl; lia.
Defined.

(** ** The Apply kernel *)

(** Property X9.  Two runs of the Apply kernel accumulate: running it with
    the trial field [v] on the memory left by a run with [u] leaves in [y_]
    what one run with [u + v] leaves. *)
Theorem apply_twice_accumulates
    (MAX_D1D MAX_Q1D T_D1D T_Q1D NE : nat) (b1d_ g1d_ : nat -> R)
    (Jtr : DenseMatrix) (p_ u v : nat -> R) (d1d q1d : nat) (m : mem)
    (i : nat) :
  (tpl T_D1D d1d <= tpl T_D1D MAX_D1D)%nat ->
  (tpl T_Q1D q1d <= tpl T_Q1D MAX_Q1D)%nat ->
  let K x_ m := AddMultGradPA_Kernel_2D MAX_D1D MAX_Q1D T_D1D T_Q1D NE
                  b1d_ g1d_ Jtr p_ x_ d1d q1d m in
  vec_of (K v (K u m)) v_y i = vec_of (K (fun n => u n + v n) m) v_y i.
Proof.
  intros HD HQ K. unfold K.
  destruct (apply_kernel_spec _ _ _ _ NE b1d_ g1d_ Jtr _ _ HD HQ p_ u m) as [A1 B1].
  destruct (apply_kernel_spec _ _ _ _ NE b1d_ g1d_ Jtr _ _ HD HQ p_ v
              (AddMultGradPA_Kernel_2D MAX_D1D MAX_Q1D T_D1D T_Q1D NE
                 b1d_ g1d_ Jtr p_ u d1d q1d m)) as [A2 B2].
  destruct (apply_kernel_spec _ _ _ _ NE b1d_ g1d_ Jtr _ _ HD HQ p_
              (fun n => u n + v n) m) as [A3 B3].
  destruct (classic (exists e, (e < NE)%nat /\ Y_cell_of (tpl T_D1D d1d) e (v_y, i)))
    as [(e & He & dx & dy & k & Hdx & Hdy & Hk & E) | Hno].
  - inversion E. subst i. rewrite A2, A1, A3 by assumption.
    replace (view4 (tpl T_D1D d1d) (tpl T_D1D d1d) VDIM (fun n => u n + v n))
      with (fun a b c d => view4 (tpl T_D1D d1d) (tpl T_D1D d1d) VDIM u a b c d
                           + view4 (tpl T_D1D d1d) (tpl T_D1D d1d) VDIM v a b c d)
      by reflexivity.
    rewrite dense_apply_plus. ring.
  - assert (H : forall e, (e < NE)%nat -> ~ Y_cell_of (tpl T_D1D d1d) e (v_y, i))
      by (intros e He Hc; apply Hno; eauto).
    rewrite B2, B1, B3 by exact H. reflexivity.
Qed.

Lemma apply_twice_accumulates_witness :
  let K x_ m := AddMultGradPA_Kernel_2D 14 14 2 1 1 (fun _ => 1) (fun _ => 1)
                  (mat2 1 0 0 1) (fun _ => 1) x_ 0 0 m in
  vec_of (K (fun _ => 2) (K (fun _ => 1) (fun _ => 0))) v_y 0
  = vec_of (K (fun n => (fun _ => 1) n + (fun _ => 2) n) (fun _ => 0)) v_y 0.
Proof.
  apply (apply_twice_accumulates 14 14 2 1 1 (fun _ => 1) (fun _ => 1)
           (mat2 1 0 0 1) (fun _ => 1) (fun _ => 1) (fun _ => 2) 0 0
           (fun _ => 0) 0); unfold tpl; simpl; lia.
Defined.

(** Property X10.  The Apply kernel is local to the elements: the cells of
    [y_] of the element [e] depend on the trial field and on the tensor at
    the element [e] only. *)
Theorem apply_is_element_local
    (MAX_D1D MAX_Q1D T_D1D T_Q1D NE : nat) (b1d_ g1d_ : nat -> R)
    (Jtr : DenseMatrix) (p_ p_' x_ x_' : nat -> R) (d1d q1d : nat) (m : mem)
    (e dx dy k : nat) :
  let D1D := tpl T_D1D d1d in
  let Q1D := tpl T_Q1D q1d in
  (D1D <= tpl T_D1D MAX_D1D)%nat -> (Q1D <= tpl T_Q1D MAX_Q1D)%nat ->
  (e < NE)%nat -> (dx < D1D)%nat -> (dy < D1D)%nat -> (k < VDIM)%nat ->
  (forall dx' dy' k', (dx' < D1D)%nat -> (dy' < D1D)%nat -> (k' < 2)%nat ->
     x_ (ix4 D1D D1D VDIM dx' dy' k' e) = x_' (ix4 D1D D1D VDIM dx' dy' k' e)) ->
  (forall rr cc r c qx qy,
     (rr < 2)%nat -> (cc < 2)%nat -> (r < 2)%nat -> (c < 2)%nat ->
     (qx < Q1D)%nat -> (qy < Q1D)%nat ->
     p_ (ix7 VDIM VDIM VDIM VDIM Q1D Q1D rr cc r c qx qy e)
     = p_' (ix7 VDIM VDIM VDIM VDIM Q1D Q1D rr cc r c qx qy e)) ->
  vec_of (AddMultGradPA_Kernel_2D MAX_D1D MAX_Q1D T_D1D T_Q1D NE
            b1d_ g1d_ Jtr p_ x_ d1d q1d m) v_y (ix4 D1D D1D VDIM dx dy k e)
  = vec_of (AddMultGradPA_Kernel_2D MAX_D1D MAX_Q1D T_D1D T_Q1D NE
              b1d_ g1d_ Jtr p_' x_' d1d q1d m) v_y (ix4 D1D D1D VDIM dx dy k e).
Proof.
  intros D1D Q1D HD HQ He Hdx Hdy Hk HX HP.
  rewrite !(proj1 (apply_kernel_spec _ _ _ _ NE b1d_ g1d_ Jtr _ _ HD HQ _ _ m))
    by assumption.
  f_equal. apply dense_apply_ext.
  - exact Hk.
  - intros. unfold view4. now apply HX.
  - intros. unfold view7. now apply HP.
Qed.

Lemma apply_is_element_local_witness :
  vec_of (AddMultGradPA_Kernel_2D 14 14 2 1 2 (fun _ => 1) (fun _ => 1)
            (mat2 1 0 0 1) (fun _ => 1) (fun _ => 1) 0 0 (fun _ => 0)) v_y
    (ix4 2 2 VDIM 0 0 0 0)
  = vec_of (AddMultGradPA_Kernel_2D 14 14 2 1 2 (fun _ => 1) (fun _ => 1)
              (mat2 1 0 0 1)
              (fun n => if (n <? 16)%nat then 1 else 5)
              (fun n => if (n <? 8)%nat then 1 else 7) 0 0 (fun _ => 0)) v_y
      (ix4 2 2 VDIM 0 0 0 0).
Proof.
  apply (apply_is_element_local 14 14 2 1 2 (fun _ => 1) (fun _ => 1)
           (mat2 1 0 0 1) (fun _ => 1) (fun n => if (n <? 16)%nat then 1 else 5)
           (fun _ => 1) (fun n => if (n <? 8)%nat then 1 else 7) 0 0
           (fun _ => 0) 0 0 0 0);
    try (unfold tpl, VDIM; simpl; lia).
  - intros dx' dy' k' Hx Hy Hk. change (tpl 2 0) with 2%nat in *.
    unfold ix4, VDIM.
    destruct (Nat.ltb_spec (dx' + 2 * (dy' + 2 * (k' + 2 * 0))) 8);
      [reflexivity | lia].
  - intros rr cc r c qx qy Hrr Hcc Hr Hc Hqx Hqy.
    change (tpl 1 0) with 1%nat in *. unfold ix7, VDIM.
    destruct (Nat.ltb_spec
                (rr + 2 * (cc + 2 * (r + 2 * (c + 2 * (qx + 1 * (qy + 1 * 0)))))) 16);
      [reflexivity | lia].
Defined.

(** Property X11.  When the Setup kernel starts from a zeroed [g_], what the
    Apply kernel adds to [y_] for the tensor it stored is the product of the
    blocks assembled in [g_], summed over the quadrature points, with the
    trial field; the block row of the node [(dx, dy)] and the component [k]
    is [dy + dx * D1D + k * dof]. *)
Theorem apply_multiplies_by_assembled_blocks
    (MAX_D1D MAX_Q1D T_D1D T_Q1D NE : nat) (xe_ w_ b1d_ g1d_ : nat -> R)
    (Jtr : DenseMatrix) (x_ : nat -> R) (d1d q1d : nat) (m0 m : mem)
    (e dx dy k : nat) :
  let D1D := tpl T_D1D d1d in
  let Q1D := tpl T_Q1D q1d in
  let dof := (D1D * D1D)%nat in
  (D1D <= tpl T_D1D MAX_D1D)%nat -> (Q1D <= tpl T_Q1D MAX_Q1D)%nat ->
  (forall n, vec_of m0 v_g n = 0) ->
  (e < NE)%nat -> (dx < D1D)%nat -> (dy < D1D)%nat -> (k < VDIM)%nat ->
  let ms := SetupGradPA_2D MAX_D1D MAX_Q1D T_D1D T_Q1D xe_ NE w_ b1d_ g1d_
              Jtr d1d q1d m0 in
  let out := AddMultGradPA_Kernel_2D MAX_D1D MAX_Q1D T_D1D T_Q1D NE
               b1d_ g1d_ Jtr (vec_of ms v_p) x_ d1d q1d m in
  vec_of out v_y (ix4 D1D D1D VDIM dx dy k e)
  = vec_of m v_y (ix4 D1D D1D VDIM dx dy k e)
    + rsum D1D (fun dy' => rsum D1D (fun dx' => rsum VDIM (fun k' =>
        rsum Q1D (fun qy => rsum Q1D (fun qx =>
          vec_of ms v_g
            (ix5 Q1D Q1D (dof * VDIM) (dof * VDIM) qx qy
               ((dy + dx * D1D) + k * dof) ((dy' + dx' * D1D) + k' * dof) e)))
        * x_ (ix4 D1D D1D VDIM dx' dy' k' e)))).
Proof.
  intros D1D Q1D dof HD HQ Hz He Hdx Hdy Hk.
  exact (apply_block_product MAX_D1D MAX_Q1D T_D1D T_Q1D NE w_ b1d_ g1d_ Jtr
           d1d q1d HD HQ xe_ x_ m0 m e dx dy k Hz He Hdx Hdy Hk).
Qed.

Lemma apply_multiplies_by_assembled_blocks_witness :
  let ms := SetupGradPA_2D 14 14 2 1 (unit_xe 1) 1 unit_w unit_b1d unit_g1d
              (mat2 1 0 0 1) 0 0 (fun _ => 0) in
  let out := AddMultGradPA_Kernel_2D 14 14 2 1 1 unit_b1d unit_g1d
               (mat2 1 0 0 1) (vec_of ms v_p) node0 0 0 (fun _ => 0) in
  vec_of out v_y (ix4 2 2 VDIM 0 0 0 0) = 1 / 2 /\
  vec_of out v_y (ix4 2 2 VDIM 0 0 0 0)
  = vec_of (fun _ => 0) v_y (ix4 2 2 VDIM 0 0 0 0)
    + rsum 2 (fun dy' => rsum 2 (fun dx' => rsum VDIM (fun k' =>
        rsum 1 (fun qy => rsum 1 (fun qx =>
          vec_of ms v_g
            (ix5 1 1 (2 * 2 * VDIM) (2 * 2 * VDIM) qx qy
               ((0 + 0 * 2) + 0 * (2 * 2)) ((dy' + dx' * 2) + k' * (2 * 2)) 0)))
        * node0 (ix4 2 2 VDIM dx' dy' k' 0)))).
Proof.
  intros ms out. split.
  - unfold out, ms. change (ix4 2 2 VDIM 0 0 0 0) with 0%nat.
    rewrite unit_apply by reflexivity. unfold vec_of. lra.
  - apply (apply_multiplies_by_assembled_blocks 14 14 2 1 1 (unit_xe 1)
             unit_w unit_b1d unit_g1d (mat2 1 0 0 1) node0
             0 0 (fun _ => 0) (fun _ => 0) 0 0 0 0);
      try (unfold tpl, VDIM; simpl; lia).
    intros n. reflexivity.
Defined.

(** ** The dispatcher *)

(** Property X12.  For [0 <= D1D < 2^27] and [0 <= Q1D < 16], and once the
    verifications hold, a call returns after the Apply kernel of the case
    [<D1D, Q1D, 1>] when [(D1D, Q1D)] is in [{2,...,5} x {1,...,5}], and it
    aborts with the message of the unknown kernel otherwise. *)
Theorem dispatch_on_small_configurations
    (MAX_D1D MAX_Q1D : nat) (Xe Re Ce : nat -> R) (scratch : mem)
    (I : TMOP_Integrator) (W : nat -> R) :
  (0 <= maps_ndof I < 2 ^ 27)%Z -> (0 <= maps_nqpt I < 16)%Z ->
  IntRule I = Some W -> Det (GeomToPerfGeomJac I) = 1 ->
  identity_entries (GeomToPerfGeomJac I) ->
  ((2 <= maps_ndof I <= 5)%Z /\ (1 <= maps_nqpt I <= 5)%Z ->
   exists r tr,
     AddMultGradPA MAX_D1D MAX_Q1D Xe Re Ce scratch I = Returned r /\
     calls (fst r)
     = tr ++ [Apply_call (Z.to_nat (maps_ndof I)) (Z.to_nat (maps_nqpt I))]) /\
  (~ ((2 <= maps_ndof I <= 5)%Z /\ (1 <= maps_nqpt I <= 5)%Z) ->
   AddMultGradPA MAX_D1D MAX_Q1D Xe Re Ce scratch I = Aborted "Unknown kernel.").
Proof.
  intros HD HQ HW Hdet HI.
  pose proof (kernel_id_small _ _ HD HQ) as Hid.
  split.
  - intros [H1 H2].
    pose proof (specialization_supported _ _ H1 H2) as ES. rewrite <- Hid in ES.
    destruct (AddMultGradPA_returns MAX_D1D MAX_Q1D Xe Re Ce scratch I W _
                HW Hdet HI ES) as [r E].
    destruct (AddMultGradPA_last_call _ _ _ _ _ _ _ _ _ _ ES E) as [tr Htr].
    exists r, tr. split; assumption.
  - intros Hout.
    apply (unknown_kernel_aborts _ _ _ _ _ _ _ W HW Hdet HI).
    rewrite Hid. apply specialization_unsupported; [lia | exact HQ | exact Hout].
Qed.

Lemma dispatch_on_small_configurations_witness :
  let I0 := mkIntegrator (Some (fun _ => 1)) 6 3 (fun _ => 1) (fun _ => 1) 1
              (mat2 1 0 0 1) false (fun _ => 0) (fun _ => 0) [] in
  AddMultGradPA 14 14 (fun _ => 0) (fun _ => 0) (fun _ => 0) (fun _ => 0) I0
  = Aborted "Unknown kernel.".
Proof.
  intros I0.
  apply (dispatch_on_small_configurations 14 14 (fun _ => 0) (fun _ => 0)
           (fun _ => 0) (fun _ => 0) I0 (fun _ => 1)).
  - cbn. lia.
  - cbn. lia.
  - reflexivity.
  - cbn. rewrite Det_mat2. ring.
  - exact identity_entries_I.
  - cbn. lia.
Defined.

(** Property X13.  Once the cache flag is set, calls never read the nodal
    field: replacing the argument [Xe] of every call of a sequence changes
    neither the outputs nor the integrator. *)
Theorem cached_calls_never_read_the_nodal_field
    (MAX_D1D MAX_Q1D : nat) (f : call_args -> nat -> R)
    (l : list call_args) (I : TMOP_Integrator) :
  setup I = true ->
  run_calls MAX_D1D MAX_Q1D
    (map (fun a => mkCall (f a) (arg_Re a) (arg_Ce a) (arg_scratch a)) l) I
  = run_calls MAX_D1D MAX_Q1D l I.
Proof.
  revert I. induction l as [|a l IH]; intros I Hs; [reflexivity|].
  cbn [map run_calls arg_Xe arg_Re arg_Ce arg_scratch].
  rewrite (cached_call_ignores_Xe _ _ (f a) (arg_Xe a)) by exact Hs.
  destruct (AddMultGradPA MAX_D1D MAX_Q1D (arg_Xe a) (arg_Re a) (arg_Ce a)
              (arg_scratch a) I) as [r1|msg] eqn:E1; [|reflexivity].
  cbn [bind].
  rewrite IH; [reflexivity|].
  now destruct (AddMultGradPA_config _ _ _ _ _ _ _ _ E1).
Qed.

Lemma cached_calls_never_read_the_nodal_field_witness :
  let I0 := mkIntegrator (Some (fun _ => 1)) 2 1 (fun _ => 1) (fun _ => 1) 1
              (mat2 1 0 0 1) true (fun _ => 0) (fun _ => 0) [] in
  let a0 := mkCall (fun _ => 0) (fun _ => 1) (fun _ => 0) (fun _ => 0) in
  run_calls 14 14
    (map (fun a => mkCall ((fun _ _ => 5) a) (arg_Re a) (arg_Ce a) (arg_scratch a))
       [a0; a0]) I0
  = run_calls 14 14 [a0; a0] I0.
Proof.
  intros I0 a0.
  apply (cached_calls_never_read_the_nodal_field 14 14 (fun _ _ => 5) [a0; a0] I0).
  reflexivity.
Defined.

(** Property X14.  A first call that passes the verifications returns, and
    it adds to [Ce] the product of the blocks it assembled in [Gpa], summed
    over the quadrature points, with [Re]. *)
Theorem first_call_multiplies_by_Gpa
    (MAX_D1D MAX_Q1D : nat) (Xe Re Ce : nat -> R) (scratch : mem)
    (I : TMOP_Integrator) (W : nat -> R) (D1D Q1D : nat) :
  IntRule I = Some W -> Det (GeomToPerfGeomJac I) = 1 ->
  identity_entries (GeomToPerfGeomJac I) ->
  specialization (kernel_id (maps_ndof I) (maps_nqpt I)) = Some (D1D, Q1D) ->
  setup I = false ->
  exists r,
    AddMultGradPA MAX_D1D MAX_Q1D Xe Re Ce scratch I = Returned r /\
    forall e dx dy k,
      (e < ne I)%nat -> (dx < D1D)%nat -> (dy < D1D)%nat -> (k < VDIM)%nat ->
      let dof := (D1D * D1D)%nat in
      snd r (ix4 D1D D1D VDIM dx dy k e)
      = Ce (ix4 D1D D1D VDIM dx dy k e)
        + rsum D1D (fun dy' => rsum D1D (fun dx' => rsum VDIM (fun k' =>
            rsum Q1D (fun qy => rsum Q1D (fun qx =>
              Gpa (fst r)
                (ix5 Q1D Q1D (dof * VDIM) (dof * VDIM) qx qy
                   ((dy + dx * D1D) + k * dof)
                   ((dy' + dx' * D1D) + k' * dof) e)))
            * Re (ix4 D1D D1D VDIM dx' dy' k' e)))).
Proof.
  intros HW Hdet HI ES Hs.
  exact (first_call_block_product MAX_D1D MAX_Q1D Xe Re Ce scratch I W D1D Q1D
           HW Hdet HI ES Hs).
Qed.

Lemma first_call_multiplies_by_Gpa_witness :
  let I0 := mkIntegrator (Some unit_w) 2 1 unit_b1d unit_g1d 1 (mat2 1 0 0 1)
              false (fun _ => 0) (fun _ => 0) [] in
  (exists r,
     AddMultGradPA 14 14 (unit_xe 1) node0 (fun _ => 0) (fun _ => 0) I0
     = Returned r /\ snd r 0%nat = 1 / 2) /\
  exists r,
    AddMultGradPA 14 14 (unit_xe 1) node0 (fun _ => 0) (fun _ => 0) I0
    = Returned r /\
    forall e dx dy k,
      (e < ne I0)%nat -> (dx < 2)%nat -> (dy < 2)%nat -> (k < VDIM)%nat ->
      let dof := (2 * 2)%nat in
      snd r (ix4 2 2 VDIM dx dy k e)
      = (fun _ => 0) (ix4 2 2 VDIM dx dy k e)
        + rsum 2 (fun dy' => rsum 2 (fun dx' => rsum VDIM (fun k' =>
            rsum 1 (fun qy => rsum 1 (fun qx =>
              Gpa (fst r)
                (ix5 1 1 (dof * VDIM) (dof * VDIM) qx qy
                   ((dy + dx * 2) + k * dof)
                   ((dy' + dx' * 2) + k' * dof) e)))
            * node0 (ix4 2 2 VDIM dx' dy' k' e)))).
Proof.
  intros I0. split.
  - destruct (unit_first_call (fun _ => 0) (fun _ => 0) (fun _ => 0)
                (fun _ => 0) []) as (r & E & V).
    exists r. split; [exact E|]. rewrite V. lra.
  - apply (first_call_multiplies_by_Gpa 14 14 (unit_xe 1) node0
             (fun _ => 0) (fun _ => 0) I0 unit_w 2 1).
    + reflexivity.
    + cbn. rewrite Det_mat2. ring.
    + exact identity_entries_I.
    + reflexivity.
    + reflexivity.
Defined.

(** Property X15.  The cache a first call fills is determined by the nodal
    field and the configuration: [Gpa] and the cells of the tensor in [dPpa]
    do not depend on the trial field, on [Ce], on the scratch arrays nor on
    the earlier contents of [dPpa] and [Gpa]; [dPpa] beyond the tensor keeps
    its contents. *)
Theorem first_call_cache_is_determined
    (MAX_D1D MAX_Q1D : nat) (Xe Re Re' Ce Ce' : nat -> R)
    (scratch scratch' : mem) (I I' : TMOP_Integrator) (W : nat -> R)
    (D1D Q1D : nat) :
  IntRule I = Some W -> Det (GeomToPerfGeomJac I) = 1 ->
  identity_entries (GeomToPerfGeomJac I) ->
  specialization (kernel_id (maps_ndof I) (maps_nqpt I)) = Some (D1D, Q1D) ->
  config I' = config I -> setup I = false -> setup I' = false ->
  exists r r',
    AddMultGradPA MAX_D1D MAX_Q1D Xe Re Ce scratch I = Returned r /\
    AddMultGradPA MAX_D1D MAX_Q1D Xe Re' Ce' scratch' I' = Returned r' /\
    (forall n, Gpa (fst r) n = Gpa (fst r') n) /\
    (forall e qx qy rr cc r0 c,
       (e < ne I)%nat -> (qx < Q1D)%nat -> (qy < Q1D)%nat ->
       (rr < 2)%nat -> (cc < 2)%nat -> (r0 < 2)%nat -> (c < 2)%nat ->
       dPpa (fst r) (ix7 VDIM VDIM VDIM VDIM Q1D Q1D rr cc r0 c qx qy e)
       = dPpa (fst r') (ix7 VDIM VDIM VDIM VDIM Q1D Q1D rr cc r0 c qx qy e)) /\
    (forall n, (16 * Q1D * Q1D * ne I <= n)%nat -> dPpa (fst r) n = dPpa I n).
Proof.
  intros HW Hdet HI ES Hc Hs Hs'.
  pose proof (config_id _ _ Hc) as Hid.
  unfold config in Hc. inversion Hc as [[H1 H2 H3 H4 H5 H6 H7]]. clear Hc.
  destruct (AddMultGradPA_returns MAX_D1D MAX_Q1D Xe Re Ce scratch I W _
              HW Hdet HI ES) as [r E].
  destruct (AddMultGradPA_returns MAX_D1D MAX_Q1D Xe Re' Ce' scratch' I' W
              (D1D, Q1D)) as [r' E']; try congruence.
  exists r, r'. split; [exact E|]. split; [exact E'|].
  destruct (AddMultGradPA_first _ _ _ _ _ _ _ _ Hs E)
    as (W1 & d & q & HW1 & ES1 & _ & _ & _ & HP & HG & _).
  destruct (AddMultGradPA_first _ _ _ _ _ _ _ _ Hs' E')
    as (W2 & d' & q' & HW2 & ES2 & _ & _ & _ & HP' & HG' & _).
  rewrite ES in ES1. inversion ES1. subst d q. clear ES1.
  rewrite Hid, ES in ES2. inversion ES2. subst d' q'. clear ES2.
  rewrite HW in HW1. inversion HW1. subst W1. clear HW1.
  rewrite H1, HW in HW2. inversion HW2. subst W2. clear HW2.
  rewrite H4, H5, H6, H7 in HP', HG'.
  destruct (specialization_range _ _ _ ES) as (Hd & Hq & _).
  assert (TD : tpl D1D 0 = D1D) by (apply tpl_pos; lia).
  assert (TQ : tpl Q1D 0 = Q1D) by (apply tpl_pos; lia).
  assert (HDm : (tpl D1D 0 <= tpl D1D MAX_D1D)%nat) by (rewrite !tpl_pos; lia).
  assert (HQm : (tpl Q1D 0 <= tpl Q1D MAX_Q1D)%nat) by (rewrite !tpl_pos; lia).
  destruct (setup_kernel_determined MAX_D1D MAX_Q1D D1D Q1D (ne I) Xe W
              (maps_B I) (maps_G I) (GeomToPerfGeomJac I) 0 0 HDm HQm
              (with_vec (with_vec scratch v_p (dPpa I)) v_g (fun _ => 0))
              (with_vec (with_vec scratch' v_p (dPpa I')) v_g (fun _ => 0)))
    as [A B].
  { intros n. now rewrite !vec_of_with_vec. }
  rewrite TQ in B.
  split; [|split].
  - intros n. rewrite HG, HG'. apply A.
  - intros e qx qy rr cc r0 c He Hqx Hqy Hrr Hcc Hr Hcc'.
    try rewrite H6 in He. rewrite HP, HP'. now apply B.
  - intros n Hn. try rewrite H6 in Hn. rewrite HP.
    rewrite (setup_kernel_p_frame MAX_D1D MAX_Q1D D1D Q1D Xe (ne I) W
               (maps_B I) (maps_G I) (GeomToPerfGeomJac I) 0 0 HDm HQm).
    + unfold vec_of, with_vec. cbn [fst snd].
      destruct (buf_eq_dec v_p v_g); [discriminate|].
      destruct (buf_eq_dec v_p v_p); [reflexivity|congruence].
    + rewrite TQ. exact Hn.
Qed.

Lemma first_call_cache_is_determined_witness :
  let I0 := mkIntegrator (Some (fun _ => 1)) 2 1 (fun _ => 1) (fun _ => 1) 1
              (mat2 1 0 0 1) false (fun _ => 0) (fun _ => 0) [] in
  let I1 := mkIntegrator (Some (fun _ => 1)) 2 1 (fun _ => 1) (fun _ => 1) 1
              (mat2 1 0 0 1) false (fun _ => 3) (fun _ => 4) [] in
  exists r r',
    AddMultGradPA 14 14 (fun _ => 1) (fun _ => 1) (fun _ => 0) (fun _ => 0) I0
    = Returned r /\
    AddMultGradPA 14 14 (fun _ => 1) (fun _ => 2) (fun _ => 5) (fun _ => 6) I1
    = Returned r' /\
    (forall n, Gpa (fst r) n = Gpa (fst r') n) /\
    (forall e qx qy rr cc r0 c,
       (e < ne I0)%nat -> (qx < 1)%nat -> (qy < 1)%nat ->
       (rr < 2)%nat -> (cc < 2)%nat -> (r0 < 2)%nat -> (c < 2)%nat ->
       dPpa (fst r) (ix7 VDIM VDIM VDIM VDIM 1 1 rr cc r0 c qx qy e)
       = dPpa (fst r') (ix7 VDIM VDIM VDIM VDIM 1 1 rr cc r0 c qx qy e)) /\
    (forall n, (16 * 1 * 1 * ne I0 <= n)%nat -> dPpa (fst r) n = dPpa I0 n).
Proof.
  intros I0 I1.
  apply (first_call_cache_is_determined 14 14 (fun _ => 1) (fun _ => 1)
           (fun _ => 2) (fun _ => 0) (fun _ => 5) (fun _ => 0) (fun _ => 6)
           I0 I1 (fun _ => 1) 2 1).
  - reflexivity.
  - cbn. rewrite Det_mat2. ring.
  - exact identity_entries_I.
  - reflexivity.
  - reflexivity.
  - reflexivity.
  - reflexivity.
Defined.
